(** * NeoMutt Expando: parsing and the compiled Expando facade

    A shallow embedding of [expando/parse.c] (the conditional scans,
    [node_parse], [node_tree_parse]) and of [expando/expando.c]
    ([expando_new], [expando_parse], [expando_render], [expando_equal]),
    with the properties the specification states about them. *)

From Stdlib Require Import Ascii String List ZArith Lia Bool Arith.
Import ListNotations.

Set Warnings "-register-all".

Local Open Scope char_scope.
Local Open Scope list_scope.

(** ** C strings and pointers into them

    A [const char *] that points into a NUL-terminated string is modelled by
    what can be read through it: the bytes from the pointee up to, and not
    including, the terminating NUL.  The empty list is a pointer at the
    terminator.  Two pointers into the same string are ordered by how much of
    the string is left behind them. *)

Definition cstr := list ascii.

Definition NUL : ascii := "000".

(** [*p] *)
Definition deref (p : cstr) : ascii := hd NUL p.

(** [p + 1]; the source only ever steps over a byte that is not the NUL. *)
Definition ptr_next (p : cstr) : cstr := tl p.

(** [p < q], [p <= q] and [p == q] for pointers into one string. *)
Definition ptr_lt (p q : cstr) : bool := (length q <? length p)%nat.
Definition ptr_le (p q : cstr) : bool := (length q <=? length p)%nat.
Definition ptr_eq (p q : cstr) : bool := (length p =? length q)%nat.

(** Byte offset of pointer [p] into the string [s] it points into. *)
Definition offset (s p : cstr) : nat := length s - length p.

(** A string literal. *)
Definition lit (s : String.string) : cstr := list_ascii_of_string s.

(** ** Node model *)

Inductive ExpandoNodeType : Type :=
| ENT_EMPTY
| ENT_TEXT
| ENT_EXPANDO
| ENT_PADDING
| ENT_CONDITION
| ENT_CONDBOOL
| ENT_CONTAINER.

(** Slots of a Condition node, used by the tests through [node_get_child]. *)
Inductive ExpandoConditionalChild : Type :=
| ENC_CONDITION
| ENC_TRUE
| ENC_FALSE.

(** A pointer to a node is the head of a chain of siblings; the chain is a
    list, and the null pointer is the empty list.  A node's [children] array
    holds one such pointer per slot. *)
Inductive ExpandoNode : Type :=
| Node (type : ExpandoNodeType) (text : option cstr) (did uid : Z)
       (children : list (list ExpandoNode)).

Definition node_type (n : ExpandoNode) : ExpandoNodeType :=
  match n with Node t _ _ _ _ => t end.
Definition node_text (n : ExpandoNode) : option cstr :=
  match n with Node _ t _ _ _ => t end.
Definition node_children (n : ExpandoNode) : list (list ExpandoNode) :=
  match n with Node _ _ _ _ c => c end.

(** Modelled from the spec: [node_new] is missing from the sources; the spec
    has [empty()] return an Empty node, with no text and no children. *)
Definition node_new : ExpandoNode := Node ENT_EMPTY None 0 0 [].

(** The bytes in [start, end): [start] is the pointer, [end_] a later pointer
    into the same string. *)
Definition slice (start end_ : cstr) : cstr :=
  firstn (length start - length end_) start.

(** Modelled from the spec: [node_text_new(start, end)] is missing from the
    sources; the spec has a Text node hold a copy of the literal run. *)
Definition node_text_new (start end_ : cstr) : ExpandoNode :=
  Node ENT_TEXT (Some (slice start end_)) 0 0 [].

(** Modelled from the spec: [node_append] is missing from the sources; the
    spec has it append the node as a sibling to the tail of the list, which
    may be empty. *)
Definition node_append (root : list ExpandoNode) (new_node : ExpandoNode)
  : list ExpandoNode := root ++ [new_node].

(** Modelled from the spec: [node_condition_new] is missing from the sources;
    the spec has a Condition node hold three children in the fixed slots
    CONDITION, TRUE, FALSE. *)
Definition node_condition_new (condition if_true_tree if_false_tree : list ExpandoNode)
  : ExpandoNode :=
  Node ENT_CONDITION None 0 0 [condition; if_true_tree; if_false_tree].

Definition child_index (c : ExpandoConditionalChild) : nat :=
  match c with ENC_CONDITION => 0 | ENC_TRUE => 1 | ENC_FALSE => 2 end.

(** Modelled from the spec: [node_get_child] is missing from the sources; the
    spec has it return the child in the given slot (null when absent). *)
Definition node_get_child (n : ExpandoNode) (c : ExpandoConditionalChild)
  : list ExpandoNode := nth (child_index c) (node_children n) [].

(** ** Parse errors and definitions *)

(** [position] is a pointer into the parsed string, null when there is no
    error. *)
Record ExpandoParseError : Type := mkError {
  position : option cstr;
  message : cstr
}.

(** [struct ExpandoParseError error = { 0 };] *)
Definition error_zero : ExpandoParseError := mkError None [].

Inductive ExpandoDataType : Type := E_TYPE_NUMBER | E_TYPE_STRING.

Record ExpandoDefinition : Type := mkDef {
  short_name : cstr;
  long_name : option cstr;
  def_did : Z;
  def_uid : Z;
  data_type : ExpandoDataType
}.

Inductive ExpandoConditionStart : Type :=
| CON_NO_CONDITION
| CON_START.

(** ** The conditional scans of parse.c *)

(** The body of the [while] loop of [skip_until_if_true_end], with
    the locals [ctr] and [prev] passed along.  [ctr] is a C [int]; it moves
    by at most one per byte scanned (see [depth_bound] below), so it
    stays in range on any string shorter than 2^31 bytes. *)
Fixpoint skip_true_loop (start : cstr) (end_terminator : ascii)
         (ctr : Z) (prev : ascii) : cstr :=
  match start with
  | [] => start
  | c :: rest =>
      if (ctr =? 0)%Z &&
         (((c =? end_terminator) && negb (prev =? "%")) || (c =? "&"))
      then start
      else
        let ctr1 := if (prev =? "%") && (c =? "<") then (ctr + 1)%Z else ctr in
        let ctr2 := if (c =? ">") && negb (prev =? "%") then (ctr1 - 1)%Z else ctr1 in
        skip_true_loop rest end_terminator ctr2 c
  end.

Definition skip_until_if_true_end (start : cstr) (end_terminator : ascii) : cstr :=
  skip_true_loop start end_terminator 0 NUL.

Fixpoint skip_false_loop (start : cstr) (end_terminator : ascii)
         (ctr : Z) (prev : ascii) : cstr :=
  match start with
  | [] => start
  | c :: rest =>
      if (ctr =? 0)%Z && (c =? end_terminator) && negb (prev =? "%")
      then start
      else
        let ctr1 := if (prev =? "%") && (c =? "<") then (ctr + 1)%Z else ctr in
        let ctr2 := if (c =? ">") && negb (prev =? "%") then (ctr1 - 1)%Z else ctr1 in
        skip_false_loop rest end_terminator ctr2 c
  end.

Definition skip_until_if_false_end (start : cstr) (end_terminator : ascii) : cstr :=
  skip_false_loop start end_terminator 0 NUL.

(** ** What parse.c calls and the sources do not contain

    [node_parse] hands the leaves of the grammar to functions of other files
    ([node_condbool_parse], [node_expando_parse], [node_text_parse],
    [skip_until_ch], [node_padding_repad]) and uses constants of missing
    headers.  They are the fields of an interface the parser is given. *)

(** What a parsing function hands back: a node together with the value it
    stored through [parsed_until], or the null pointer. *)
Inductive ParseResult : Type :=
| Parsed (node : ExpandoNode) (parsed_until : cstr)
| Null.

Definition ExpandoParserFlags := Z.

(** A leaf parser reads from [str], consults the definitions and its flags,
    and may write the error record. *)
Definition LeafParser : Type :=
  cstr -> list ExpandoDefinition -> ExpandoParserFlags -> ExpandoParseError ->
  ParseResult * ExpandoParseError.

Record Collaborators : Type := mkCollaborators {
  (** [sizeof(err->message)] *)
  MESSAGE_SIZE : nat;
  (** the translation macro [_()] *)
  gettext : cstr -> cstr;
  EP_NO_FLAGS : ExpandoParserFlags;
  EP_CONDITIONAL : ExpandoParserFlags;
  skip_until_ch : cstr -> ascii -> cstr;
  node_condbool_parse : LeafParser;
  node_expando_parse : LeafParser;
  (** [node_text_parse(str, end, parsed_until)] *)
  node_text_parse : cstr -> option cstr -> ParseResult;
  node_padding_repad : list ExpandoNode -> list ExpandoNode
}.

(** [snprintf(buf, size, fmt, c)] for a format whose conversions are [%c]:
    the expansion, cut to [size - 1] bytes. *)
Fixpoint format_c (fmt : cstr) (c : ascii) : cstr :=
  match fmt with
  | [] => []
  | x :: rest =>
      match rest with
      | y :: rest' =>
          if (x =? "%") && (y =? "c") then c :: format_c rest' c
          else x :: format_c rest c
      | [] => [x]
      end
  end.

Definition snprintf (size : nat) (fmt : cstr) (c : ascii) : cstr :=
  firstn (size - 1) (format_c fmt c).

Definition msg_missing : cstr := lit "Conditional expando is missing '%c'".
Definition msg_missing_amp : cstr := lit "Conditional expando is missing '&' or '%c'".

Definition is_con_start (c : ExpandoConditionStart) : bool :=
  match c with CON_START => true | CON_NO_CONDITION => false end.

Definition is_null {A : Type} (l : list A) : bool :=
  match l with [] => true | _ :: _ => false end.

(** ** node_parse *)

(** The loops [while (start_true < end_true)] and
    [while (start_false < end_false)] of [node_parse]: each round parses one
    node at [start], appends it to the branch, and moves [start] to where the
    parse stopped.  It yields the branch and the final [start], or nothing
    when a parse returned null.  [parse] is the recursive call with its other
    arguments fixed; [fuel] bounds the rounds. *)
Fixpoint parse_branch
         (parse : cstr -> ExpandoParseError -> option (ParseResult * ExpandoParseError))
         (fuel : nat) (start end_ : cstr) (branch : list ExpandoNode)
         (err : ExpandoParseError)
  : option (option (list ExpandoNode * cstr) * ExpandoParseError) :=
  if ptr_lt start end_ then
    match fuel with
    | O => None
    | S fuel' =>
        match parse start err with
        | None => None
        | Some (Null, err') => Some (None, err')
        | Some (Parsed node until, err') =>
            parse_branch parse fuel' until end_ (node_append branch node) err'
        end
    end
  else Some (Some (branch, start), err).

(** [if ((start == end) && !branch) branch = node_new();] *)
Definition fill_empty (start end_ : cstr) (branch : list ExpandoNode)
  : list ExpandoNode :=
  if ptr_eq start end_ && is_null branch then [node_new] else branch.

(** What [node_parse] makes of the node a leaf parser returned:
    [if (!node || err->position) { node_free(&node); return NULL; }
     return node;] *)
Definition checked_leaf (x : ParseResult * ExpandoParseError)
  : ParseResult * ExpandoParseError :=
  match fst x, position (snd x) with
  | Parsed node until, None => (Parsed node until, snd x)
  | _, _ => (Null, snd x)
  end.

(** [node_parse(str, end, condition_start, parsed_until, defs, err)].
    The result is the returned node with the value of [*parsed_until], and
    the error record as the call leaves it; [None] is a run that did not
    finish within [fuel] nested calls and loop rounds.  This is the view of
    the values: the calls of [node_free] on the error paths, and the
    [ASSERT(false)] below the loop (here the null return of a call whose
    loop is not entered), are recorded by [node_parse_mem] below, which
    returns the same values. *)
Fixpoint node_parse (K : Collaborators) (fuel : nat) (str : cstr) (end_ : option cstr)
         (condition_start : ExpandoConditionStart)
         (defs : list ExpandoDefinition) (err : ExpandoParseError) {struct fuel}
  : option (ParseResult * ExpandoParseError) :=
  match fuel with
  | O => None
  | S fuel' =>
      if is_null str || negb (match end_ with Some e => ptr_le str e | None => true end)
      then Some (Null, err) (* the loop is not entered *)
      else if (deref str =? "%") ||
              (is_con_start condition_start && ((deref str =? "?") || (deref str =? "<")))
      then
        let str := ptr_next str in
        if deref str =? "%" then
          Some (Parsed (node_text_new str (ptr_next str)) (ptr_next str), err)
        else if (deref str =? "?") || (deref str =? "<") then
          let old_style := deref str =? "?" in
          let end_terminator := if old_style then "?" else ">" in
          let cond_end := skip_until_ch K str "?" in
          match node_parse K fuel' str (Some cond_end) CON_START defs err with
          | None => None
          | Some (Null, err1) => Some (Null, err1)
          | Some (Parsed node_cond next, err1) =>
              if negb (deref next =? "?") then
                Some (Null, mkError (Some next)
                              (snprintf (MESSAGE_SIZE K) (gettext K msg_missing) "?"))
              else
                let str := ptr_next next in
                let end_true := skip_until_if_true_end str end_terminator in
                let only_true := deref end_true =? end_terminator in
                let invalid := negb (deref end_true =? "&") && negb only_true in
                if invalid then
                  Some (Null, mkError (Some end_true)
                                (snprintf (MESSAGE_SIZE K) (gettext K msg_missing_amp)
                                          end_terminator))
                else
                  match parse_branch
                          (fun s e => node_parse K fuel' s (Some end_true)
                                                 CON_NO_CONDITION defs e)
                          fuel' str end_true [] err1 with
                  | None => None
                  | Some (None, err2) => Some (Null, err2)
                  | Some (Some (branch_true, start_true), err2) =>
                      let node_true := fill_empty start_true end_true branch_true in
                      if only_true then
                        Some (Parsed (node_condition_new [node_cond] node_true [])
                                     (ptr_next end_true), err2)
                      else
                        let start_false := ptr_next end_true in
                        let end_false :=
                          skip_until_if_false_end start_false end_terminator in
                        if negb (deref end_false =? end_terminator) then
                          Some (Null, mkError (Some start_false)
                                        (snprintf (MESSAGE_SIZE K) (gettext K msg_missing)
                                                  end_terminator))
                        else
                          match parse_branch
                                  (fun s e => node_parse K fuel' s (Some end_false)
                                                         CON_NO_CONDITION defs e)
                                  fuel' start_false end_false [] err2 with
                          | None => None
                          | Some (None, err3) => Some (Null, err3)
                          | Some (Some (branch_false, start_false'), err3) =>
                              let node_false :=
                                fill_empty start_false' end_false branch_false in
                              Some (Parsed (node_condition_new [node_cond] node_true
                                                               node_false)
                                           (ptr_next end_false), err3)
                          end
                  end
          end
        else
          let flags := if is_con_start condition_start
                       then EP_CONDITIONAL K else EP_NO_FLAGS K in
          Some (checked_leaf
                  (if negb (Z.land flags (EP_CONDITIONAL K) =? 0)%Z
                   then node_condbool_parse K str defs flags err
                   else node_expando_parse K str defs flags err))
      else Some (node_text_parse K str end_, err)
  end.

(** The [while] loop of [node_tree_parse]. *)
Fixpoint tree_loop (K : Collaborators) (fuel rounds : nat) (start : cstr)
         (defs : list ExpandoDefinition) (root : list ExpandoNode)
         (err : ExpandoParseError)
  : option (list ExpandoNode * ExpandoParseError) :=
  if is_null start then Some (root, err)
  else
    match rounds with
    | O => None
    | S rounds' =>
        match node_parse K fuel start None CON_NO_CONDITION defs err with
        | None => None
        | Some (Null, err') => Some (root, err')
        | Some (Parsed node end_, err') =>
            tree_loop K fuel rounds' end_ defs (node_append root node) err'
        end
    end.

(** [node_tree_parse(root, string, defs, err)]: the new [*root] and the error
    record. *)
Definition node_tree_parse (K : Collaborators) (fuel : nat) (root : list ExpandoNode)
           (string : option cstr) (defs : list ExpandoDefinition)
           (err : ExpandoParseError)
  : option (list ExpandoNode * ExpandoParseError) :=
  match string with
  | None => Some (node_append root node_new, err)
  | Some start =>
      if is_null start then Some (node_append root node_new, err)
      else
        match tree_loop K fuel fuel start defs root err with
        | None => None
        | Some (root', err') => Some (node_padding_repad K root', err')
        end
  end.

(** ** The compiled Expando (expando.c) *)

(** [string] is the retained copy of the format string (null when
    [expando_new] was given a null or empty string), [node] the root of the
    parsed tree. *)
Record Expando : Type := mkExpando {
  string : option cstr;
  node : list ExpandoNode
}.

(** Modelled from the spec: [mutt_str_dup] is missing from the sources; the
    spec has the Expando retain its own copy of the format string.  The
    string library of the program makes no copy of a null or empty string:
    there the result is the null pointer, which the spec leaves unsaid. *)
Definition mutt_str_dup (str : option cstr) : option cstr :=
  match str with
  | Some (c :: rest) => Some (c :: rest)
  | Some [] => None
  | None => None
  end.

(** [expando_new(format)]: a zeroed Expando holding
    [mutt_str_dup(format)]. *)
Definition expando_new (format : option cstr) : Expando :=
  mkExpando (mutt_str_dup format) [].

(** A [struct Buffer] is modelled by its contents. *)
Definition Buffer := cstr.

(** Modelled from the spec: [buf_strcpy] is missing from the sources; the
    spec has the error message surface in the caller's buffer, so the copy
    replaces the contents of the buffer by the string. *)
Definition buf_strcpy (buf : Buffer) (s : cstr) : Buffer := s.

(** What a call of [expando_parse] leaves behind: the returned pointer, the
    caller's error buffer, and the trees it handed to [node_tree_free]. *)
Record ParseOutcome : Type := mkOutcome {
  ret : option Expando;
  err_buf : Buffer;
  released : list (list ExpandoNode)
}.

(** [expando_parse(str, defs, err)] *)
Definition expando_parse (K : Collaborators) (fuel : nat) (str : option cstr)
           (defs : option (list ExpandoDefinition)) (err : Buffer)
  : option ParseOutcome :=
  match str, defs with
  | Some s, Some d =>
      let exp := expando_new (Some s) in
      match node_tree_parse K fuel [] (string exp) d error_zero with
      | None => None
      | Some (root, error) =>
          match position error with
          | Some _ =>
              Some (mkOutcome None (buf_strcpy err (message error)) [root])
          | None =>
              Some (mkOutcome (Some (mkExpando (string exp) root)) err [])
          end
      end
  | _, _ => Some (mkOutcome None err [])
  end.

Definition is_none {A : Type} (o : option A) : bool :=
  match o with None => true | Some _ => false end.

(** [expando_render(exp, rdata, data, flags, max_cols, buf)]: the returned
    [int] and the buffer afterwards.  [node_render] is in a file the sources
    do not contain and is a parameter; a null [rdata] is [None]. *)
Definition expando_render {RenderData Data : Type}
           (node_render : list ExpandoNode -> RenderData -> Buffer -> Z -> Data -> Z
                          -> Z * Buffer)
           (exp : option Expando) (rdata : option RenderData) (data : Data)
           (flags : Z) (max_cols : Z) (buf : Buffer) : Z * Buffer :=
  match exp, rdata with
  | Some e, Some rd =>
      if is_null (node e) then (0%Z, buf)
      else
        let max_cols := if (max_cols =? -1)%Z then 8192%Z else max_cols in
        node_render (node e) rd buf max_cols data flags
  | _, _ => (0%Z, buf)
  end.

(** Modelled from the spec: [mutt_str_equal] is missing from the sources; the
    spec has the comparison hold exactly when the two strings are
    byte-identical. *)
Definition mutt_str_equal (a b : option cstr) : bool :=
  match a, b with
  | Some x, Some y =>
      (length x =? length y)%nat && forallb (fun p => fst p =? snd p) (combine x y)
  | None, None => true
  | _, _ => false
  end.

(** [expando_equal(a, b)] *)
Definition expando_equal (a b : option Expando) : bool :=
  if is_none a && is_none b then true
  else if xorb (is_none a) (is_none b) then false
  else
    match a, b with
    | Some ea, Some eb => mutt_str_equal (string ea) (string eb)
    | _, _ => false
    end.

(** ** The calls of the destructors

    [node_parse] and [expando_parse] release nodes on their error paths.
    The functions above give the values the calls return; the functions
    below are the same code, and record next to these values the destructor
    calls the code makes, in program order.  [node_free] and
    [node_tree_free] are missing from the sources: an event records the
    pointer the call is given, not what the callee does with it.  The two
    views agree on the values (see [node_parse_erase] and
    [expando_parse_erase] below). *)

Inductive Event : Type :=
(** [node_free(&ptr)]; the null pointer is the empty chain *)
| EvNodeFree (ptr : list ExpandoNode)
(** [node_tree_free(&ptr)] *)
| EvNodeTreeFree (ptr : list ExpandoNode)
(** [FREE(&exp->string)] *)
| EvFreeString (str : option cstr)
(** [FREE(ptr)] of an Expando *)
| EvFreeExpando
(** the [ASSERT(false)] below the loop of [node_parse] is reached *)
| EvAssert.

(** The values of a result, without the events. *)
Definition erase {A B : Type} (x : A * B * list Event) : A * B := fst x.

(** How a branch loop of [node_parse] ends: with the loop condition false,
    or on a null node, the branch built so far still in the local
    variable. *)
Inductive BranchResult : Type :=
| BranchDone (branch : list ExpandoNode) (start : cstr)
| BranchNull (branch : list ExpandoNode).

Definition branch_erase (r : BranchResult) : option (list ExpandoNode * cstr) :=
  match r with
  | BranchDone branch start => Some (branch, start)
  | BranchNull _ => None
  end.

(** The branch loops of [node_parse], as [parse_branch], with the events of
    the parses in the loop. *)
Fixpoint parse_branch_mem
         (parse : cstr -> ExpandoParseError
                  -> option (ParseResult * ExpandoParseError * list Event))
         (fuel : nat) (start end_ : cstr) (branch : list ExpandoNode)
         (err : ExpandoParseError)
  : option (BranchResult * ExpandoParseError * list Event) :=
  if ptr_lt start end_ then
    match fuel with
    | O => None
    | S fuel' =>
        match parse start err with
        | None => None
        | Some (Null, err', log) => Some (BranchNull branch, err', log)
        | Some (Parsed node until, err', log) =>
            match parse_branch_mem parse fuel' until end_ (node_append branch node) err' with
            | None => None
            | Some (r, err'', log') => Some (r, err'', log ++ log')
            end
        end
    end
  else Some (BranchDone branch start, err, []).

(** [if (!node || err->position) { node_free(&node); return NULL; }
     return node;] *)
Definition checked_leaf_mem (x : ParseResult * ExpandoParseError)
  : ParseResult * ExpandoParseError * list Event :=
  match fst x, position (snd x) with
  | Parsed node until, None => (Parsed node until, snd x, [])
  | Parsed node _, Some _ => (Null, snd x, [EvNodeFree [node]])
  | Null, _ => (Null, snd x, [EvNodeFree []])
  end.

(** [node_parse] with the destructor calls it makes.  On a null test
    nothing is released; on a test that does not stop at ['?'] and on a
    true branch without end, [node_cond]; on a null node in the true branch,
    [node_cond] and not [node_true]; on a false branch without end,
    [node_true] and [node_cond]; on a null node in the false branch,
    [node_true] and [node_cond] and not [node_false]. *)
Fixpoint node_parse_mem (K : Collaborators) (fuel : nat) (str : cstr) (end_ : option cstr)
         (condition_start : ExpandoConditionStart)
         (defs : list ExpandoDefinition) (err : ExpandoParseError) {struct fuel}
  : option (ParseResult * ExpandoParseError * list Event) :=
  match fuel with
  | O => None
  | S fuel' =>
      if is_null str || negb (match end_ with Some e => ptr_le str e | None => true end)
      then Some (Null, err, [EvAssert])
      else if (deref str =? "%") ||
              (is_con_start condition_start && ((deref str =? "?") || (deref str =? "<")))
      then
        let str := ptr_next str in
        if deref str =? "%" then
          Some (Parsed (node_text_new str (ptr_next str)) (ptr_next str), err, [])
        else if (deref str =? "?") || (deref str =? "<") then
          let old_style := deref str =? "?" in
          let end_terminator := if old_style then "?" else ">" in
          let cond_end := skip_until_ch K str "?" in
          match node_parse_mem K fuel' str (Some cond_end) CON_START defs err with
          | None => None
          | Some (Null, err1, log1) => Some (Null, err1, log1)
          | Some (Parsed node_cond next, err1, log1) =>
              if negb (deref next =? "?") then
                Some (Null, mkError (Some next)
                              (snprintf (MESSAGE_SIZE K) (gettext K msg_missing) "?"),
                      log1 ++ [EvNodeFree [node_cond]])
              else
                let str := ptr_next next in
                let end_true := skip_until_if_true_end str end_terminator in
                let only_true := deref end_true =? end_terminator in
                let invalid := negb (deref end_true =? "&") && negb only_true in
                if invalid then
                  Some (Null, mkError (Some end_true)
                                (snprintf (MESSAGE_SIZE K) (gettext K msg_missing_amp)
                                          end_terminator),
                        log1 ++ [EvNodeFree [node_cond]])
                else
                  match parse_branch_mem
                          (fun s e => node_parse_mem K fuel' s (Some end_true)
                                                     CON_NO_CONDITION defs e)
                          fuel' str end_true [] err1 with
                  | None => None
                  | Some (BranchNull _, err2, log2) =>
                      Some (Null, err2, log1 ++ log2 ++ [EvNodeFree [node_cond]])
                  | Some (BranchDone branch_true start_true, err2, log2) =>
                      let node_true := fill_empty start_true end_true branch_true in
                      if only_true then
                        Some (Parsed (node_condition_new [node_cond] node_true [])
                                     (ptr_next end_true), err2, log1 ++ log2)
                      else
                        let start_false := ptr_next end_true in
                        let end_false :=
                          skip_until_if_false_end start_false end_terminator in
                        if negb (deref end_false =? end_terminator) then
                          Some (Null, mkError (Some start_false)
                                        (snprintf (MESSAGE_SIZE K) (gettext K msg_missing)
                                                  end_terminator),
                                log1 ++ log2
                                ++ [EvNodeFree node_true; EvNodeFree [node_cond]])
                        else
                          match parse_branch_mem
                                  (fun s e => node_parse_mem K fuel' s (Some end_false)
                                                             CON_NO_CONDITION defs e)
                                  fuel' start_false end_false [] err2 with
                          | None => None
                          | Some (BranchNull _, err3, log3) =>
                              Some (Null, err3,
                                    log1 ++ log2 ++ log3
                                    ++ [EvNodeFree node_true; EvNodeFree [node_cond]])
                          | Some (BranchDone branch_false start_false', err3, log3) =>
                              let node_false :=
                                fill_empty start_false' end_false branch_false in
                              Some (Parsed (node_condition_new [node_cond] node_true
                                                               node_false)
                                           (ptr_next end_false), err3,
                                    log1 ++ log2 ++ log3)
                          end
                  end
          end
        else
          let flags := if is_con_start condition_start
                       then EP_CONDITIONAL K else EP_NO_FLAGS K in
          Some (checked_leaf_mem
                  (if negb (Z.land flags (EP_CONDITIONAL K) =? 0)%Z
                   then node_condbool_parse K str defs flags err
                   else node_expando_parse K str defs flags err))
      else Some (node_text_parse K str end_, err, [])
  end.

(** The [while] loop of [node_tree_parse], with the events of its parses. *)
Fixpoint tree_loop_mem (K : Collaborators) (fuel rounds : nat) (start : cstr)
         (defs : list ExpandoDefinition) (root : list ExpandoNode)
         (err : ExpandoParseError)
  : option (list ExpandoNode * ExpandoParseError * list Event) :=
  if is_null start then Some (root, err, [])
  else
    match rounds with
    | O => None
    | S rounds' =>
        match node_parse_mem K fuel start None CON_NO_CONDITION defs err with
        | None => None
        | Some (Null, err', log) => Some (root, err', log)
        | Some (Parsed node end_, err', log) =>
            match tree_loop_mem K fuel rounds' end_ defs (node_append root node) err' with
            | None => None
            | Some (root', err'', log') => Some (root', err'', log ++ log')
            end
        end
    end.

Definition node_tree_parse_mem (K : Collaborators) (fuel : nat) (root : list ExpandoNode)
           (string : option cstr) (defs : list ExpandoDefinition)
           (err : ExpandoParseError)
  : option (list ExpandoNode * ExpandoParseError * list Event) :=
  match string with
  | None => Some (node_append root node_new, err, [])
  | Some start =>
      if is_null start then Some (node_append root node_new, err, [])
      else
        match tree_loop_mem K fuel fuel start defs root err with
        | None => None
        | Some (root', err', log) => Some (node_padding_repad K root', err', log)
        end
  end.

(** [expando_free(ptr)], by the calls it makes: none on a null Expando,
    else [node_tree_free(&exp->node)], [FREE(&exp->string)] and
    [FREE(ptr)]. *)
Definition expando_free (ptr : option Expando) : list Event :=
  match ptr with
  | None => []
  | Some exp => [EvNodeTreeFree (node exp); EvFreeString (string exp); EvFreeExpando]
  end.

(** [expando_parse] with the destructor calls it makes. *)
Definition expando_parse_mem (K : Collaborators) (fuel : nat) (str : option cstr)
           (defs : option (list ExpandoDefinition)) (err : Buffer)
  : option (ParseOutcome * list Event) :=
  match str, defs with
  | Some s, Some d =>
      let exp := expando_new (Some s) in
      match node_tree_parse_mem K fuel [] (string exp) d error_zero with
      | None => None
      | Some (root, error, log) =>
          match position error with
          | Some _ =>
              Some (mkOutcome None (buf_strcpy err (message error)) [root],
                    log ++ [EvNodeTreeFree root] ++ expando_free (Some exp))
          | None =>
              Some (mkOutcome (Some (mkExpando (string exp) root)) err [], log)
          end
      end
  | _, _ => Some (mkOutcome None err [], [])
  end.

(** Whether a run has reached the [ASSERT(false)] of [node_parse]. *)
Definition asserts (log : list Event) : bool :=
  existsb (fun ev => match ev with EvAssert => true | _ => false end) log.

(** The pointers a run has handed to [node_free] and [node_tree_free]. *)
Definition released_pointers (log : list Event) : list (list ExpandoNode) :=
  flat_map (fun ev => match ev with
                      | EvNodeFree ptr => [ptr]
                      | EvNodeTreeFree ptr => [ptr]
                      | _ => []
                      end) log.

(** ** A reference instance of the missing collaborators

    The leaf parsers, the helper [skip_until_ch] and the re-pad pass live in
    files the sources do not contain.  This instance follows the
    specification's description of them; the concrete scenarios are run
    against it. *)
Module Reference.

(** Modelled from the spec: [skip_until_ch] is missing from the sources;
    the grammar has the test of a conditional end at the first ['?'], so
    the helper stops at the first occurrence of the character or at the end
    of the string. *)
Fixpoint skip_until_ch (start : cstr) (terminator : ascii) : cstr :=
  match start with
  | [] => []
  | c :: rest => if c =? terminator then start else skip_until_ch rest terminator
  end.

(** The run of a text node: up to a ['%'], the end of the string, or the
    [end] pointer. *)
Fixpoint text_end (start : cstr) (end_ : option cstr) : cstr :=
  match start with
  | [] => []
  | c :: rest =>
      if c =? "%" then start
      else if match end_ with Some e => ptr_le e start | None => false end
           then start
           else text_end rest end_
  end.

(** Modelled from the spec: [node_text_parse] is missing from the sources;
    the spec has it consume characters until it sees ['%'] or reaches the
    caller's terminator, return a Text node and leave the cursor at (not
    past) the terminator. *)
Definition node_text_parse (str : cstr) (end_ : option cstr) : ParseResult :=
  let stop := text_end str end_ in
  Parsed (node_text_new str stop) stop.

Definition is_digit (c : ascii) : bool :=
  (48 <=? nat_of_ascii c)%nat && (nat_of_ascii c <=? 57)%nat.

Fixpoint skip_digits (s : cstr) : cstr :=
  match s with
  | c :: rest => if is_digit c then skip_digits rest else s
  | [] => []
  end.

(** The format spec of the grammar:
    [("-"|"=")? ("0")? digits? ("." digits)?]. *)
Definition skip_spec (s : cstr) : cstr :=
  let s1 := match s with
            | c :: rest => if (c =? "-") || (c =? "=") then rest else s
            | [] => s
            end in
  let s2 := skip_digits s1 in
  match s2 with
  | c :: rest => if c =? "." then skip_digits rest else s2
  | [] => s2
  end.

Fixpoint starts_with (name s : cstr) : bool :=
  match name, s with
  | [], _ => true
  | x :: name', y :: s' => (x =? y) && starts_with name' s'
  | _ :: _, [] => false
  end.

(** The definition whose short name is the code of [len] bytes at [s]. *)
Definition find_code (len : nat) (s : cstr) (defs : list ExpandoDefinition)
  : option ExpandoDefinition :=
  find (fun d => (length (short_name d) =? len)%nat && starts_with (short_name d) s)
       defs.

Definition msg_unknown : cstr := lit "Unknown expando".

(** A leaf parser for a code: skip the format spec, read a two-byte code
    or else a one-byte code, record the matched definition on a node of
    kind [kind]; an unknown code is an error located at the code.  The
    width and justification that were read are not kept on the node. *)
Definition parse_code (kind : ExpandoNodeType) : LeafParser :=
  fun str defs flags err =>
    let code := skip_spec str in
    let found := match find_code 2 code defs with
                 | Some d => Some d
                 | None => find_code 1 code defs
                 end in
    match found with
    | Some d =>
        (Parsed (Node kind (Some (short_name d)) (def_did d) (def_uid d) [])
                (skipn (length (short_name d)) code), err)
    | None => (Null, mkError (Some code) msg_unknown)
    end.

(** Modelled from the spec: [node_condbool_parse] is missing from the
    sources; the spec has the test of a conditional be an expando code
    kept as a CondBool node, and an unknown code fail with a located
    error. *)
Definition node_condbool_parse : LeafParser := parse_code ENT_CONDBOOL.

(** Modelled from the spec: [node_expando_parse] is missing from the
    sources; the spec has it read the format spec and the code, record the
    matched definition on an Expando node, and fail with a located error
    on an unknown code. *)
Definition node_expando_parse : LeafParser := parse_code ENT_EXPANDO.

Definition is_padding (n : ExpandoNode) : bool :=
  match node_type n with ENT_PADDING => true | _ => false end.

(** The siblings regrouped around the first padding marker. *)
Fixpoint regroup (left l : list ExpandoNode) : list ExpandoNode :=
  match l with
  | [] => left
  | n :: rest =>
      if is_padding n
      then [Node ENT_CONTAINER None 0 0 [left]; n;
            Node ENT_CONTAINER None 0 0 [rest]]
      else regroup (left ++ [n]) rest
  end.

(** Modelled from the spec: [node_padding_repad] is missing from the
    sources; the spec has a list without padding markers left as it is,
    and a list with one regrouped around the marker as left group,
    padding, right group. *)
Definition node_padding_repad (root : list ExpandoNode) : list ExpandoNode :=
  if existsb is_padding root then regroup [] root else root.

(** Modelled from the spec: the headers with [sizeof(err->message)], the
    parser flags and the translation macro are missing from the sources;
    the spec has the message bounded and leaves localisation out, so the
    message is kept as written, in 128 bytes, with the flag in bit 0. *)
Definition K : Collaborators :=
  mkCollaborators 128 (fun m => m) 0%Z 1%Z skip_until_ch
                  node_condbool_parse node_expando_parse node_text_parse
                  node_padding_repad.

(** The definition table of the empty if-else tests. *)
Definition TestFormatDef : list ExpandoDefinition :=
  [ mkDef (lit "c") (Some (lit "cherry")) 1 2 E_TYPE_STRING;
    mkDef (lit "f") (Some (lit "fig")) 1 2 E_TYPE_STRING;
    mkDef (lit "t") (Some (lit "tangerine")) 1 3 E_TYPE_STRING ].

End Reference.

(** ** The scans as the specification words them

    The specification describes the scans by where they stop: the first
    byte, at nesting depth 0, that is a terminator.  These definitions follow
    its words, over an index into the scanned string. *)

(** The byte before index [i]; the scan starts with no byte behind it. *)
Definition prev_char (s : cstr) (i : nat) : ascii :=
  match i with
  | O => NUL
  | S j => nth j s NUL
  end.

(** A byte is escaped when the byte before it is ['%']. *)
Definition escaped (s : cstr) (i : nat) : bool := prev_char s i =? "%".

(** The nesting depth on reaching index [n]: every [%<] before it counts +1,
    every un-escaped ['>'] before it counts -1. *)
Fixpoint depth (s : cstr) (n : nat) : Z :=
  match n with
  | O => 0%Z
  | S i =>
      let d := depth s i in
      let d1 := if escaped s i && (nth i s NUL =? "<") then (d + 1)%Z else d in
      if (nth i s NUL =? ">") && negb (escaped s i) then (d1 - 1)%Z else d1
  end.

(** The end of the true branch read with both terminators un-escaped: an
    un-escaped ['&'] or
    an un-escaped end terminator, at depth 0. *)
Definition claimed_true_stop (s : cstr) (t : ascii) (i : nat) : bool :=
  (depth s i =? 0)%Z && negb (escaped s i) &&
  ((nth i s NUL =? "&") || (nth i s NUL =? t)).

(** The end of the true branch with any ['&'] at depth 0 ending it. *)
Definition true_stop (s : cstr) (t : ascii) (i : nat) : bool :=
  (depth s i =? 0)%Z &&
  ((nth i s NUL =? "&") || ((nth i s NUL =? t) && negb (escaped s i))).

(** The end of the false branch: an un-escaped end terminator at depth 0. *)
Definition false_stop (s : cstr) (t : ascii) (i : nat) : bool :=
  (depth s i =? 0)%Z && (nth i s NUL =? t) && negb (escaped s i).

(** The first index from [n] on, among the next [k], where [stop] holds; the
    index after them when there is none. *)
Fixpoint first_from (stop : nat -> bool) (n k : nat) : nat :=
  match k with
  | O => n
  | S k' => if stop n then n else first_from stop (S n) k'
  end.

(** The first stopping index of the string, its length when there is none. *)
Definition first_stop (stop : cstr -> ascii -> nat -> bool) (s : cstr) (t : ascii) : nat :=
  first_from (stop s t) 0 (length s).

(** ** What the parser relies on in its collaborators *)

(** A leaf parser that returns null has set the error position: the
    specification has every failure of a leaf produce a located error. *)
Definition located (p : LeafParser) : Prop :=
  forall str defs flags err err',
    p str defs flags err = (Null, err') -> position err' <> None.

Record WellBehaved (K : Collaborators) : Prop := mkWellBehaved {
  condbool_located : located (node_condbool_parse K);
  expando_located : located (node_expando_parse K);
  (** the text parser always returns a node *)
  text_total : forall str end_, node_text_parse K str end_ <> Null;
  (** [skip_until_ch] returns a pointer at or after its argument *)
  skip_forward : forall str c, length (skip_until_ch K str c) <= length str
}.

(** The flag [EP_CONDITIONAL] is a bit that [EP_NO_FLAGS] does not have. *)
Record FlagsDistinct (K : Collaborators) : Prop := mkFlagsDistinct {
  conditional_set : Z.land (EP_CONDITIONAL K) (EP_CONDITIONAL K) <> 0%Z;
  no_flags_clear : Z.land (EP_NO_FLAGS K) (EP_CONDITIONAL K) = 0%Z
}.

(** The messages of the parser come out as written: not translated, and the
    buffer is large enough for them. *)
Record PlainMessages (K : Collaborators) : Prop := mkPlainMessages {
  message_fits : 43 <= MESSAGE_SIZE K;
  untranslated : forall m, gettext K m = m
}.

(** A code that is neither the escape nor the start of a conditional. *)
Definition plain_code (str : cstr) : bool :=
  negb (deref str =? "%") && negb (deref str =? "?") && negb (deref str =? "<").

(** The end terminator of a conditional opened by [lead]: ['?'] for the
    legacy form, ['>'] for the modern one. *)
Definition terminator_of (lead : ascii) : ascii :=
  if lead =? "?" then "?" else ">".

(** The state in which [node_parse] is entered by its callers: [str] is not
    at the end of the string and not beyond [end]. *)
Definition entry_ok (str : cstr) (end_ : option cstr) : Prop :=
  str <> [] /\
  match end_ with Some e => length e <= length str | None => True end.

(** The run of the loop of [node_tree_parse] from [start]: the nodes it
    appended, whether it reached the end of the string ([true]) or left on a
    null node ([false]), and the error record it ends with. *)
Inductive tree_run (K : Collaborators) (fuel : nat) (defs : list ExpandoDefinition)
  : cstr -> ExpandoParseError -> list ExpandoNode -> bool -> ExpandoParseError -> Prop :=
| run_end (err : ExpandoParseError) :
    tree_run K fuel defs [] err [] true err
| run_null (start : cstr) (err err' : ExpandoParseError) :
    start <> [] ->
    node_parse K fuel start None CON_NO_CONDITION defs err = Some (Null, err') ->
    tree_run K fuel defs start err [] false err'
| run_node (start end_ : cstr) (err err1 err' : ExpandoParseError)
           (n : ExpandoNode) (l : list ExpandoNode) (completed : bool) :
    start <> [] ->
    node_parse K fuel start None CON_NO_CONDITION defs err = Some (Parsed n end_, err1) ->
    tree_run K fuel defs end_ err1 l completed err' ->
    tree_run K fuel defs start err (n :: l) completed err'.

(** A leaf parser leaves [parsed_until] at or after the pointer it was
    given. *)
Definition advances (p : LeafParser) : Prop :=
  forall str defs flags err n u err',
    p str defs flags err = (Parsed n u, err') -> length u <= length str.

(** The leaf parsers move forward; the text parser, entered on a byte that
    is not ['%'] and before [end], consumes at least that byte. *)
Record Advancing (K : Collaborators) : Prop := mkAdvancing {
  condbool_advances : advances (node_condbool_parse K);
  expando_advances : advances (node_expando_parse K);
  text_advances :
    forall str end_ n u,
      str <> [] -> (deref str =? "%") = false ->
      match end_ with Some e => length e < length str | None => True end ->
      node_text_parse K str end_ = Parsed n u -> length u < length str
}.

(** The byte at [str] starts a construct: ['%'], or at the start of a
    condition ['?'] or ['<']. *)
Definition starts_construct (str : cstr) (cs : ExpandoConditionStart) : bool :=
  (deref str =? "%") ||
  (is_con_start cs && ((deref str =? "?") || (deref str =? "<"))).

(** How the callers of [node_parse] enter it: not at the end of the string,
    and either strictly before [end], or at most at [end] on a byte that
    starts a construct (the test of a conditional). *)
Definition entry_strict (str : cstr) (end_ : option cstr) (cs : ExpandoConditionStart)
  : Prop :=
  str <> [] /\
  match end_ with
  | Some e => length e < length str \/
              (length e <= length str /\ starts_construct str cs = true)
  | None => True
  end.

(** [u] points into the string at or after [s]: it is what is left of [s]
    after some of its bytes. *)
Definition is_suffix (u s : cstr) : Prop := exists n, u = skipn n s.

(** A leaf parser keeps to the string it reads: [parsed_until] points into
    it, and an error position it sets points into it. *)
Definition stays_inside (p : LeafParser) : Prop :=
  forall str defs flags err r err',
    p str defs flags err = (r, err') ->
    (forall n u, r = Parsed n u -> is_suffix u str) /\
    (forall q, position err' = Some q -> position err = Some q \/ is_suffix q str).

Record Inside (K : Collaborators) : Prop := mkInside {
  condbool_inside : stays_inside (node_condbool_parse K);
  expando_inside : stays_inside (node_expando_parse K);
  text_inside : forall str end_ n u,
      node_text_parse K str end_ = Parsed n u -> is_suffix u str
}.

(** ** Maildir file flags (maildir/mailbox.c)

    [maildir_parse_flags] reads the flags that a Maildir file name carries
    after its last field delimiter, as in [1700000000.M1P2.host:2,FS]. *)

(** The part of [struct MaildirEmailData] the function touches. *)
Record MaildirEmailData : Type := mkEdata {
  custom_flags : option cstr
}.

(** The part of [struct Email] the function touches.  [edata] is null or
    points to the Maildir data of the email. *)
Record Email : Type := mkEmail {
  flagged : bool;
  read : bool;
  replied : bool;
  trash : bool;
  deleted : bool;
  edata : option MaildirEmailData
}.

(** What the function takes from the configuration and from the string
    library, none of which is in the sources: the first byte of
    [$maildir_field_delimiter], the value of [$flag_safe],
    [mutt_str_startswith(str, prefix)] (a [size_t]),
    [mutt_str_replace(&dst, src)] as the new value of [dst] given the old
    one, and the struct that [maildir_edata_new()] returns. *)
Record MaildirEnv : Type := mkMaildirEnv {
  c_maildir_field_delimiter : ascii;
  c_flag_safe : bool;
  mutt_str_startswith : cstr -> cstr -> nat;
  mutt_str_replace : option cstr -> cstr -> option cstr;
  maildir_edata_new : MaildirEmailData
}.

(** [strrchr(s, c)]: a pointer to the last [c] in [s], the terminating NUL
    counting as part of the string; null when there is none. *)
Fixpoint strrchr (s : cstr) (c : ascii) : option cstr :=
  match s with
  | [] => if c =? NUL then Some [] else None
  | x :: rest =>
      match strrchr rest c with
      | Some p => Some p
      | None => if x =? c then Some s else None
      end
  end.

(** [buf[k] = c] *)
Fixpoint store (k : nat) (c : ascii) (buf : cstr) : cstr :=
  match k, buf with
  | O, _ :: rest => c :: rest
  | S k', x :: rest => x :: store k' c rest
  | _, [] => []
  end.

Definition set_flagged (e : Email) (b : bool) : Email :=
  mkEmail b (read e) (replied e) (trash e) (deleted e) (edata e).
Definition set_read (e : Email) (b : bool) : Email :=
  mkEmail (flagged e) b (replied e) (trash e) (deleted e) (edata e).
Definition set_replied (e : Email) (b : bool) : Email :=
  mkEmail (flagged e) (read e) b (trash e) (deleted e) (edata e).
Definition set_trash_deleted (e : Email) : Email :=
  mkEmail (flagged e) (read e) (replied e) true true (edata e).
Definition set_edata (e : Email) (d : option MaildirEmailData) : Email :=
  mkEmail (flagged e) (read e) (replied e) (trash e) (deleted e) d.

(** The [while] loop of [maildir_parse_flags] over the flags at [p].  [buf]
    is what [edata->custom_flags] points to (null or the copy made by
    [mutt_str_replace]) and [q] the offset of the pointer [q] into it.  The
    result is [None] when the loop writes through a null [q]. *)
Fixpoint flags_loop (flag_safe : bool) (p : cstr) (e : Email) (buf : option cstr)
         (q : nat) : option (Email * option cstr * nat) :=
  match p with
  | [] => Some (e, buf, q)
  | c :: p' =>
      if c =? "F" then flags_loop flag_safe p' (set_flagged e true) buf q
      else if c =? "R" then flags_loop flag_safe p' (set_replied e true) buf q
      else if c =? "S" then flags_loop flag_safe p' (set_read e true) buf q
      else if c =? "T" then
        flags_loop flag_safe p'
                   (if negb (flagged e) || negb flag_safe then set_trash_deleted e else e)
                   buf q
      else
        match buf with
        | None => None
        | Some b => flags_loop flag_safe p' e (Some (store q c b)) (S q)
        end
  end.

(** The end of [maildir_parse_flags] after the loop:
    [if (q == edata->custom_flags) FREE(&edata->custom_flags);
     else if (q) *q = 0;] with [q] at offset [q] of the buffer [buf]. *)
Definition flags_finish (r : option (Email * option cstr * nat)) : option Email :=
  match r with
  | None => None
  | Some (e', buf, q) =>
      match buf, q with
      | Some b, S _ => Some (set_edata e' (Some (mkEdata (Some (firstn q b)))))
      | _, _ => Some (set_edata e' (Some (mkEdata None)))
      end
  end.

(** [maildir_parse_flags(e, path)]: the email afterwards.  [maildir_edata_get]
    is the accessor of [e->edata], as the fallback
    [e->edata = maildir_edata_new(); edata = e->edata;] reads it.  Without a
    flags section [q] stays null: [edata->custom_flags] is freed when it is
    null too, and left alone otherwise. *)
Definition maildir_parse_flags (env : MaildirEnv) (e : Email) (path : cstr)
  : option Email :=
  let e := set_replied (set_read (set_flagged e false) false) false in
  let ed := match edata e with
            | Some d => d
            | None => maildir_edata_new env
            end in
  match strrchr path (c_maildir_field_delimiter env) with
  | Some p =>
      if negb (mutt_str_startswith env (ptr_next p) (lit "2,") =? 0)%nat
      then
        let p := skipn 3 p in
        flags_finish (flags_loop (c_flag_safe env) p e
                                 (mutt_str_replace env (custom_flags ed) p) 0)
      else Some (set_edata e (Some ed))
  | None => Some (set_edata e (Some ed))
  end.

(** The string starts with the prefix. *)
Fixpoint has_prefix (prefix s : cstr) : bool :=
  match prefix, s with
  | [], _ => true
  | x :: prefix', y :: s' => (x =? y) && has_prefix prefix' s'
  | _ :: _, [] => false
  end.

(** The string library does what its names say: [mutt_str_startswith] with
    the prefix [2,] is non-zero exactly on a string that starts with it,
    [mutt_str_replace] leaves a copy of a
    non-empty source and null or an empty copy of an empty one, and a new
    Maildir data struct has no custom flags. *)
Record MaildirEnvOk (env : MaildirEnv) : Prop := mkMaildirEnvOk {
  startswith_ok : forall s,
      (mutt_str_startswith env s (lit "2,") =? 0)%nat = negb (has_prefix (lit "2,") s);
  replace_copies : forall old c s, mutt_str_replace env old (c :: s) = Some (c :: s);
  replace_empty : forall old,
      mutt_str_replace env old [] = None \/ mutt_str_replace env old [] = Some [];
  edata_new_zero : custom_flags (maildir_edata_new env) = None
}.

(** A flag that [maildir_parse_flags] keeps as a custom flag. *)
Definition is_custom_flag (c : ascii) : bool :=
  negb ((c =? "F") || (c =? "R") || (c =? "S") || (c =? "T")).

(** Whether the flags mark the email as trashed: they hold a ['T'] and,
    under [$flag_safe], no ['F'] before it ([seen] tells whether an ['F']
    came before the flags). *)
Fixpoint trashes (flag_safe seen : bool) (fl : cstr) : bool :=
  match fl with
  | [] => false
  | c :: rest =>
      if c =? "F" then trashes flag_safe true rest
      else if c =? "T" then (negb seen || negb flag_safe) || trashes flag_safe seen rest
      else trashes flag_safe seen rest
  end.

(** An environment to run [maildir_parse_flags] in: the delimiter [':'],
    [$flag_safe] set, and a string library that does what its names say. *)
Definition maildir_env : MaildirEnv :=
  mkMaildirEnv ":" true
               (fun s prefix => if has_prefix prefix s then length prefix else 0)
               (fun _ s => if is_null s then None else Some s)
               (mkEdata None).

(** ** Maildir statistics (maildir/mailbox.c)

    [maildir_check_dir] and [maildir_mbox_check_stats] count the messages of
    the [new] and [cur] directories of a Maildir by their file names. *)

Inductive MailboxType : Type := MUTT_UNKNOWN | MUTT_MAILDIR.

(** The part of [struct Mailbox] the two functions touch.  The four
    counters are C [int]s; they are modelled by integers without
    wrap-around, so an increment here is the increment of the program as
    long as the value stays in the range of [int] (see [counters_fit]). *)
Record Mailbox : Type := mkMailbox {
  msg_count : Z;
  msg_flagged : Z;
  msg_unread : Z;
  msg_new : Z;
  has_new : bool;
  type : MailboxType
}.

(** A directory entry as [readdir] returns it, with what the function asks
    the file system about the file: whether [stat] succeeds and its change
    time is not after [m->last_visited]. *)
Record DirEnt : Type := mkDirEnt {
  d_name : cstr;
  seen_before : bool
}.

(** A directory as the function sees it: whether [stat] succeeds and its
    modification time is before [m->last_visited], and the entries in the
    order of [readdir], or nothing when [mutt_file_opendir] fails. *)
Record DirView : Type := mkDirView {
  dir_untouched : bool;
  dir_entries : option (list DirEnt)
}.

(** The configuration, the flag constant of a missing header, and the file
    system under the mailbox path, by directory name. *)
Record CheckEnv : Type := mkCheckEnv {
  check_delimiter : ascii;
  c_mail_check_recent : bool;
  c_maildir_check_cur : bool;
  MUTT_MAILBOX_CHECK_STATS : Z;
  dir_view : cstr -> DirView
}.

(** [strchr(s, c)]: a pointer to the first [c] in [s], the terminating NUL
    counting as part of the string; null when there is none. *)
Fixpoint strchr (s : cstr) (c : ascii) : option cstr :=
  match s with
  | [] => if c =? NUL then Some [] else None
  | x :: rest => if x =? c then Some s else strchr rest c
  end.

(** [strstr(haystack, needle)]: a pointer to the first occurrence of
    [needle] in [haystack]; null when there is none. *)
Fixpoint strstr (haystack needle : cstr) : option cstr :=
  if has_prefix needle haystack then Some haystack
  else match haystack with
       | [] => None
       | _ :: rest => strstr rest needle
       end.

(** The C string that a byte array holds: its bytes up to the first NUL. *)
Fixpoint c_string (bytes : list ascii) : cstr :=
  match bytes with
  | [] => []
  | x :: rest => if x =? NUL then [] else x :: c_string rest
  end.

(** [p && strchr(p + 3, c)] for the result [p] of [strstr]. *)
Definition has_flag (p : option cstr) (c : ascii) : bool :=
  match p with
  | Some q => negb (is_none (strchr (skipn 3 q) c))
  | None => false
  end.

Definition incr_count (m : Mailbox) : Mailbox :=
  mkMailbox (msg_count m + 1) (msg_flagged m) (msg_unread m) (msg_new m) (has_new m) (type m).
Definition incr_flagged (m : Mailbox) : Mailbox :=
  mkMailbox (msg_count m) (msg_flagged m + 1) (msg_unread m) (msg_new m) (has_new m) (type m).
Definition incr_unread (m : Mailbox) : Mailbox :=
  mkMailbox (msg_count m) (msg_flagged m) (msg_unread m + 1) (msg_new m) (has_new m) (type m).
Definition incr_new (m : Mailbox) : Mailbox :=
  mkMailbox (msg_count m) (msg_flagged m) (msg_unread m) (msg_new m + 1) (has_new m) (type m).
Definition set_has_new (m : Mailbox) : Mailbox :=
  mkMailbox (msg_count m) (msg_flagged m) (msg_unread m) (msg_new m) true (type m).
Definition set_type (m : Mailbox) (t : MailboxType) : Mailbox :=
  mkMailbox (msg_count m) (msg_flagged m) (msg_unread m) (msg_new m) (has_new m) t.

(** The [while ((de = readdir(dir)))] loop of [maildir_check_dir]. *)
Fixpoint check_dir_loop (env : CheckEnv) (delimiter_version : cstr)
         (check_new check_stats : bool) (entries : list DirEnt) (m : Mailbox)
  : Mailbox :=
  match entries with
  | [] => m
  | de :: rest =>
      if deref (d_name de) =? "." then
        check_dir_loop env delimiter_version check_new check_stats rest m
      else
        let p := strstr (d_name de) delimiter_version in
        if has_flag p "T" then
          check_dir_loop env delimiter_version check_new check_stats rest m
        else
          let m :=
            if check_stats then
              let m := incr_count m in
              if has_flag p "F" then incr_flagged m else m
            else m in
          if negb (has_flag p "S") then
            let m := if check_stats then incr_unread m else m in
            if check_new then
              if c_mail_check_recent env && seen_before de then
                check_dir_loop env delimiter_version check_new check_stats rest m
              else
                let m := set_has_new m in
                if check_stats then
                  check_dir_loop env delimiter_version check_new check_stats rest
                                 (incr_new m)
                else m (* break *)
            else check_dir_loop env delimiter_version check_new check_stats rest m
          else check_dir_loop env delimiter_version check_new check_stats rest m
  end.

(** [maildir_check_dir(m, dir_name, check_new, check_stats)] *)
Definition maildir_check_dir (env : CheckEnv) (m : Mailbox) (dir_name : cstr)
           (check_new check_stats : bool) : Mailbox :=
  let view := dir_view env dir_name in
  let check_new :=
    if check_new && c_mail_check_recent env
    then (if dir_untouched view then false else check_new)
    else check_new in
  if negb (check_new || check_stats) then m
  else
    match dir_entries view with
    | None => set_type m MUTT_UNKNOWN
    | Some entries =>
        let delimiter_version := c_string [check_delimiter env; "2"; ","] in
        check_dir_loop env delimiter_version check_new check_stats entries m
    end.

Inductive MxStatus : Type := MX_STATUS_OK | MX_STATUS_NEW_MAIL.

(** [maildir_mbox_check_stats(m, flags)]: the mailbox afterwards and the
    returned status. *)
Definition maildir_mbox_check_stats (env : CheckEnv) (m : Mailbox) (flags : Z)
  : Mailbox * MxStatus :=
  let check_stats := negb (Z.land flags (MUTT_MAILBOX_CHECK_STATS env) =? 0)%Z in
  let check_new := true in
  let m := if check_stats
           then mkMailbox 0 0 0 0 (has_new m) (type m)
           else m in
  let m := maildir_check_dir env m (lit "new") check_new check_stats in
  let check_new := negb (has_new m) && c_maildir_check_cur env in
  let m := if check_new || check_stats
           then maildir_check_dir env m (lit "cur") check_new check_stats
           else m in
  (m, if (msg_new m =? 0)%Z then MX_STATUS_OK else MX_STATUS_NEW_MAIL).

(** A file name that [maildir_check_dir] counts: not a dot file and not
    marked trashed. *)
Definition counted (delimiter_version : cstr) (de : DirEnt) : bool :=
  negb (deref (d_name de) =? ".") &&
  negb (has_flag (strstr (d_name de) delimiter_version) "T").

(** A counted file name that makes the mailbox have new mail: not marked
    seen and, under [$mail_check_recent], not seen before the last visit. *)
Definition is_new_mail (env : CheckEnv) (delimiter_version : cstr) (de : DirEnt) : bool :=
  counted delimiter_version de &&
  negb (has_flag (strstr (d_name de) delimiter_version) "S") &&
  negb (c_mail_check_recent env && seen_before de).

(** The counters of a mailbox are consistent: new messages are unread,
    unread and flagged messages are messages, and a mailbox with new
    messages counted has [has_new] set. *)
Definition counters_ok (m : Mailbox) : Prop :=
  (0 <= msg_new m <= msg_unread m)%Z /\
  (msg_unread m <= msg_count m)%Z /\
  (0 <= msg_flagged m <= msg_count m)%Z /\
  ((0 < msg_new m)%Z -> has_new m = true).

(** The largest and the smallest [int]. *)
Definition INT_MAX : Z := 2147483647.
Definition INT_MIN : Z := (- INT_MAX - 1)%Z.

(** Every counter of the mailbox is an [int] and can be incremented [k]
    times without overflow. *)
Definition counters_fit (m : Mailbox) (k : nat) : Prop :=
  (INT_MIN <= msg_count m /\ msg_count m + Z.of_nat k <= INT_MAX)%Z /\
  (INT_MIN <= msg_flagged m /\ msg_flagged m + Z.of_nat k <= INT_MAX)%Z /\
  (INT_MIN <= msg_unread m /\ msg_unread m + Z.of_nat k <= INT_MAX)%Z /\
  (INT_MIN <= msg_new m /\ msg_new m + Z.of_nat k <= INT_MAX)%Z.

(** The number of entries that satisfy [f]. *)
Definition count_if (f : DirEnt -> bool) (entries : list DirEnt) : Z :=
  Z.of_nat (length (filter f entries)).

(** A Maildir to run the statistics on: [new] holds a flagged and seen
    message, a dot file and a message without flags; [cur] cannot be
    opened. *)
Definition check_env : CheckEnv :=
  mkCheckEnv ":" true true 1
             (fun dir_name =>
                if mutt_str_equal (Some dir_name) (Some (lit "new"))
                then mkDirView false
                               (Some [mkDirEnt (lit "m1:2,FS") false;
                                      mkDirEnt (lit ".hidden") false;
                                      mkDirEnt (lit "m2:2,") false])
                else mkDirView false None).

(** * Properties *)

(** ** The conditional scans *)

Lemma skipn_length_app (pre rest : cstr) : skipn (length pre) (pre ++ rest) = rest.
Proof. induction pre as [|x pre IH]; simpl; auto. Qed.

Lemma snoc_app (pre : cstr) (c : ascii) (rest : cstr) :
  (pre ++ [c]) ++ rest = pre ++ c :: rest.
Proof. rewrite <- app_assoc. reflexivity. Qed.

Lemma snoc_length (pre : cstr) (c : ascii) : length (pre ++ [c]) = S (length pre).
Proof. rewrite length_app. simpl. lia. Qed.

(** The counter never moves by more than one per byte, so it fits a C [int]
    on every string shorter than 2^31 bytes. *)
Lemma depth_bound (s : cstr) (n : nat) :
  (- Z.of_nat n <= depth s n <= Z.of_nat n)%Z.
Proof.
  induction n as [|n IH]; [simpl; lia|].
  cbn [depth].
  destruct (escaped s n && (nth n s NUL =? "<"));
    destruct ((nth n s NUL =? ">") && negb (escaped s n)); lia.
Qed.

(** Loop invariant of [skip_until_if_true_end]: with [pre] behind the cursor,
    [ctr] is the depth and [prev] the byte before the cursor, and the loop
    ends at the first stopping index. *)
Lemma skip_true_loop_spec (t : ascii) (rest pre : cstr) :
  skip_true_loop rest t (depth (pre ++ rest) (length pre))
                 (prev_char (pre ++ rest) (length pre))
  = skipn (first_from (true_stop (pre ++ rest) t) (length pre) (length rest))
          (pre ++ rest).
Proof.
  revert pre. induction rest as [|c r IH]; intros pre.
  - simpl. rewrite skipn_length_app. reflexivity.
  - cbn [skip_true_loop length first_from].
    unfold true_stop at 1. unfold escaped at 1.
    rewrite nth_middle.
    rewrite (orb_comm (c =? "&")).
    destruct ((depth (pre ++ c :: r) (length pre) =? 0)%Z &&
              ((c =? t) && negb (prev_char (pre ++ c :: r) (length pre) =? "%")
               || (c =? "&"))) eqn:Hstop.
    + rewrite skipn_length_app. reflexivity.
    + specialize (IH (pre ++ [c])).
      rewrite snoc_app, snoc_length in IH.
      rewrite <- IH. f_equal.
      * cbn [depth]. unfold escaped. rewrite nth_middle. reflexivity.
      * cbn [prev_char]. rewrite nth_middle. reflexivity.
Qed.

Lemma skip_false_loop_spec (t : ascii) (rest pre : cstr) :
  skip_false_loop rest t (depth (pre ++ rest) (length pre))
                  (prev_char (pre ++ rest) (length pre))
  = skipn (first_from (false_stop (pre ++ rest) t) (length pre) (length rest))
          (pre ++ rest).
Proof.
  revert pre. induction rest as [|c r IH]; intros pre.
  - simpl. rewrite skipn_length_app. reflexivity.
  - cbn [skip_false_loop length first_from].
    unfold false_stop at 1. unfold escaped at 1.
    rewrite nth_middle.
    destruct ((depth (pre ++ c :: r) (length pre) =? 0)%Z && (c =? t) &&
              negb (prev_char (pre ++ c :: r) (length pre) =? "%")) eqn:Hstop.
    + rewrite skipn_length_app. reflexivity.
    + specialize (IH (pre ++ [c])).
      rewrite snoc_app, snoc_length in IH.
      rewrite <- IH. f_equal.
      * cbn [depth]. unfold escaped. rewrite nth_middle. reflexivity.
      * cbn [prev_char]. rewrite nth_middle. reflexivity.
Qed.

(** The false-branch scan ends at the first un-escaped end terminator at
    depth 0, or at the end of the string. *)
Lemma skip_until_if_false_end_spec (s : cstr) (t : ascii) :
  skip_until_if_false_end s t = skipn (first_stop false_stop s t) s.
Proof. exact (skip_false_loop_spec t s []). Qed.

(** C2, as amended: the scan for the end of the true branch counts [%<] up
    and an un-escaped ['>'] down, and ends at the first byte at depth 0 that
    is an ['&'] (preceded by ['%'] or not) or an un-escaped end terminator;
    at the end of the string when there is none. *)
Theorem skip_until_if_true_end_spec (s : cstr) (t : ascii) :
  skip_until_if_true_end s t = skipn (first_stop true_stop s t) s.
Proof. exact (skip_true_loop_spec t s []). Qed.

(** C2, as stated, fails: in ["%&>"] the scan ends at the ['&'] that follows
    the ['%'], not at the ['>'] that reading gives. *)
Lemma skip_until_if_true_end_escaped_amp :
  skip_until_if_true_end (lit "%&>") ">" = lit "&>" /\
  skipn (first_stop claimed_true_stop (lit "%&>") ">") (lit "%&>") = lit ">" /\
  ~ (forall s t, skip_until_if_true_end s t
                 = skipn (first_stop claimed_true_stop s t) s).
Proof.
  split; [reflexivity|]. split; [reflexivity|].
  intros H. specialize (H (lit "%&>") ">"). vm_compute in H. discriminate H.
Qed.

(** ** Escape *)

Lemma slice_one (c : ascii) (rest : cstr) : slice (c :: rest) rest = [c].
Proof.
  unfold slice. cbn [length].
  replace (S (length rest) - length rest) with 1 by lia. reflexivity.
Qed.

(** C6: parsing ["%%"] yields one Text node holding ["%"], and the cursor is
    left after both bytes (here: at the end of the string, offset 2); the
    tree of ["%%"] is that single node, handed to the re-pad pass. *)
Theorem node_parse_escape (K : Collaborators) (f : nat)
        (cs : ExpandoConditionStart) (defs : list ExpandoDefinition)
        (err : ExpandoParseError) :
  node_parse K (S f) (lit "%%") None cs defs err
    = Some (Parsed (Node ENT_TEXT (Some (lit "%")) 0 0 []) [], err) /\
  offset (lit "%%") [] = 2 /\
  node_tree_parse K (S f) [] (Some (lit "%%")) defs err
    = Some (node_padding_repad K [Node ENT_TEXT (Some (lit "%")) 0 0 []], err).
Proof.
  assert (H : forall cs', node_parse K (S f) (lit "%%") None cs' defs err
              = Some (Parsed (Node ENT_TEXT (Some (lit "%")) 0 0 []) [], err)).
  { intros []; reflexivity. }
  split; [apply H|]. split; [reflexivity|].
  unfold node_tree_parse.
  change (is_null (lit "%%")) with false. cbv iota.
  change (tree_loop K (S f) (S f) (lit "%%") defs [] err)
    with (match node_parse K (S f) (lit "%%") None CON_NO_CONDITION defs err with
          | None => None
          | Some (Null, err') => Some ([], err')
          | Some (Parsed node end_, err') =>
              tree_loop K (S f) f end_ defs (node_append [] node) err'
          end).
  rewrite H. destruct f; reflexivity.
Qed.

(** ** The empty format string *)

(** C9: on a null or empty string [node_tree_parse] appends one Empty node
    to the root and leaves the error record as it was, whatever the fuel; so
    [expando_parse] of the empty string returns an Expando whose tree is
    exactly one Empty node, the caller's buffer untouched and nothing
    released.  The string that Expando retains is the null pointer, the
    copy of an empty string, and it is the null string that
    [node_tree_parse] is handed. *)
Theorem node_tree_parse_empty (K : Collaborators) (fuel : nat)
        (root : list ExpandoNode) (defs : list ExpandoDefinition)
        (err : ExpandoParseError) (buf : Buffer) :
  node_tree_parse K fuel root None defs err
    = Some (root ++ [Node ENT_EMPTY None 0 0 []], err) /\
  node_tree_parse K fuel root (Some (lit "")) defs err
    = Some (root ++ [Node ENT_EMPTY None 0 0 []], err) /\
  expando_parse K fuel (Some (lit "")) (Some defs) buf
    = Some (mkOutcome (Some (mkExpando None [Node ENT_EMPTY None 0 0 []]))
                      buf []).
Proof. repeat split. Qed.

(** ** Rendering *)

Section Render.

Variables RenderData Data : Type.
Variable node_render :
  list ExpandoNode -> RenderData -> Buffer -> Z -> Data -> Z -> Z * Buffer.

(** C8: with a root node and a callback table, rendering with
    [max_cols = -1] is rendering the root with 8192 columns, which is what
    rendering with [max_cols = 8192] is: same return value, same buffer. *)
Theorem expando_render_unlimited (e : Expando) (rd : RenderData) (data : Data)
        (flags : Z) (buf : Buffer) (Hroot : node e <> []) :
  expando_render node_render (Some e) (Some rd) data flags (-1) buf
    = node_render (node e) rd buf 8192 data flags /\
  expando_render node_render (Some e) (Some rd) data flags (-1) buf
    = expando_render node_render (Some e) (Some rd) data flags 8192 buf.
Proof.
  unfold expando_render. destruct (node e) as [|n l]; [contradiction|].
  split; reflexivity.
Qed.

(** C10: a null Expando, a null root or a null callback table makes
    [expando_render] return 0 with the buffer as it was, for every
    [max_cols]: the remapping of -1 plays no part. *)
Theorem expando_render_guard (exp : option Expando) (rdata : option RenderData)
        (data : Data) (flags max_cols : Z) (buf : Buffer)
        (Hnull : exp = None \/ (exists e, exp = Some e /\ node e = []) \/ rdata = None) :
  expando_render node_render exp rdata data flags max_cols buf = (0%Z, buf).
Proof.
  unfold expando_render.
  destruct Hnull as [-> | [(e & -> & He) | ->]].
  - reflexivity.
  - rewrite He. destruct rdata; reflexivity.
  - destruct exp; reflexivity.
Qed.

End Render.

Lemma expando_render_unlimited_witness :
  expando_render (fun (_ : list ExpandoNode) (_ : unit) (b : Buffer) (cols : Z)
                      (_ : unit) (_ : Z) => (cols, b))
                 (Some (mkExpando (Some (lit "%%")) [Node ENT_TEXT (Some (lit "%")) 0 0 []]))
                 (Some tt) tt 0 (-1) (lit "")
  = (8192%Z, lit "").
Proof.
  refine (proj1 (expando_render_unlimited unit unit _
                   (mkExpando (Some (lit "%%")) [Node ENT_TEXT (Some (lit "%")) 0 0 []])
                   tt tt 0%Z (lit "") _)).
  simpl. discriminate.
Defined.

Lemma expando_render_guard_witness :
  expando_render (fun (_ : list ExpandoNode) (_ : unit) (b : Buffer) (cols : Z)
                      (_ : unit) (_ : Z) => (cols, "x" :: b))
                 (Some (mkExpando (Some (lit "")) [])) (Some tt) tt 0 (-1) (lit "")
  = (0%Z, lit "").
Proof.
  apply (expando_render_guard unit unit).
  right; left. exists (mkExpando (Some (lit "")) []). split; reflexivity.
Defined.

(** ** Equality *)

Lemma mutt_str_equal_iff (x y : cstr) :
  mutt_str_equal (Some x) (Some y) = true <-> x = y.
Proof.
  unfold mutt_str_equal. revert y.
  induction x as [|a x IH]; intros [|b y]; simpl; try (split; [discriminate|discriminate]).
  - split; reflexivity.
  - specialize (IH y). rewrite andb_true_iff in *.
    rewrite andb_true_iff. rewrite Ascii.eqb_eq. split.
    + intros (Hl & Hab & Hf). f_equal; [exact Hab|]. apply IH. split; assumption.
    + intros H. injection H as -> ->. destruct IH as [_ IH].
      destruct (IH eq_refl) as [Hl Hf]. repeat split; assumption.
Qed.



(** ** Conditionals *)

Lemma parse_branch_done parse fuel start branch err :
  parse_branch parse fuel start start branch err = Some (Some (branch, start), err).
Proof.
  destruct fuel; cbn [parse_branch]; unfold ptr_lt; rewrite Nat.ltb_irrefl; reflexivity.
Qed.

(** The test that opens the loop of [node_parse] passes when the call is
    entered as its callers enter it. *)
Lemma node_parse_entered (str : cstr) (end_ : option cstr) :
  entry_ok str end_ ->
  is_null str || negb (match end_ with Some e => ptr_le str e | None => true end) = false.
Proof.
  intros [Hne Hend]. destruct str as [|c str]; [contradiction|]. cbn [is_null orb].
  destruct end_ as [e|]; [|reflexivity].
  apply negb_false_iff. unfold ptr_le. apply Nat.leb_le. exact Hend.
Qed.

(** The start of a conditional, wherever it stands: at the top level or
    inside a branch or a test ([end_] set), after a ['%'] or, at the start
    of a condition, after a bare ['<'] or ['?'].  After the opening byte the
    test is parsed as a condition start, bounded by [skip_until_ch]; the
    rest of the call is the two branch loops. *)
Lemma node_parse_conditional (K : Collaborators) (f : nat) (c0 lead : ascii)
      (rest : cstr) (end_ : option cstr) (cs : ExpandoConditionStart)
      (defs : list ExpandoDefinition)
      (err err1 : ExpandoParseError) (cond : ExpandoNode) (body : cstr)
      (Hopen : starts_construct (c0 :: lead :: rest) cs = true)
      (Hentry : entry_ok (c0 :: lead :: rest) end_)
      (Hlead : lead = "<" \/ lead = "?")
      (Htest : node_parse K f (lead :: rest) (Some (skip_until_ch K (lead :: rest) "?"))
                          CON_START defs err = Some (Parsed cond ("?" :: body), err1)) :
  let t := terminator_of lead in
  let end_true := skip_until_if_true_end body t in
  node_parse K (S f) (c0 :: lead :: rest) end_ cs defs err =
  if negb (deref end_true =? "&") && negb (deref end_true =? t)
  then Some (Null, mkError (Some end_true)
                           (snprintf (MESSAGE_SIZE K) (gettext K msg_missing_amp) t))
  else
    match parse_branch (fun s e => node_parse K f s (Some end_true) CON_NO_CONDITION defs e)
                       f body end_true [] err1 with
    | None => None
    | Some (None, err2) => Some (Null, err2)
    | Some (Some (branch_true, start_true), err2) =>
        let node_true := fill_empty start_true end_true branch_true in
        if deref end_true =? t
        then Some (Parsed (node_condition_new [cond] node_true []) (ptr_next end_true), err2)
        else
          let start_false := ptr_next end_true in
          let end_false := skip_until_if_false_end start_false t in
          if negb (deref end_false =? t)
          then Some (Null, mkError (Some start_false)
                                   (snprintf (MESSAGE_SIZE K) (gettext K msg_missing) t))
          else
            match parse_branch
                    (fun s e => node_parse K f s (Some end_false) CON_NO_CONDITION defs e)
                    f start_false end_false [] err2 with
            | None => None
            | Some (None, err3) => Some (Null, err3)
            | Some (Some (branch_false, start_false'), err3) =>
                Some (Parsed (node_condition_new
                                [cond] node_true
                                (fill_empty start_false' end_false branch_false))
                             (ptr_next end_false), err3)
            end
    end.
Proof.
  intros t end_true.
  pose proof (node_parse_entered _ _ Hentry) as Hin.
  unfold starts_construct in Hopen.
  cbn [node_parse]. rewrite Hin, Hopen.
  cbn [deref hd ptr_next tl].
  change (if lead =? "?" then "?" else ">") with (terminator_of lead).
  assert (H1 : (lead =? "%") = false) by (destruct Hlead as [-> | ->]; reflexivity).
  assert (H2 : (lead =? "?") || (lead =? "<") = true)
    by (destruct Hlead as [-> | ->]; reflexivity).
  rewrite H1, H2, Htest.
  cbn [deref hd ptr_next tl].
  change ("?" =? "?") with true. cbn [negb].
  reflexivity.
Qed.

(** What a parsed conditional holds in its TRUE and FALSE slots, read off
    the input: an empty true branch leaves an Empty node, and a true branch
    closed by the end terminator leaves no false branch. *)
Lemma node_parse_conditional_slots (K : Collaborators) (f : nat) (c0 lead : ascii)
      (rest : cstr) (end_ : option cstr) (cs : ExpandoConditionStart)
      (defs : list ExpandoDefinition)
      (err err1 err2 : ExpandoParseError) (cond r : ExpandoNode) (body until : cstr)
      (Hopen : starts_construct (c0 :: lead :: rest) cs = true)
      (Hentry : entry_ok (c0 :: lead :: rest) end_)
      (Hlead : lead = "<" \/ lead = "?")
      (Htest : node_parse K f (lead :: rest) (Some (skip_until_ch K (lead :: rest) "?"))
                          CON_START defs err = Some (Parsed cond ("?" :: body), err1))
      (Hres : node_parse K (S f) (c0 :: lead :: rest) end_ cs defs err
              = Some (Parsed r until, err2)) :
  (skip_until_if_true_end body (terminator_of lead) = body ->
   node_get_child r ENC_TRUE = [node_new]) /\
  (deref (skip_until_if_true_end body (terminator_of lead)) = terminator_of lead ->
   node_get_child r ENC_FALSE = []).
Proof.
  rewrite (node_parse_conditional K f c0 lead rest end_ cs defs err err1 cond body
             Hopen Hentry Hlead Htest) in Hres.
  cbv zeta in Hres.
  set (t := terminator_of lead) in *.
  set (end_true := skip_until_if_true_end body t) in *.
  revert Hres.
  destruct (negb (deref end_true =? "&") && negb (deref end_true =? t));
    [discriminate|].
  intros Hres. split.
  - intros Hempty. revert Hres. rewrite Hempty.
    rewrite parse_branch_done.
    assert (Hfill : fill_empty body body [] = [node_new]).
    { unfold fill_empty, ptr_eq. rewrite Nat.eqb_refl. reflexivity. }
    rewrite Hfill.
    destruct (deref body =? t).
    + intros [= <- _ _]. reflexivity.
    + destruct (negb (deref (skip_until_if_false_end (ptr_next body) t) =? t));
        [discriminate|].
      destruct (parse_branch _ f (ptr_next body) _ [] err1) as [[[[bf sf]|] e3]|];
        try discriminate.
      intros [= <- _ _]. reflexivity.
  - intros Honly. revert Hres. rewrite Honly. rewrite Ascii.eqb_refl.
    destruct (parse_branch _ f body end_true [] err1) as [[[[bt st]|] e2]|];
      try discriminate.
    intros [= <- _ _]. reflexivity.
Qed.

(** A code that opens neither the escape nor a conditional goes to a leaf
    parser: to the CondBool parser at the start of a condition, whatever
    introduced it, and to the Expando parser elsewhere. *)
Lemma node_parse_code (K : Collaborators) (HF : FlagsDistinct K) (f : nat)
      (c0 : ascii) (rest : cstr) (end_ : option cstr) (cs : ExpandoConditionStart)
      (defs : list ExpandoDefinition) (err : ExpandoParseError)
      (Hopen : starts_construct (c0 :: rest) cs = true)
      (Hentry : entry_ok (c0 :: rest) end_)
      (Hplain : plain_code rest = true) :
  node_parse K (S f) (c0 :: rest) end_ cs defs err
  = Some (checked_leaf
            (if is_con_start cs
             then node_condbool_parse K rest defs (EP_CONDITIONAL K) err
             else node_expando_parse K rest defs (EP_NO_FLAGS K) err)).
Proof.
  destruct HF as [Hset Hclear].
  unfold plain_code in Hplain.
  apply andb_true_iff in Hplain as [Hplain H3].
  apply andb_true_iff in Hplain as [H1 H2].
  apply negb_true_iff in H1, H2, H3.
  assert (Hset' : (Z.land (EP_CONDITIONAL K) (EP_CONDITIONAL K) =? 0)%Z = false)
    by (apply Z.eqb_neq; exact Hset).
  assert (Hclear' : (Z.land (EP_NO_FLAGS K) (EP_CONDITIONAL K) =? 0)%Z = true)
    by (apply Z.eqb_eq; exact Hclear).
  pose proof (node_parse_entered _ _ Hentry) as Hin.
  unfold starts_construct in Hopen.
  cbn [node_parse]. rewrite Hin, Hopen. cbn [ptr_next tl].
  rewrite H1, H2, H3. cbn [orb].
  destruct cs; cbn [is_con_start]; rewrite ?Hset', ?Hclear'; reflexivity.
Qed.

Lemma node_parse_test_code (K : Collaborators) (HF : FlagsDistinct K) (f : nat)
      (lead : ascii) (rest : cstr) (end_ : cstr)
      (defs : list ExpandoDefinition) (err : ExpandoParseError)
      (Hlead : lead = "<" \/ lead = "?")
      (Hend : length end_ <= S (length rest))
      (Hplain : plain_code rest = true) :
  node_parse K (S f) (lead :: rest) (Some end_) CON_START defs err
  = Some (checked_leaf (node_condbool_parse K rest defs (EP_CONDITIONAL K) err)).
Proof.
  apply (node_parse_code K HF f lead rest (Some end_) CON_START defs err).
  - destruct Hlead as [-> | ->]; reflexivity.
  - split; [discriminate | exact Hend].
  - exact Hplain.
Qed.

(** A conditional that [node_parse] returns has had its test parsed up to a
    ['?']. *)
Lemma node_parse_conditional_test (K : Collaborators) (f : nat) (c0 lead : ascii)
      (rest : cstr) (end_ : option cstr) (cs : ExpandoConditionStart)
      (defs : list ExpandoDefinition)
      (err err2 : ExpandoParseError) (r : ExpandoNode) (until : cstr)
      (Hopen : starts_construct (c0 :: lead :: rest) cs = true)
      (Hentry : entry_ok (c0 :: lead :: rest) end_)
      (Hlead : lead = "<" \/ lead = "?")
      (Hres : node_parse K (S f) (c0 :: lead :: rest) end_ cs defs err
              = Some (Parsed r until, err2)) :
  exists cond body err1,
    node_parse K f (lead :: rest) (Some (skip_until_ch K (lead :: rest) "?"))
               CON_START defs err = Some (Parsed cond ("?" :: body), err1).
Proof.
  pose proof (node_parse_entered _ _ Hentry) as Hin.
  unfold starts_construct in Hopen.
  revert Hres. cbn [node_parse]. rewrite Hin, Hopen.
  cbn [deref hd ptr_next tl].
  assert (H1 : (lead =? "%") = false) by (destruct Hlead as [-> | ->]; reflexivity).
  assert (H2 : (lead =? "?") || (lead =? "<") = true)
    by (destruct Hlead as [-> | ->]; reflexivity).
  rewrite H1, H2.
  destruct (node_parse K f (lead :: rest) (Some (skip_until_ch K (lead :: rest) "?"))
                       CON_START defs err) as [[[cond next|] err1]|];
    try discriminate.
  destruct next as [|q body]; cbn [deref hd].
  - change (NUL =? "?") with false. cbn [negb]. discriminate.
  - destruct (Ascii.eqb_spec q "?") as [-> | Hq]; cbn [negb]; [|discriminate].
    intros _. exists cond, body, err1. reflexivity.
Qed.

(** A conditional that [node_parse] returns is a Condition node on the node
    of its test. *)
Lemma node_parse_conditional_node (K : Collaborators) (f : nat) (c0 lead : ascii)
      (rest : cstr) (end_ : option cstr) (cs : ExpandoConditionStart)
      (defs : list ExpandoDefinition)
      (err err1 err2 : ExpandoParseError) (cond r : ExpandoNode) (body until : cstr)
      (Hopen : starts_construct (c0 :: lead :: rest) cs = true)
      (Hentry : entry_ok (c0 :: lead :: rest) end_)
      (Hlead : lead = "<" \/ lead = "?")
      (Htest : node_parse K f (lead :: rest) (Some (skip_until_ch K (lead :: rest) "?"))
                          CON_START defs err = Some (Parsed cond ("?" :: body), err1))
      (Hres : node_parse K (S f) (c0 :: lead :: rest) end_ cs defs err
              = Some (Parsed r until, err2)) :
  exists node_true node_false, r = node_condition_new [cond] node_true node_false.
Proof.
  revert Hres.
  rewrite (node_parse_conditional K f c0 lead rest end_ cs defs err err1 cond body
             Hopen Hentry Hlead Htest).
  cbv zeta.
  destruct (negb _ && negb _); [discriminate|].
  destruct (parse_branch _ f body _ [] err1) as [[[[bt st]|] e2]|]; try discriminate.
  destruct (deref _ =? terminator_of lead);
    [intros [= <- _ _]; eexists _, _; reflexivity|].
  destruct (negb _); [discriminate|].
  destruct (parse_branch _ f _ _ [] e2) as [[[[bf sf]|] e3]|]; try discriminate.
  intros [= <- _ _]. eexists _, _; reflexivity.
Qed.

(** C5: at the start of a condition a leading ['<'] or ['?'] is read as
    ['%'] is, in every call: the parse is the parse of the same input with
    ['%'] written in its place.  When the next byte is ['<'] or ['?'] the
    call opens a conditional: it parses the test from that byte as a
    condition start, and once the test has stopped at a ['?'] the call is
    the scan and the parse of the two branches, ending in a Condition node
    or in one of the errors of a conditional.  When the next byte is a
    plain code, the call (entered as the parser enters it, with or without
    an [end]) hands the code to the CondBool parser, after the bare byte as
    after a ['%']; outside a condition the same code after ['%'] goes to the
    Expando parser. *)
Theorem node_parse_condition_start (K : Collaborators) (HF : FlagsDistinct K)
        (f : nat) (c : ascii) (rest : cstr) (end_ : option cstr)
        (defs : list ExpandoDefinition) (err : ExpandoParseError)
        (Hc : c = "<" \/ c = "?")
        (Hentry : entry_ok (c :: rest) end_)
        (Hplain : plain_code rest = true) :
  (forall (f' : nat) (rest' : cstr) (end' : option cstr),
      node_parse K f' (c :: rest') end' CON_START defs err
      = node_parse K f' ("%" :: rest') end' CON_START defs err) /\
  (forall (f' : nat) (lead : ascii) (rest' : cstr) (end' : option cstr)
          (err1 : ExpandoParseError) (cond : ExpandoNode) (body : cstr),
      lead = "<" \/ lead = "?" ->
      entry_ok (c :: lead :: rest') end' ->
      node_parse K f' (lead :: rest') (Some (skip_until_ch K (lead :: rest') "?"))
                 CON_START defs err = Some (Parsed cond ("?" :: body), err1) ->
      let t := terminator_of lead in
      let end_true := skip_until_if_true_end body t in
      node_parse K (S f') (c :: lead :: rest') end' CON_START defs err =
      if negb (deref end_true =? "&") && negb (deref end_true =? t)
      then Some (Null, mkError (Some end_true)
                               (snprintf (MESSAGE_SIZE K) (gettext K msg_missing_amp) t))
      else
        match parse_branch
                (fun s e => node_parse K f' s (Some end_true) CON_NO_CONDITION defs e)
                f' body end_true [] err1 with
        | None => None
        | Some (None, err2) => Some (Null, err2)
        | Some (Some (branch_true, start_true), err2) =>
            let node_true := fill_empty start_true end_true branch_true in
            if deref end_true =? t
            then Some (Parsed (node_condition_new [cond] node_true [])
                              (ptr_next end_true), err2)
            else
              let start_false := ptr_next end_true in
              let end_false := skip_until_if_false_end start_false t in
              if negb (deref end_false =? t)
              then Some (Null, mkError (Some start_false)
                                       (snprintf (MESSAGE_SIZE K) (gettext K msg_missing) t))
              else
                match parse_branch
                        (fun s e => node_parse K f' s (Some end_false)
                                               CON_NO_CONDITION defs e)
                        f' start_false end_false [] err2 with
                | None => None
                | Some (None, err3) => Some (Null, err3)
                | Some (Some (branch_false, start_false'), err3) =>
                    Some (Parsed (node_condition_new
                                    [cond] node_true
                                    (fill_empty start_false' end_false branch_false))
                                 (ptr_next end_false), err3)
                end
        end) /\
  (forall (f' : nat) (lead : ascii) (rest' : cstr) (end' : option cstr)
          (r : ExpandoNode) (until : cstr) (err2 : ExpandoParseError),
      lead = "<" \/ lead = "?" ->
      entry_ok (c :: lead :: rest') end' ->
      node_parse K (S f') (c :: lead :: rest') end' CON_START defs err
        = Some (Parsed r until, err2) ->
      node_type r = ENT_CONDITION) /\
  node_parse K (S f) (c :: rest) end_ CON_START defs err
    = Some (checked_leaf (node_condbool_parse K rest defs (EP_CONDITIONAL K) err)) /\
  node_parse K (S f) ("%" :: rest) end_ CON_START defs err
    = Some (checked_leaf (node_condbool_parse K rest defs (EP_CONDITIONAL K) err)) /\
  node_parse K (S f) ("%" :: rest) end_ CON_NO_CONDITION defs err
    = Some (checked_leaf (node_expando_parse K rest defs (EP_NO_FLAGS K) err)).
Proof.
  assert (Hopen : forall l, starts_construct (c :: l) CON_START = true)
    by (intros l; destruct Hc as [-> | ->]; reflexivity).
  assert (Hentry' : entry_ok ("%" :: rest) end_)
    by (destruct Hentry as [_ He]; split; [discriminate | exact He]).
  split; [intros [|f'] rest' end'; [reflexivity|]; destruct Hc as [-> | ->]; reflexivity|].
  split.
  { intros f' lead rest' end' err1 cond body Hlead He Htest.
    exact (node_parse_conditional K f' c lead rest' end' CON_START defs err err1 cond body
             (Hopen _) He Hlead Htest). }
  split.
  { intros f' lead rest' end' r until err2 Hlead He Hres.
    destruct (node_parse_conditional_test K f' c lead rest' end' CON_START defs err err2
                r until (Hopen _) He Hlead Hres) as (cond & body & err1 & Htest).
    destruct (node_parse_conditional_node K f' c lead rest' end' CON_START defs err err1
                err2 cond r body until (Hopen _) He Hlead Htest Hres) as (nt & nf & ->).
    reflexivity. }
  split; [|split].
  - exact (node_parse_code K HF f c rest end_ CON_START defs err (Hopen _) Hentry Hplain).
  - exact (node_parse_code K HF f "%" rest end_ CON_START defs err eq_refl Hentry' Hplain).
  - exact (node_parse_code K HF f "%" rest end_ CON_NO_CONDITION defs err eq_refl Hentry'
             Hplain).
Qed.

Lemma snprintf_plain (K : Collaborators) (HM : PlainMessages K) (fmt : cstr) (c : ascii) :
  length (format_c fmt c) <= 42 ->
  snprintf (MESSAGE_SIZE K) (gettext K fmt) c = format_c fmt c.
Proof.
  destruct HM as [Hfit Hid]. intros Hlen.
  unfold snprintf. rewrite Hid. apply firstn_all2. lia.
Qed.

(** C3: every conditional that [node_parse] returns, at the top level or
    nested in a branch or a test, after ['%'] or after a bare opening byte
    in a test, is a Condition node on the node of its test; when its true
    branch is syntactically empty (the scan of the true branch stops on the
    byte after the ['?']) its TRUE slot holds an Empty node, and when its
    true branch is closed by the end terminator (no ['&']) its FALSE slot is
    null.  ["%<c?>"] parses, for any fuel from 2 on, to a Condition whose
    condition is the node the CondBool parser made of [c], whose true child
    is Empty and whose false child is absent; the tree of ["%<c?>"] is that
    node. *)
Theorem node_parse_empty_true (K : Collaborators) (HF : FlagsDistinct K)
        (f : nat) (cs : ExpandoConditionStart) (defs : list ExpandoDefinition)
        (n : ExpandoNode)
        (Hskip : length (skip_until_ch K (lit "<c?>") "?") <= 4)
        (Hc : node_condbool_parse K (lit "c?>") defs (EP_CONDITIONAL K) error_zero
              = (Parsed n (lit "?>"), error_zero)) :
  (forall f' c0 lead rest end_ cs' defs' err err2 r until,
      starts_construct (c0 :: lead :: rest) cs' = true ->
      entry_ok (c0 :: lead :: rest) end_ ->
      (lead = "<" \/ lead = "?") ->
      node_parse K (S f') (c0 :: lead :: rest) end_ cs' defs' err
        = Some (Parsed r until, err2) ->
      exists cond body err1,
        node_parse K f' (lead :: rest) (Some (skip_until_ch K (lead :: rest) "?"))
                   CON_START defs' err = Some (Parsed cond ("?" :: body), err1) /\
        node_type r = ENT_CONDITION /\
        node_get_child r ENC_CONDITION = [cond] /\
        (skip_until_if_true_end body (terminator_of lead) = body ->
         node_get_child r ENC_TRUE = [node_new]) /\
        (deref (skip_until_if_true_end body (terminator_of lead)) = terminator_of lead ->
         node_get_child r ENC_FALSE = [])) /\
  node_parse K (S (S f)) (lit "%<c?>") None cs defs error_zero
    = Some (Parsed (Node ENT_CONDITION None 0 0 [[n]; [Node ENT_EMPTY None 0 0 []]; []])
                   [], error_zero) /\
  node_tree_parse K (S (S f)) [] (Some (lit "%<c?>")) defs error_zero
    = Some (node_padding_repad K
              [Node ENT_CONDITION None 0 0 [[n]; [Node ENT_EMPTY None 0 0 []]; []]],
            error_zero).
Proof.
  split.
  { intros f' c0 lead rest end_ cs' defs' err err2 r until Hopen Hentry Hlead Hres.
    destruct (node_parse_conditional_test K f' c0 lead rest end_ cs' defs' err err2
                r until Hopen Hentry Hlead Hres) as (cond & body & err1 & Htest).
    exists cond, body, err1. split; [exact Htest|].
    destruct (node_parse_conditional_node K f' c0 lead rest end_ cs' defs' err err1 err2
                cond r body until Hopen Hentry Hlead Htest Hres)
      as (nt & nf & ->).
    split; [reflexivity|]. split; [reflexivity|].
    change (node_condition_new [cond] nt nf) with (Node ENT_CONDITION None 0 0 [[cond]; nt; nf])
      in Hres.
    exact (node_parse_conditional_slots K f' c0 lead rest end_ cs' defs' err err1 err2
             cond _ body until Hopen Hentry Hlead Htest Hres). }
  assert (Htest : node_parse K (S f) (lit "<c?>")
                             (Some (skip_until_ch K (lit "<c?>") "?"))
                             CON_START defs error_zero
                  = Some (Parsed n (lit "?>"), error_zero)).
  { change (lit "<c?>") with ("<" :: lit "c?>") at 1.
    rewrite (node_parse_test_code K HF); [| left; reflexivity | exact Hskip | reflexivity].
    rewrite Hc. reflexivity. }
  assert (Hnode : forall cs', node_parse K (S (S f)) (lit "%<c?>") None cs' defs error_zero
    = Some (Parsed (Node ENT_CONDITION None 0 0 [[n]; [Node ENT_EMPTY None 0 0 []]; []])
                   [], error_zero)).
  { intros cs'. change (lit "%<c?>") with ("%" :: "<" :: lit "c?>").
    assert (Hentry : entry_ok ("%" :: "<" :: lit "c?>") None)
      by (split; [discriminate | exact I]).
    assert (Hopen : starts_construct ("%" :: "<" :: lit "c?>") cs' = true)
      by reflexivity.
    rewrite (node_parse_conditional K (S f) "%" "<" (lit "c?>") None cs' defs error_zero
               error_zero n (lit ">") Hopen Hentry (or_introl eq_refl) Htest).
    reflexivity. }
  split; [apply Hnode|].
  unfold node_tree_parse. change (is_null (lit "%<c?>")) with false. cbv iota.
  change (tree_loop K (S (S f)) (S (S f)) (lit "%<c?>") defs [] error_zero)
    with (match node_parse K (S (S f)) (lit "%<c?>") None CON_NO_CONDITION defs
                           error_zero with
          | None => None
          | Some (Null, err') => Some ([], err')
          | Some (Parsed node end_, err') =>
              tree_loop K (S (S f)) (S f) end_ defs (node_append [] node) err'
          end).
  rewrite Hnode. reflexivity.
Qed.

(** C4: ["%<c?xxx"], a modern conditional with no closing ['>'], fails to
    parse for any fuel from 2 on: [node_parse] returns null, the error
    position is the end of the string (offset 7, the byte after [xxx]) and
    the message names ['&'] and ['>']; [expando_parse] returns null with
    that message in the caller's buffer. *)
Theorem node_parse_missing_terminator (K : Collaborators) (HF : FlagsDistinct K)
        (HM : PlainMessages K) (f : nat) (cs : ExpandoConditionStart)
        (defs : list ExpandoDefinition) (n : ExpandoNode) (buf : Buffer)
        (Hskip : length (skip_until_ch K (lit "<c?xxx") "?") <= 6)
        (Hc : node_condbool_parse K (lit "c?xxx") defs (EP_CONDITIONAL K) error_zero
              = (Parsed n (lit "?xxx"), error_zero)) :
  node_parse K (S (S f)) (lit "%<c?xxx") None cs defs error_zero
    = Some (Null, mkError (Some (lit ""))
                          (lit "Conditional expando is missing '&' or '>'")) /\
  offset (lit "%<c?xxx") (lit "") = 7 /\
  skipn 4 (lit "%<c?xxx") = lit "xxx" /\
  expando_parse K (S (S f)) (Some (lit "%<c?xxx")) (Some defs) buf
    = Some (mkOutcome None (lit "Conditional expando is missing '&' or '>'")
                      [node_padding_repad K []]).
Proof.
  assert (Htest : node_parse K (S f) (lit "<c?xxx")
                             (Some (skip_until_ch K (lit "<c?xxx") "?"))
                             CON_START defs error_zero
                  = Some (Parsed n (lit "?xxx"), error_zero)).
  { change (lit "<c?xxx") with ("<" :: lit "c?xxx") at 1.
    rewrite (node_parse_test_code K HF); [| left; reflexivity | exact Hskip | reflexivity].
    rewrite Hc. reflexivity. }
  assert (Hnode : forall cs', node_parse K (S (S f)) (lit "%<c?xxx") None cs' defs error_zero
    = Some (Null, mkError (Some (lit ""))
                          (lit "Conditional expando is missing '&' or '>'"))).
  { intros cs'. change (lit "%<c?xxx") with ("%" :: "<" :: lit "c?xxx").
    assert (Hentry : entry_ok ("%" :: "<" :: lit "c?xxx") None)
      by (split; [discriminate | exact I]).
    assert (Hopen : starts_construct ("%" :: "<" :: lit "c?xxx") cs' = true)
      by reflexivity.
    rewrite (node_parse_conditional K (S f) "%" "<" (lit "c?xxx") None cs' defs error_zero
               error_zero n (lit "xxx") Hopen Hentry (or_introl eq_refl) Htest).
    change (terminator_of "<") with ">".
    change (skip_until_if_true_end (lit "xxx") ">") with (lit "").
    cbn [deref hd lit list_ascii_of_string negb andb].
    change (NUL =? "&") with false. change (NUL =? ">") with false. cbn [negb andb].
    rewrite (snprintf_plain K HM); [reflexivity | vm_compute; lia]. }
  split; [apply Hnode|]. split; [reflexivity|]. split; [reflexivity|].
  unfold expando_parse, expando_new. cbn [string].
  change (mutt_str_dup (Some (lit "%<c?xxx"))) with (Some (lit "%<c?xxx")).
  unfold node_tree_parse. change (is_null (lit "%<c?xxx")) with false. cbv iota.
  change (tree_loop K (S (S f)) (S (S f)) (lit "%<c?xxx") defs [] error_zero)
    with (match node_parse K (S (S f)) (lit "%<c?xxx") None CON_NO_CONDITION defs
                           error_zero with
          | None => None
          | Some (Null, err') => Some ([], err')
          | Some (Parsed node end_, err') =>
              tree_loop K (S (S f)) (S f) end_ defs (node_append [] node) err'
          end).
  rewrite Hnode. reflexivity.
Qed.

(** ** Fail-fast parsing *)

Lemma checked_leaf_fail_fast (p : LeafParser) (Hp : located p) str defs flags err r err' :
  checked_leaf (p str defs flags err) = (r, err') ->
  (r = Null <-> position err' <> None).
Proof.
  unfold checked_leaf.
  destruct (p str defs flags err) as [x e] eqn:Hx. cbn [fst snd].
  destruct x as [nd u|].
  - destruct (position e) eqn:Hpos; intros [= <- <-]; rewrite Hpos;
      split; congruence.
  - intros [= <- <-]. split; [intros _|reflexivity].
    exact (Hp _ _ _ _ _ Hx).
Qed.

Lemma parse_branch_fail_fast
      (parse : cstr -> ExpandoParseError -> option (ParseResult * ExpandoParseError))
      (end_ : cstr)
      (Hparse : forall s e r e', ptr_lt s end_ = true -> position e = None ->
                                 parse s e = Some (r, e') ->
                                 (r = Null <-> position e' <> None)) :
  forall fuel start branch err res err',
    position err = None ->
    parse_branch parse fuel start end_ branch err = Some (res, err') ->
    (res = None <-> position err' <> None).
Proof.
  induction fuel as [|fuel IH]; intros start branch err res err' Herr;
    cbn [parse_branch]; destruct (ptr_lt start end_) eqn:Hlt.
  - discriminate.
  - intros [= <- <-]. rewrite Herr. split; congruence.
  - destruct (parse start err) as [[r e1]|] eqn:Hp; [|discriminate].
    pose proof (Hparse _ _ _ _ Hlt Herr Hp) as Hr.
    destruct r as [nd u|].
    + apply IH. destruct (position e1); [|reflexivity].
      exfalso. assert (Parsed nd u = Null) by (apply Hr; discriminate). discriminate.
    + intros [= <- <-]. split; [intros _; apply Hr; reflexivity | reflexivity].
  - intros [= <- <-]. rewrite Herr. split; congruence.
Qed.

Lemma node_parse_fail_fast (K : Collaborators) (HK : WellBehaved K) :
  forall fuel str end_ cs defs err r err',
    position err = None -> entry_ok str end_ ->
    node_parse K fuel str end_ cs defs err = Some (r, err') ->
    (r = Null <-> position err' <> None).
Proof.
  destruct HK as [Hcb Hex Htext Hskip].
  induction fuel as [|f IH]; intros str end_ cs defs err r err' Herr [Hne Hend];
    [discriminate|].
  cbn [node_parse].
  assert (Hentry : is_null str
                   || negb (match end_ with Some e => ptr_le str e | None => true end)
                   = false).
  { destruct str; [contradiction|]. cbn [is_null orb].
    destruct end_ as [e|]; [|reflexivity].
    unfold ptr_le. apply negb_false_iff, Nat.leb_le. exact Hend. }
  rewrite Hentry.
  destruct ((deref str =? "%")
            || is_con_start cs && ((deref str =? "?") || (deref str =? "<"))).
  2:{ destruct (node_text_parse K str end_) as [nd u|] eqn:Ht;
        [|exfalso; exact (Htext _ _ Ht)].
      intros [= <- <-]. rewrite Herr. split; congruence. }
  destruct (deref (ptr_next str) =? "%").
  { intros [= <- <-]. rewrite Herr. split; congruence. }
  destruct ((deref (ptr_next str) =? "?") || (deref (ptr_next str) =? "<")) eqn:Hcond.
  2:{ intros [= H]. revert H.
      destruct (negb (Z.land _ (EP_CONDITIONAL K) =? 0)%Z);
        [apply (checked_leaf_fail_fast _ Hcb) | apply (checked_leaf_fail_fast _ Hex)]. }
  set (t := if deref (ptr_next str) =? "?" then "?" else ">").
  assert (Hsub : entry_ok (ptr_next str) (Some (skip_until_ch K (ptr_next str) "?"))).
  { split; [|apply Hskip].
    intros Hnil. rewrite Hnil in Hcond. discriminate Hcond. }
  destruct (node_parse K f (ptr_next str) _ CON_START defs err) as [[rc e1]|] eqn:Hc;
    [|discriminate].
  pose proof (IH _ _ _ _ _ _ _ Herr Hsub Hc) as Hrc.
  destruct rc as [node_cond next|].
  2:{ intros [= <- <-]. split; [intros _; apply Hrc; reflexivity | reflexivity]. }
  assert (He1 : position e1 = None).
  { destruct (position e1); [|reflexivity].
    exfalso. assert (Parsed node_cond next = Null) by (apply Hrc; discriminate).
    discriminate. }
  destruct (negb (deref next =? "?")).
  { intros [= <- <-]. cbn [position]. split; [discriminate | reflexivity]. }
  set (end_true := skip_until_if_true_end (ptr_next next) t).
  destruct (negb (deref end_true =? "&") && negb (deref end_true =? t)).
  { intros [= <- <-]. cbn [position]. split; [discriminate | reflexivity]. }
  assert (Hbranch : forall e_,
             forall s e r0 e', ptr_lt s e_ = true -> position e = None ->
                               node_parse K f s (Some e_) CON_NO_CONDITION defs e
                               = Some (r0, e') ->
                               (r0 = Null <-> position e' <> None)).
  { intros e_ s e r0 e' Hlt He Hp. apply (IH _ _ _ _ _ _ _ He) in Hp; [exact Hp|].
    unfold ptr_lt in Hlt. apply Nat.ltb_lt in Hlt.
    split; [destruct s; [simpl in Hlt; lia | discriminate] | lia]. }
  destruct (parse_branch _ f (ptr_next next) end_true [] e1) as [[bt e2]|] eqn:Hbt;
    [|discriminate].
  pose proof (parse_branch_fail_fast _ _ (Hbranch end_true) _ _ _ _ _ _ He1 Hbt) as Hb.
  destruct bt as [[branch_true start_true]|].
  2:{ intros [= <- <-]. split; [intros _; apply Hb; reflexivity | reflexivity]. }
  assert (He2 : position e2 = None).
  { destruct (position e2); [|reflexivity].
    exfalso. assert (Some (branch_true, start_true) = None) by (apply Hb; discriminate).
    discriminate. }
  destruct (deref end_true =? t).
  { intros [= <- <-]. rewrite He2. split; congruence. }
  set (end_false := skip_until_if_false_end (ptr_next end_true) t).
  destruct (negb (deref end_false =? t)).
  { intros [= <- <-]. cbn [position]. split; [discriminate | reflexivity]. }
  destruct (parse_branch _ f (ptr_next end_true) end_false [] e2) as [[bf e3]|] eqn:Hbf;
    [|discriminate].
  pose proof (parse_branch_fail_fast _ _ (Hbranch end_false) _ _ _ _ _ _ He2 Hbf) as Hb'.
  destruct bf as [[branch_false start_false]|].
  2:{ intros [= <- <-]. split; [intros _; apply Hb'; reflexivity | reflexivity]. }
  intros [= <- <-]. split; [discriminate|].
  intros Hpos. exfalso.
  assert (Some (branch_false, start_false) = None) by (apply Hb'; exact Hpos).
  discriminate.
Qed.

Lemma tree_loop_run (K : Collaborators) (fuel : nat) (defs : list ExpandoDefinition) :
  forall rounds start root err root' err',
    tree_loop K fuel rounds start defs root err = Some (root', err') ->
    exists l completed,
      tree_run K fuel defs start err l completed err' /\ root' = root ++ l.
Proof.
  induction rounds as [|rounds IH]; intros start root err root' err';
    cbn [tree_loop]; destruct start as [|c start]; cbn [is_null].
  - intros [= <- <-]. exists [], true. split; [constructor | symmetry; apply app_nil_r].
  - discriminate.
  - intros [= <- <-]. exists [], true. split; [constructor | symmetry; apply app_nil_r].
  - destruct (node_parse K fuel (c :: start) None CON_NO_CONDITION defs err)
      as [[[n end_|] e1]|] eqn:Hp; [| |discriminate].
    + intros H. apply IH in H as (l & completed & Hrun & ->).
      exists (n :: l), completed. split.
      * eapply run_node; [discriminate | exact Hp | exact Hrun].
      * unfold node_append. rewrite <- app_assoc. reflexivity.
    + intros [= <- <-]. exists [], false. split.
      * apply run_null; [discriminate | exact Hp].
      * symmetry; apply app_nil_r.
Qed.

Lemma tree_run_fail_fast (K : Collaborators) (HK : WellBehaved K) (fuel : nat)
      (defs : list ExpandoDefinition) start err l completed err' :
  tree_run K fuel defs start err l completed err' ->
  position err = None ->
  (completed = false <-> position err' <> None).
Proof.
  induction 1 as [err | start err err' Hne Hp | start end_ err err1 err' n l c Hne Hp Hrun IH];
    intros Herr.
  - rewrite Herr. split; congruence.
  - assert (Hn : Null = Null <-> position err' <> None).
    { apply (node_parse_fail_fast K HK _ _ None _ _ _ _ _ Herr (conj Hne I) Hp). }
    split; [intros _; apply Hn; reflexivity | reflexivity].
  - apply IH.
    assert (Hn : Parsed n end_ = Null <-> position err1 <> None).
    { apply (node_parse_fail_fast K HK _ _ None _ _ _ _ _ Herr (conj Hne I) Hp). }
    destruct (position err1); [|reflexivity].
    exfalso. assert (Parsed n end_ = Null) by (apply Hn; discriminate). discriminate.
Qed.

(** What a finished call of [expando_parse] on a non-empty string leaves:
    the two cases are told apart by how the run of the loop ended. *)
Lemma expando_parse_outcome (K : Collaborators) (HK : WellBehaved K) (fuel : nat)
      (c : ascii) (s : cstr) (defs : list ExpandoDefinition) (buf : Buffer)
      (o : ParseOutcome)
      (H : expando_parse K fuel (Some (c :: s)) (Some defs) buf = Some o) :
  exists (l : list ExpandoNode) (completed : bool) (error : ExpandoParseError),
    tree_run K fuel defs (c :: s) error_zero l completed error /\
    (completed = false ->
     (exists p, position error = Some p) /\
     ret o = None /\
     released o = [node_padding_repad K l] /\
     err_buf o = message error) /\
    (completed = true ->
     position error = None /\
     ret o = Some (mkExpando (Some (c :: s)) (node_padding_repad K l)) /\
     released o = [] /\
     err_buf o = buf).
Proof.
  revert H. unfold expando_parse, expando_new, node_tree_parse.
  cbn [string is_null mutt_str_dup].
  destruct (tree_loop K fuel fuel (c :: s) defs [] error_zero) as [[root error]|] eqn:Hloop;
    [|discriminate].
  apply tree_loop_run in Hloop as (l & completed & Hrun & ->).
  pose proof (tree_run_fail_fast K HK _ _ _ _ _ _ _ Hrun eq_refl) as Hff.
  cbn [app position]. intros H.
  exists l, completed, error. split; [exact Hrun|].
  destruct (position error) as [p|] eqn:Hpos; injection H as <-; cbn [ret released err_buf].
  - split.
    + intros _. repeat split. exists p. reflexivity.
    + intros ->. exfalso. assert (true = false) by (apply Hff; discriminate). discriminate.
  - split.
    + intros ->. exfalso. destruct Hff as [Hff _]. apply (Hff eq_refl). reflexivity.
    + intros _. repeat split.
Qed.

(** ** Termination *)

Lemma skip_until_if_true_end_length (s : cstr) (t : ascii) :
  length (skip_until_if_true_end s t) <= length s.
Proof.
  unfold skip_until_if_true_end.
  pose proof (skip_true_loop_spec t s []) as H.
  cbn [app length depth prev_char] in H. rewrite H, length_skipn. lia.
Qed.

Lemma skip_until_if_false_end_length (s : cstr) (t : ascii) :
  length (skip_until_if_false_end s t) <= length s.
Proof.
  rewrite skip_until_if_false_end_spec, length_skipn. lia.
Qed.

Lemma ptr_next_length (p : cstr) : length (ptr_next p) <= length p.
Proof. destruct p; simpl; lia. Qed.

Lemma checked_leaf_advances (p : LeafParser) (Hp : advances p) str defs flags err n u err' :
  checked_leaf (p str defs flags err) = (Parsed n u, err') -> length u <= length str.
Proof.
  unfold checked_leaf.
  destruct (p str defs flags err) as [x e] eqn:Hx. cbn [fst snd].
  destruct x as [nd v|]; [|discriminate].
  destruct (position e); [discriminate|].
  intros [= <- <- <-]. exact (Hp _ _ _ _ _ _ _ Hx).
Qed.

(** The branch loop finishes when its parser finishes and moves forward on
    every start before [end] that the fuel covers. *)
Lemma parse_branch_total
      (parse : cstr -> ExpandoParseError -> option (ParseResult * ExpandoParseError))
      (end_ : cstr) (bound : nat)
      (Hparse : forall s e, ptr_lt s end_ = true -> length s < bound ->
                            exists r e', parse s e = Some (r, e') /\
                                         forall n u, r = Parsed n u -> length u < length s) :
  forall fuel start branch err,
    length start <= fuel -> length start < bound ->
    exists res err', parse_branch parse fuel start end_ branch err = Some (res, err').
Proof.
  induction fuel as [|fuel IH]; intros start branch err Hfuel Hbound;
    cbn [parse_branch]; destruct (ptr_lt start end_) eqn:Hlt; eauto.
  - unfold ptr_lt in Hlt. apply Nat.ltb_lt in Hlt. lia.
  - destruct (Hparse start err Hlt Hbound) as (r & e' & -> & Hadv).
    destruct r as [n u|]; [|eauto].
    specialize (Hadv n u eq_refl). apply IH; lia.
Qed.

(** [node_parse] finishes with fuel above the length of what is left to
    read, and a returned node leaves [parsed_until] further on. *)
Lemma node_parse_total (K : Collaborators) (HK : WellBehaved K) (HA : Advancing K) :
  forall fuel str end_ cs defs err,
    length str < fuel -> entry_strict str end_ cs ->
    exists r err', node_parse K fuel str end_ cs defs err = Some (r, err') /\
                   forall n u, r = Parsed n u -> length u < length str.
Proof.
  destruct HK as [_ _ _ Hskip]. destruct HA as [Hcb Hex Htext].
  induction fuel as [|f IH]; intros str end_ cs defs err Hfuel [Hne Hend]; [lia|].
  cbn [node_parse].
  destruct str as [|c rest]; [contradiction|]. cbn [length] in Hfuel.
  assert (Hentry : is_null (c :: rest)
                   || negb (match end_ with
                            | Some e => ptr_le (c :: rest) e
                            | None => true
                            end) = false).
  { cbn [is_null orb]. destruct end_ as [e|]; [|reflexivity].
    unfold ptr_le. apply negb_false_iff, Nat.leb_le. lia. }
  rewrite Hentry.
  fold (starts_construct (c :: rest) cs).
  destruct (starts_construct (c :: rest) cs) eqn:Hstart.
  2:{ destruct (node_text_parse K (c :: rest) end_) as [nd u|] eqn:Ht.
      - eexists _, _. split; [reflexivity|]. intros n0 u0 [= <- <-].
        eapply Htext; [discriminate | | | exact Ht].
        + unfold starts_construct in Hstart. apply orb_false_iff in Hstart. tauto.
        + destruct end_ as [e|]; [|exact I].
          destruct Hend as [Hlt | [_ Hs]]; [exact Hlt | congruence].
      - eexists _, _. split; [reflexivity|]. discriminate. }
  cbn [ptr_next tl].
  destruct (deref rest =? "%") eqn:Hesc.
  { eexists _, _. split; [reflexivity|]. intros n0 u0 [= <- <-].
    cbn [length]. pose proof (ptr_next_length rest). lia. }
  destruct ((deref rest =? "?") || (deref rest =? "<")) eqn:Hcond.
  2:{ match goal with
      | |- exists r err', Some (checked_leaf ?x) = Some (r, err') /\ _ =>
          destruct (checked_leaf x) as [r0 e0] eqn:Hleaf
      end.
      eexists _, _. split; [reflexivity|]. intros n0 u0 ->.
      cbn [length]. apply Nat.lt_succ_r. revert Hleaf.
      destruct (negb (Z.land _ (EP_CONDITIONAL K) =? 0)%Z);
        [apply (checked_leaf_advances _ Hcb) | apply (checked_leaf_advances _ Hex)]. }
  set (t := if deref rest =? "?" then "?" else ">").
  assert (Hrest : rest <> []).
  { intros ->. discriminate Hcond. }
  assert (Hsub : entry_strict rest (Some (skip_until_ch K rest "?")) CON_START).
  { split; [exact Hrest|]. right. split; [apply Hskip|].
    unfold starts_construct. cbn [is_con_start andb]. rewrite Hcond.
    apply orb_true_r. }
  destruct (IH rest (Some (skip_until_ch K rest "?")) CON_START defs err
               ltac:(lia) Hsub) as (rc & e1 & -> & Hadv).
  destruct rc as [node_cond next|]; [|eexists _, _; split; [reflexivity|discriminate]].
  specialize (Hadv _ _ eq_refl).
  destruct (negb (deref next =? "?"));
    [eexists _, _; split; [reflexivity|discriminate]|].
  set (end_true := skip_until_if_true_end (ptr_next next) t).
  assert (Het : length end_true <= length (ptr_next next))
    by apply skip_until_if_true_end_length.
  pose proof (ptr_next_length next) as Hn.
  destruct (negb (deref end_true =? "&") && negb (deref end_true =? t));
    [eexists _, _; split; [reflexivity|discriminate]|].
  assert (Hbranch : forall e_ s e,
             ptr_lt s e_ = true -> length s < f ->
             exists r e', node_parse K f s (Some e_) CON_NO_CONDITION defs e = Some (r, e') /\
                          forall n u, r = Parsed n u -> length u < length s).
  { intros e_ s e Hlt Hs. apply IH; [exact Hs|].
    unfold ptr_lt in Hlt. apply Nat.ltb_lt in Hlt.
    split; [destruct s; [simpl in Hlt; lia | discriminate] | left; exact Hlt]. }
  destruct (parse_branch_total _ end_true f (Hbranch end_true) f (ptr_next next) [] e1
              ltac:(lia) ltac:(lia)) as (bt & e2 & ->).
  destruct bt as [[branch_true start_true]|];
    [|eexists _, _; split; [reflexivity|discriminate]].
  pose proof (ptr_next_length end_true) as Hnt.
  destruct (deref end_true =? t).
  { eexists _, _. split; [reflexivity|]. intros n0 u0 [= <- <-]. cbn [length]. lia. }
  set (end_false := skip_until_if_false_end (ptr_next end_true) t).
  assert (Hef : length end_false <= length (ptr_next end_true))
    by apply skip_until_if_false_end_length.
  pose proof (ptr_next_length end_false) as Hnf.
  destruct (negb (deref end_false =? t));
    [eexists _, _; split; [reflexivity|discriminate]|].
  destruct (parse_branch_total _ end_false f (Hbranch end_false) f (ptr_next end_true) [] e2
              ltac:(lia) ltac:(lia)) as (bf & e3 & ->).
  destruct bf as [[branch_false start_false]|];
    [|eexists _, _; split; [reflexivity|discriminate]].
  eexists _, _. split; [reflexivity|]. intros n0 u0 [= <- <-]. cbn [length]. lia.
Qed.

Lemma tree_loop_total (K : Collaborators) (HK : WellBehaved K) (HA : Advancing K)
      (fuel : nat) (defs : list ExpandoDefinition) :
  forall rounds start root err,
    length start < fuel -> length start <= rounds ->
    exists root' err', tree_loop K fuel rounds start defs root err = Some (root', err').
Proof.
  induction rounds as [|rounds IH]; intros start root err Hfuel Hrounds;
    cbn [tree_loop]; destruct start as [|c start]; cbn [is_null]; eauto.
  - simpl in Hrounds. lia.
  - assert (Hes : entry_strict (c :: start) None CON_NO_CONDITION)
      by (split; [discriminate | exact I]).
    destruct (node_parse_total K HK HA fuel (c :: start) None CON_NO_CONDITION defs err
                Hfuel Hes) as (r & e1 & Hp & Hadv).
    rewrite Hp.
    destruct r as [n u|]; [|eauto].
    specialize (Hadv _ _ eq_refl). cbn [length] in *. apply IH; lia.
Qed.

Lemma expando_parse_total (K : Collaborators) (HK : WellBehaved K) (HA : Advancing K)
      (fuel : nat) (s : cstr) (defs : list ExpandoDefinition) (buf : Buffer) :
  length s < fuel ->
  exists o, expando_parse K fuel (Some s) (Some defs) buf = Some o.
Proof.
  intros Hfuel. unfold expando_parse, expando_new, node_tree_parse. cbn [string].
  destruct s as [|c s]; [eexists; reflexivity|]. cbn [mutt_str_dup is_null].
  destruct (tree_loop_total K HK HA fuel defs fuel (c :: s) [] error_zero Hfuel)
    as (root & error & Hloop); [lia|].
  rewrite Hloop.
  destruct (position error); eexists; reflexivity.
Qed.

(** X19: with collaborators that locate their failures and move forward,
    [expando_parse] on a non-empty string finishes once the fuel exceeds the
    length of the string, in one of two ways.  Either a parse in the run
    returned null: then the error position is set, the call returns null,
    the root list built so far is handed to [node_tree_free] and the message
    is copied into the caller's buffer.  Or the run reached the end of the
    string: then the error position is still null and the call returns an
    Expando holding the string and the tree, the buffer untouched.  Inside
    the run, a call of [node_parse] returns null exactly when it leaves the
    error position set.  The empty string is the second case, with no parse
    at all and no retained string.  (Which byte the position names, and what
    becomes of the nodes below the root list, is not part of this
    statement.) *)
Theorem expando_parse_fail_fast (K : Collaborators) (HK : WellBehaved K)
        (HA : Advancing K) (fuel : nat) (c : ascii) (s : cstr)
        (defs : list ExpandoDefinition) (buf : Buffer)
        (Hfuel : length (c :: s) < fuel) :
  (exists (o : ParseOutcome) (l : list ExpandoNode) (completed : bool)
          (error : ExpandoParseError),
      expando_parse K fuel (Some (c :: s)) (Some defs) buf = Some o /\
      tree_run K fuel defs (c :: s) error_zero l completed error /\
      (completed = false ->
       (exists p, position error = Some p) /\
       ret o = None /\
       released o = [node_padding_repad K l] /\
       err_buf o = message error) /\
      (completed = true ->
       position error = None /\
       ret o = Some (mkExpando (Some (c :: s)) (node_padding_repad K l)) /\
       released o = [] /\
       err_buf o = buf)) /\
  (forall f str end_ cs defs' err r err',
      position err = None -> entry_ok str end_ ->
      node_parse K f str end_ cs defs' err = Some (r, err') ->
      (r = Null <-> position err' <> None)) /\
  expando_parse K fuel (Some (lit "")) (Some defs) buf
    = Some (mkOutcome (Some (mkExpando None [node_new])) buf []).
Proof.
  split; [|split; [apply (node_parse_fail_fast K HK) | reflexivity]].
  destruct (expando_parse_total K HK HA fuel (c :: s) defs buf Hfuel) as [o Ho].
  destruct (expando_parse_outcome K HK fuel c s defs buf o Ho)
    as (l & completed & error & Hrun & Hfail & Hok).
  exists o, l, completed, error. repeat split; try assumption.
  all: try (apply Hfail; assumption); try (apply Hok; assumption).
Qed.

(** ** The destructor calls of the parser *)

Lemma checked_leaf_erase (x : ParseResult * ExpandoParseError) :
  checked_leaf x = erase (checked_leaf_mem x).
Proof.
  unfold checked_leaf, checked_leaf_mem, erase.
  destruct (fst x); destruct (position (snd x)); reflexivity.
Qed.

Lemma parse_branch_erase
      (parse : cstr -> ExpandoParseError -> option (ParseResult * ExpandoParseError))
      (parse_mem : cstr -> ExpandoParseError
                   -> option (ParseResult * ExpandoParseError * list Event))
      (H : forall s e, parse s e = option_map erase (parse_mem s e)) (end_ : cstr) :
  forall fuel start branch err,
    parse_branch parse fuel start end_ branch err
    = option_map (fun x => (branch_erase (fst (fst x)), snd (fst x)))
                 (parse_branch_mem parse_mem fuel start end_ branch err).
Proof.
  induction fuel as [|fuel IH]; intros start branch err;
    cbn [parse_branch parse_branch_mem]; destruct (ptr_lt start end_); try reflexivity.
  rewrite H.
  destruct (parse_mem start err) as [[[[n u|] e1] l1]|];
    cbn [option_map erase fst snd]; try reflexivity.
  rewrite IH.
  destruct (parse_branch_mem parse_mem fuel u end_ (node_append branch n) e1)
    as [[[r e2] l2]|]; reflexivity.
Qed.

(** [node_parse_mem] returns the values of [node_parse]. *)
Lemma node_parse_erase (K : Collaborators) :
  forall fuel str end_ cs defs err,
    node_parse K fuel str end_ cs defs err
    = option_map erase (node_parse_mem K fuel str end_ cs defs err).
Proof.
  induction fuel as [|fuel IH]; intros str end_ cs defs err; [reflexivity|].
  cbn [node_parse node_parse_mem].
  destruct (is_null str || negb _); [reflexivity|].
  destruct ((deref str =? "%") || _); [|reflexivity].
  destruct (deref (ptr_next str) =? "%"); [reflexivity|].
  destruct ((deref (ptr_next str) =? "?") || (deref (ptr_next str) =? "<"));
    [|cbn [option_map]; rewrite checked_leaf_erase; reflexivity].
  rewrite IH.
  destruct (node_parse_mem K fuel (ptr_next str) _ CON_START defs err)
    as [[[[node_cond next|] err1] log1]|]; cbn [option_map erase fst]; try reflexivity.
  destruct (negb (deref next =? "?")); [reflexivity|].
  destruct (negb _ && negb _); [reflexivity|].
  rewrite (parse_branch_erase _ _ (fun s e => IH s _ CON_NO_CONDITION defs e)).
  destruct (parse_branch_mem _ fuel (ptr_next next) _ [] err1)
    as [[[[bt st|bt] err2] log2]|]; cbn [option_map branch_erase fst snd]; try reflexivity.
  destruct (deref _ =? _); [reflexivity|].
  destruct (negb _); [reflexivity|].
  rewrite (parse_branch_erase _ _ (fun s e => IH s _ CON_NO_CONDITION defs e)).
  destruct (parse_branch_mem _ fuel _ _ [] err2)
    as [[[[bf sf|bf] err3] log3]|]; reflexivity.
Qed.

Lemma tree_loop_erase (K : Collaborators) (fuel : nat) (defs : list ExpandoDefinition) :
  forall rounds start root err,
    tree_loop K fuel rounds start defs root err
    = option_map erase (tree_loop_mem K fuel rounds start defs root err).
Proof.
  induction rounds as [|rounds IH]; intros start root err;
    cbn [tree_loop tree_loop_mem]; destruct (is_null start); try reflexivity.
  rewrite node_parse_erase.
  destruct (node_parse_mem K fuel start None CON_NO_CONDITION defs err)
    as [[[[n u|] e1] l1]|]; cbn [option_map erase fst]; try reflexivity.
  rewrite IH.
  destruct (tree_loop_mem K fuel rounds u defs (node_append root n) e1)
    as [[[r e2] l2]|]; reflexivity.
Qed.

Lemma node_tree_parse_erase (K : Collaborators) (fuel : nat) (root : list ExpandoNode)
      (string : option cstr) (defs : list ExpandoDefinition) (err : ExpandoParseError) :
  node_tree_parse K fuel root string defs err
  = option_map erase (node_tree_parse_mem K fuel root string defs err).
Proof.
  unfold node_tree_parse, node_tree_parse_mem.
  destruct string as [start|]; [|reflexivity].
  destruct (is_null start); [reflexivity|].
  rewrite tree_loop_erase.
  destruct (tree_loop_mem K fuel fuel start defs root err) as [[[r e] l]|]; reflexivity.
Qed.

(** [expando_parse_mem] returns the outcome of [expando_parse]. *)
Lemma expando_parse_erase (K : Collaborators) (fuel : nat) (str : option cstr)
      (defs : option (list ExpandoDefinition)) (err : Buffer) :
  expando_parse K fuel str defs err = option_map fst (expando_parse_mem K fuel str defs err).
Proof.
  unfold expando_parse, expando_parse_mem.
  destruct str as [s|]; [|reflexivity]. destruct defs as [d|]; [|reflexivity].
  cbv zeta. rewrite node_tree_parse_erase.
  destruct (node_tree_parse_mem K fuel [] _ d error_zero) as [[[r e] l]|];
    [|reflexivity].
  cbn [option_map erase fst]. destruct (position e); reflexivity.
Qed.

(** The three paths of [node_parse_mem] that the scenarios below take. *)
Lemma node_parse_mem_code (K : Collaborators) (HF : FlagsDistinct K) (f : nat)
      (c0 : ascii) (rest : cstr) (end_ : option cstr) (cs : ExpandoConditionStart)
      (defs : list ExpandoDefinition) (err : ExpandoParseError)
      (Hopen : starts_construct (c0 :: rest) cs = true)
      (Hentry : entry_ok (c0 :: rest) end_)
      (Hplain : plain_code rest = true) :
  node_parse_mem K (S f) (c0 :: rest) end_ cs defs err
  = Some (checked_leaf_mem
            (if is_con_start cs
             then node_condbool_parse K rest defs (EP_CONDITIONAL K) err
             else node_expando_parse K rest defs (EP_NO_FLAGS K) err)).
Proof.
  destruct HF as [Hset Hclear].
  unfold plain_code in Hplain.
  apply andb_true_iff in Hplain as [Hplain H3].
  apply andb_true_iff in Hplain as [H1 H2].
  apply negb_true_iff in H1, H2, H3.
  assert (Hset' : (Z.land (EP_CONDITIONAL K) (EP_CONDITIONAL K) =? 0)%Z = false)
    by (apply Z.eqb_neq; exact Hset).
  assert (Hclear' : (Z.land (EP_NO_FLAGS K) (EP_CONDITIONAL K) =? 0)%Z = true)
    by (apply Z.eqb_eq; exact Hclear).
  pose proof (node_parse_entered _ _ Hentry) as Hin.
  unfold starts_construct in Hopen.
  cbn [node_parse_mem]. rewrite Hin, Hopen. cbn [ptr_next tl].
  rewrite H1, H2, H3. cbn [orb].
  destruct cs; cbn [is_con_start]; rewrite ?Hset', ?Hclear'; reflexivity.
Qed.

Lemma node_parse_mem_text (K : Collaborators) (f : nat) (str : cstr) (end_ : option cstr)
      (cs : ExpandoConditionStart) (defs : list ExpandoDefinition)
      (err : ExpandoParseError)
      (Hopen : starts_construct str cs = false)
      (Hentry : entry_ok str end_) :
  node_parse_mem K (S f) str end_ cs defs err = Some (node_text_parse K str end_, err, []).
Proof.
  pose proof (node_parse_entered _ _ Hentry) as Hin.
  unfold starts_construct in Hopen.
  cbn [node_parse_mem]. rewrite Hin, Hopen. reflexivity.
Qed.

Lemma node_parse_mem_true_null (K : Collaborators) (f : nat) (c0 lead : ascii)
      (rest : cstr) (end_ : option cstr) (cs : ExpandoConditionStart)
      (defs : list ExpandoDefinition)
      (err err1 err2 : ExpandoParseError) (cond : ExpandoNode) (body : cstr)
      (log1 log2 : list Event) (node_true : list ExpandoNode)
      (Hopen : starts_construct (c0 :: lead :: rest) cs = true)
      (Hentry : entry_ok (c0 :: lead :: rest) end_)
      (Hlead : lead = "<" \/ lead = "?")
      (Htest : node_parse_mem K f (lead :: rest)
                              (Some (skip_until_ch K (lead :: rest) "?"))
                              CON_START defs err
               = Some (Parsed cond ("?" :: body), err1, log1))
      (Hvalid : negb (deref (skip_until_if_true_end body (terminator_of lead)) =? "&")
                && negb (deref (skip_until_if_true_end body (terminator_of lead))
                         =? terminator_of lead) = false)
      (Htrue : parse_branch_mem
                 (fun s e =>
                    node_parse_mem K f s
                                   (Some (skip_until_if_true_end body (terminator_of lead)))
                                   CON_NO_CONDITION defs e)
                 f body (skip_until_if_true_end body (terminator_of lead)) [] err1
               = Some (BranchNull node_true, err2, log2)) :
  node_parse_mem K (S f) (c0 :: lead :: rest) end_ cs defs err
  = Some (Null, err2, log1 ++ log2 ++ [EvNodeFree [cond]]).
Proof.
  pose proof (node_parse_entered _ _ Hentry) as Hin.
  unfold starts_construct in Hopen.
  cbn [node_parse_mem]. rewrite Hin, Hopen.
  cbn [deref hd ptr_next tl].
  change (if lead =? "?" then "?" else ">") with (terminator_of lead).
  assert (H1 : (lead =? "%") = false) by (destruct Hlead as [-> | ->]; reflexivity).
  assert (H2 : (lead =? "?") || (lead =? "<") = true)
    by (destruct Hlead as [-> | ->]; reflexivity).
  rewrite H1, H2, Htest.
  cbn [deref hd ptr_next tl].
  change ("?" =? "?") with true. cbn [negb].
  rewrite Hvalid, Htrue. reflexivity.
Qed.

Lemma asserts_app (a b : list Event) : asserts (a ++ b) = asserts a || asserts b.
Proof. apply existsb_app. Qed.

Lemma parse_branch_mem_no_assert
      (parse : cstr -> ExpandoParseError
               -> option (ParseResult * ExpandoParseError * list Event))
      (end_ : cstr)
      (H : forall s e r e' l,
          entry_ok s (Some end_) -> parse s e = Some (r, e', l) -> asserts l = false) :
  forall fuel start branch err r e' l,
    parse_branch_mem parse fuel start end_ branch err = Some (r, e', l) ->
    asserts l = false.
Proof.
  induction fuel as [|fuel IH]; intros start branch err r e' l;
    cbn [parse_branch_mem]; destruct (ptr_lt start end_) eqn:Hlt;
    try discriminate; try (intros [= _ _ <-]; reflexivity).
  assert (Hentry : entry_ok start (Some end_)).
  { unfold ptr_lt in Hlt. apply Nat.ltb_lt in Hlt. split.
    - intros ->. simpl in Hlt. lia.
    - apply Nat.lt_le_incl. exact Hlt. }
  destruct (parse start err) as [[[[n u|] e1] l1]|] eqn:Hp; try discriminate.
  - pose proof (H _ _ _ _ _ Hentry Hp) as Hl1.
    destruct (parse_branch_mem parse fuel u end_ (node_append branch n) e1)
      as [[[r2 e2] l2]|] eqn:Hb; try discriminate.
    intros [= _ _ <-]. rewrite asserts_app, Hl1. exact (IH _ _ _ _ _ _ Hb).
  - intros [= _ _ <-]. exact (H _ _ _ _ _ Hentry Hp).
Qed.

Lemma node_parse_mem_no_assert (K : Collaborators) (HK : WellBehaved K) :
  forall fuel str end_ cs defs err r err' log,
    entry_ok str end_ ->
    node_parse_mem K fuel str end_ cs defs err = Some (r, err', log) ->
    asserts log = false.
Proof.
  induction fuel as [|fuel IH]; intros str end_ cs defs err r err' log Hentry;
    [discriminate|].
  cbn [node_parse_mem]. rewrite (node_parse_entered _ _ Hentry).
  destruct ((deref str =? "%") || _); [|intros [= _ _ <-]; reflexivity].
  destruct (deref (ptr_next str) =? "%"); [intros [= _ _ <-]; reflexivity|].
  destruct ((deref (ptr_next str) =? "?") || (deref (ptr_next str) =? "<")) eqn:Hlead.
  2: { match goal with
       | |- Some (checked_leaf_mem ?x) = _ -> _ => destruct x as [[n u|] e]
       end; unfold checked_leaf_mem; cbn [fst snd]; destruct (position e);
       intros [= _ _ <-]; reflexivity. }
  assert (Htest_entry : entry_ok (ptr_next str) (Some (skip_until_ch K (ptr_next str) "?"))).
  { split.
    - intros Hnil. rewrite Hnil in Hlead. discriminate.
    - apply (skip_forward K HK). }
  destruct (node_parse_mem K fuel (ptr_next str) _ CON_START defs err)
    as [[[[nc next|] e1] l1]|] eqn:Htest; try discriminate.
  2: { intros [= _ _ <-]. exact (IH _ _ _ _ _ _ _ _ Htest_entry Htest). }
  pose proof (IH _ _ _ _ _ _ _ _ Htest_entry Htest) as Hl1.
  destruct (negb (deref next =? "?"));
    [intros [= _ _ <-]; rewrite asserts_app, Hl1; reflexivity|].
  destruct (negb _ && negb _);
    [intros [= _ _ <-]; rewrite asserts_app, Hl1; reflexivity|].
  destruct (parse_branch_mem _ fuel (ptr_next next) _ [] e1)
    as [[[[bt st|bt] e2] l2]|] eqn:Hbt; try discriminate.
  2: { pose proof (parse_branch_mem_no_assert _ _
                     (fun s e r0 e0 l0 He Hp => IH s _ _ _ e r0 e0 l0 He Hp)
                     _ _ _ _ _ _ _ Hbt) as Hl2.
       intros [= _ _ <-]. rewrite !asserts_app, Hl1, Hl2. reflexivity. }
  pose proof (parse_branch_mem_no_assert _ _
                (fun s e r0 e0 l0 He Hp => IH s _ _ _ e r0 e0 l0 He Hp)
                _ _ _ _ _ _ _ Hbt) as Hl2.
  destruct (deref (skip_until_if_true_end _ _) =? _);
    [intros [= _ _ <-]; rewrite !asserts_app, Hl1, Hl2; reflexivity|].
  destruct (negb (deref (skip_until_if_false_end _ _) =? _));
    [intros [= _ _ <-]; rewrite !asserts_app, Hl1, Hl2; reflexivity|].
  destruct (parse_branch_mem _ fuel _ _ [] e2)
    as [[[[bf sf|bf] e3] l3]|] eqn:Hbf; try discriminate;
    pose proof (parse_branch_mem_no_assert _ _
                  (fun s e r0 e0 l0 He Hp => IH s _ _ _ e r0 e0 l0 He Hp)
                  _ _ _ _ _ _ _ Hbf) as Hl3;
    intros [= _ _ <-]; rewrite !asserts_app, Hl1, Hl2, Hl3; reflexivity.
Qed.

Lemma tree_loop_mem_no_assert (K : Collaborators) (HK : WellBehaved K) (fuel : nat)
      (defs : list ExpandoDefinition) :
  forall rounds start root err root' err' log,
    tree_loop_mem K fuel rounds start defs root err = Some (root', err', log) ->
    asserts log = false.
Proof.
  induction rounds as [|rounds IH]; intros start root err root' err' log;
    cbn [tree_loop_mem]; destruct start as [|c start]; cbn [is_null];
    try discriminate; try (intros [= _ _ <-]; reflexivity).
  assert (Hentry : entry_ok (c :: start) None) by (split; [discriminate | exact I]).
  destruct (node_parse_mem K fuel (c :: start) None CON_NO_CONDITION defs err)
    as [[[[n u|] e1] l1]|] eqn:Hp; try discriminate;
    pose proof (node_parse_mem_no_assert K HK _ _ _ _ _ _ _ _ _ Hentry Hp) as Hl1.
  - destruct (tree_loop_mem K fuel rounds u defs (node_append root n) e1)
      as [[[r2 e2] l2]|] eqn:Hb; try discriminate.
    intros [= _ _ <-]. rewrite asserts_app, Hl1. exact (IH _ _ _ _ _ _ Hb).
  - intros [= _ _ <-]. exact Hl1.
Qed.

(** X20: the [ASSERT(false)] below the loop of [node_parse] is never
    reached.  With a [skip_until_ch] that returns a pointer at or after its
    argument, a call of [node_parse] that is entered before the end of the
    string and not beyond [end] makes only such calls, of itself, and ends
    in one of the [return]s of the loop; [node_tree_parse] and
    [expando_parse] enter it that way, so no run of [expando_parse], on any
    arguments, reaches the assertion. *)
Theorem expando_parse_never_asserts (K : Collaborators) (HK : WellBehaved K) :
  (forall fuel str end_ cs defs err r err' log,
      entry_ok str end_ ->
      node_parse_mem K fuel str end_ cs defs err = Some (r, err', log) ->
      asserts log = false) /\
  (forall fuel str defs buf o log,
      expando_parse_mem K fuel str defs buf = Some (o, log) ->
      asserts log = false).
Proof.
  split; [apply (node_parse_mem_no_assert K HK)|].
  intros fuel str defs buf o log. unfold expando_parse_mem, node_tree_parse_mem.
  destruct str as [s|]; [|intros [= _ <-]; reflexivity].
  destruct defs as [d|]; [|intros [= _ <-]; reflexivity].
  cbv zeta. destruct (string (expando_new (Some s))) as [start|].
  - destruct (is_null start).
    + cbn [position error_zero]. intros [= _ <-]. reflexivity.
    + destruct (tree_loop_mem K fuel fuel start d [] error_zero)
        as [[[root e] l]|] eqn:Hloop; try discriminate.
      pose proof (tree_loop_mem_no_assert K HK _ _ _ _ _ _ _ _ _ Hloop) as Hl.
      destruct (position e); intros [= _ <-]; rewrite ?asserts_app, Hl; reflexivity.
  - cbn [position error_zero]. intros [= _ <-]. reflexivity.
Qed.

(** C1: an error in the true branch of a conditional leaves the nodes of
    that branch unreleased.  In ["%<c?a%&b>"] the true branch is [a%&b]:
    the Text node of [a] is parsed and appended to [node_true], then the
    parse of [%&] returns null with the error record set.  [node_parse]
    releases the node of the test and returns null; the Text node is still
    in [node_true], which is handed to no destructor (where the error paths
    of the false branch do call [node_free(&node_true)]).  [expando_parse]
    returns null with the message in the caller's buffer, and releases a
    null root list and the Expando: of the partially built tree, the node
    of the test is released and the Text node is not. *)
Theorem expando_parse_leaks_true_branch (K : Collaborators) (HF : FlagsDistinct K)
        (f : nat) (defs : list ExpandoDefinition) (buf : Buffer)
        (n na : ExpandoNode) (e : ExpandoParseError) (p : cstr)
        (Hskip : length (skip_until_ch K (lit "<c?a%&b>") "?") <= 8)
        (Hrepad : node_padding_repad K [] = [])
        (Hc : node_condbool_parse K (lit "c?a%&b>") defs (EP_CONDITIONAL K) error_zero
              = (Parsed n (lit "?a%&b>"), error_zero))
        (Ha : node_text_parse K (lit "a%&b>") (Some (lit "&b>")) = Parsed na (lit "%&b>"))
        (Hb : node_expando_parse K (lit "&b>") defs (EP_NO_FLAGS K) error_zero = (Null, e))
        (Hp : position e = Some p)
        (Hdiff : na <> n) :
  parse_branch_mem
    (fun s er => node_parse_mem K (S (S f)) s (Some (lit "&b>")) CON_NO_CONDITION defs er)
    (S (S f)) (lit "a%&b>") (lit "&b>") [] error_zero
  = Some (BranchNull [na], e, [EvNodeFree []]) /\
  node_parse_mem K (S (S (S f))) (lit "%<c?a%&b>") None CON_NO_CONDITION defs error_zero
  = Some (Null, e, [EvNodeFree []; EvNodeFree [n]]) /\
  expando_parse_mem K (S (S (S f))) (Some (lit "%<c?a%&b>")) (Some defs) buf
  = Some (mkOutcome None (message e) [[]],
          [EvNodeFree []; EvNodeFree [n]; EvNodeTreeFree []; EvNodeTreeFree [];
           EvFreeString (Some (lit "%<c?a%&b>")); EvFreeExpando]) /\
  expando_parse K (S (S (S f))) (Some (lit "%<c?a%&b>")) (Some defs) buf
  = Some (mkOutcome None (message e) [[]]) /\
  (forall ptr,
      In ptr (released_pointers
                [EvNodeFree []; EvNodeFree [n]; EvNodeTreeFree []; EvNodeTreeFree [];
                 EvFreeString (Some (lit "%<c?a%&b>")); EvFreeExpando]) ->
      ~ In na ptr).
Proof.
  assert (Htest : node_parse_mem K (S (S f)) ("<" :: lit "c?a%&b>")
                    (Some (skip_until_ch K ("<" :: lit "c?a%&b>") "?"))
                    CON_START defs error_zero
                  = Some (Parsed n ("?" :: lit "a%&b>"), error_zero, [])).
  { assert (He : entry_ok ("<" :: lit "c?a%&b>")
                          (Some (skip_until_ch K ("<" :: lit "c?a%&b>") "?")))
      by (split; [discriminate | exact Hskip]).
    rewrite (node_parse_mem_code K HF (S f) "<" (lit "c?a%&b>") _ CON_START defs error_zero
               eq_refl He eq_refl).
    cbn [is_con_start]. rewrite Hc. reflexivity. }
  assert (Hround1 : node_parse_mem K (S (S f)) (lit "a%&b>") (Some (lit "&b>"))
                      CON_NO_CONDITION defs error_zero
                    = Some (Parsed na (lit "%&b>"), error_zero, [])).
  { assert (He : entry_ok (lit "a%&b>") (Some (lit "&b>")))
      by (split; [discriminate | simpl; lia]).
    rewrite (node_parse_mem_text K (S f) (lit "a%&b>") (Some (lit "&b>")) CON_NO_CONDITION
               defs error_zero eq_refl He).
    rewrite Ha. reflexivity. }
  assert (Hround2 : node_parse_mem K (S (S f)) (lit "%&b>") (Some (lit "&b>"))
                      CON_NO_CONDITION defs error_zero
                    = Some (Null, e, [EvNodeFree []])).
  { assert (He : entry_ok ("%" :: lit "&b>") (Some (lit "&b>")))
      by (split; [discriminate | simpl; lia]).
    change (lit "%&b>") with ("%" :: lit "&b>").
    rewrite (node_parse_mem_code K HF (S f) "%" (lit "&b>") _ CON_NO_CONDITION defs
               error_zero eq_refl He eq_refl).
    cbn [is_con_start]. rewrite Hb. reflexivity. }
  assert (Hbranch :
            parse_branch_mem
              (fun s er => node_parse_mem K (S (S f)) s (Some (lit "&b>"))
                                          CON_NO_CONDITION defs er)
              (S (S f)) (lit "a%&b>") (lit "&b>") [] error_zero
            = Some (BranchNull [na], e, [EvNodeFree []])).
  { cbn [parse_branch_mem].
    change (ptr_lt (lit "a%&b>") (lit "&b>")) with true. cbv iota.
    rewrite Hround1.
    change (ptr_lt (lit "%&b>") (lit "&b>")) with true. cbv iota.
    rewrite Hround2. reflexivity. }
  assert (Hnode : node_parse_mem K (S (S (S f))) (lit "%<c?a%&b>") None CON_NO_CONDITION
                                 defs error_zero
                  = Some (Null, e, [EvNodeFree []; EvNodeFree [n]])).
  { assert (He : entry_ok ("%" :: "<" :: lit "c?a%&b>") None)
      by (split; [discriminate | exact I]).
    exact (node_parse_mem_true_null K (S (S f)) "%" "<" (lit "c?a%&b>") None
             CON_NO_CONDITION defs error_zero error_zero e n (lit "a%&b>") []
             [EvNodeFree []] [na] eq_refl He (or_introl eq_refl) Htest eq_refl Hbranch). }
  assert (Hmem : expando_parse_mem K (S (S (S f))) (Some (lit "%<c?a%&b>")) (Some defs) buf
                 = Some (mkOutcome None (message e) [[]],
                         [EvNodeFree []; EvNodeFree [n]; EvNodeTreeFree [];
                          EvNodeTreeFree [];
                          EvFreeString (Some (lit "%<c?a%&b>")); EvFreeExpando])).
  { unfold expando_parse_mem, expando_new. cbn [string].
    change (mutt_str_dup (Some (lit "%<c?a%&b>"))) with (Some (lit "%<c?a%&b>")).
    unfold node_tree_parse_mem. change (is_null (lit "%<c?a%&b>")) with false. cbv iota.
    cbn [tree_loop_mem]. change (is_null (lit "%<c?a%&b>")) with false. cbv iota.
    rewrite Hnode, Hrepad, Hp. reflexivity. }
  split; [exact Hbranch|]. split; [exact Hnode|]. split; [exact Hmem|].
  split; [rewrite expando_parse_erase, Hmem; reflexivity|].
  cbn [released_pointers flat_map app]. intros ptr Hin.
  repeat (destruct Hin as [<- | Hin]); try (intros []; fail); try contradiction.
  intros [Heq | []]. apply Hdiff. symmetry. exact Heq.
Qed.

(** ** The reference instance meets what the parser relies on *)

Lemma reference_skip_until_ch_length (s : cstr) (c : ascii) :
  length (Reference.skip_until_ch s c) <= length s.
Proof.
  induction s as [|x s IH]; simpl; [lia|].
  destruct (x =? c); simpl; lia.
Qed.

Lemma reference_skip_digits_length (s : cstr) :
  length (Reference.skip_digits s) <= length s.
Proof.
  induction s as [|x s IH]; simpl; [lia|].
  destruct (Reference.is_digit x); simpl; lia.
Qed.

Lemma reference_skip_spec_length (s : cstr) :
  length (Reference.skip_spec s) <= length s.
Proof.
  unfold Reference.skip_spec.
  set (s1 := match s with
             | [] => s
             | c :: rest => if (c =? "-") || (c =? "=") then rest else s
             end).
  assert (H1 : length s1 <= length s).
  { subst s1. destruct s as [|c rest]; [simpl; lia|].
    destruct ((c =? "-") || (c =? "=")); simpl; lia. }
  pose proof (reference_skip_digits_length s1) as H2.
  destruct (Reference.skip_digits s1) as [|c rest] eqn:Hd; [simpl; lia|].
  destruct (c =? ".").
  - pose proof (reference_skip_digits_length rest). simpl in H2. lia.
  - lia.
Qed.

Lemma reference_text_end_length (s : cstr) (e : option cstr) :
  length (Reference.text_end s e) <= length s.
Proof.
  induction s as [|x s IH]; cbn [Reference.text_end]; [simpl; lia|].
  destruct (x =? "%"); [lia|].
  destruct (match e with Some e0 => ptr_le e0 (x :: s) | None => false end);
    simpl; lia.
Qed.

Lemma reference_parse_code_located (kind : ExpandoNodeType) :
  located (Reference.parse_code kind).
Proof.
  intros str defs flags err err'. unfold Reference.parse_code.
  destruct (match Reference.find_code 2 (Reference.skip_spec str) defs with
            | Some d => Some d
            | None => Reference.find_code 1 (Reference.skip_spec str) defs
            end); intros [= <-]. discriminate.
Qed.

Lemma reference_parse_code_advances (kind : ExpandoNodeType) :
  advances (Reference.parse_code kind).
Proof.
  intros str defs flags err n u err'. unfold Reference.parse_code.
  destruct (match Reference.find_code 2 (Reference.skip_spec str) defs with
            | Some d => Some d
            | None => Reference.find_code 1 (Reference.skip_spec str) defs
            end) as [d|]; [|discriminate].
  intros [= _ <- _]. rewrite length_skipn.
  pose proof (reference_skip_spec_length str). lia.
Qed.

Lemma reference_well_behaved : WellBehaved Reference.K.
Proof.
  constructor; cbn.
  - apply reference_parse_code_located.
  - apply reference_parse_code_located.
  - discriminate.
  - apply reference_skip_until_ch_length.
Qed.

Lemma reference_advancing : Advancing Reference.K.
Proof.
  constructor; cbn.
  - apply reference_parse_code_advances.
  - apply reference_parse_code_advances.
  - intros str end_ n u Hne Hpct Hend. unfold Reference.node_text_parse.
    intros [= _ <-].
    destruct str as [|c rest]; [contradiction|].
    cbn [deref hd] in Hpct. cbn [Reference.text_end]. rewrite Hpct.
    destruct end_ as [e|].
    + assert (Hnot : ptr_le e (c :: rest) = false)
        by (unfold ptr_le; apply Nat.leb_gt; exact Hend).
      rewrite Hnot. cbn [length]. apply Nat.lt_succ_r.
      exact (reference_text_end_length rest (Some e)).
    + cbv beta iota. cbn [length]. apply Nat.lt_succ_r.
      exact (reference_text_end_length rest None).
Qed.

Lemma reference_flags : FlagsDistinct Reference.K.
Proof. constructor; cbn; [discriminate | reflexivity]. Qed.

Lemma reference_messages : PlainMessages Reference.K.
Proof. constructor; cbn; [lia | reflexivity]. Qed.

(** ** The scenarios on the reference instance *)

Lemma expando_parse_fail_fast_witness :
  (exists (o : ParseOutcome) (l : list ExpandoNode) (completed : bool)
          (error : ExpandoParseError),
      expando_parse Reference.K 8 (Some (lit "%<c?xxx")) (Some Reference.TestFormatDef)
                    (lit "") = Some o /\
      tree_run Reference.K 8 Reference.TestFormatDef (lit "%<c?xxx") error_zero
               l completed error /\
      (completed = false ->
       (exists p, position error = Some p) /\
       ret o = None /\
       released o = [node_padding_repad Reference.K l] /\
       err_buf o = message error) /\
      (completed = true ->
       position error = None /\
       ret o = Some (mkExpando (Some (lit "%<c?xxx")) (node_padding_repad Reference.K l)) /\
       released o = [] /\
       err_buf o = lit "")) /\
  (forall f str end_ cs defs' err r err',
      position err = None -> entry_ok str end_ ->
      node_parse Reference.K f str end_ cs defs' err = Some (r, err') ->
      (r = Null <-> position err' <> None)) /\
  expando_parse Reference.K 8 (Some (lit "")) (Some Reference.TestFormatDef) (lit "")
    = Some (mkOutcome (Some (mkExpando None [node_new])) (lit "") []).
Proof.
  apply (expando_parse_fail_fast Reference.K reference_well_behaved reference_advancing
                                 8 "%" (lit "<c?xxx") Reference.TestFormatDef (lit "")).
  simpl. lia.
Defined.

Lemma expando_parse_leaks_true_branch_witness :
  parse_branch_mem
    (fun s er => node_parse_mem Reference.K 2 s (Some (lit "&b>")) CON_NO_CONDITION
                                Reference.TestFormatDef er)
    2 (lit "a%&b>") (lit "&b>") [] error_zero
  = Some (BranchNull [Node ENT_TEXT (Some (lit "a")) 0 0 []],
          mkError (Some (lit "&b>")) (lit "Unknown expando"), [EvNodeFree []]) /\
  node_parse_mem Reference.K 3 (lit "%<c?a%&b>") None CON_NO_CONDITION
                 Reference.TestFormatDef error_zero
  = Some (Null, mkError (Some (lit "&b>")) (lit "Unknown expando"),
          [EvNodeFree []; EvNodeFree [Node ENT_CONDBOOL (Some (lit "c")) 1 2 []]]) /\
  expando_parse_mem Reference.K 3 (Some (lit "%<c?a%&b>")) (Some Reference.TestFormatDef)
                    (lit "")
  = Some (mkOutcome None (lit "Unknown expando") [[]],
          [EvNodeFree []; EvNodeFree [Node ENT_CONDBOOL (Some (lit "c")) 1 2 []];
           EvNodeTreeFree []; EvNodeTreeFree [];
           EvFreeString (Some (lit "%<c?a%&b>")); EvFreeExpando]) /\
  expando_parse Reference.K 3 (Some (lit "%<c?a%&b>")) (Some Reference.TestFormatDef)
                (lit "")
  = Some (mkOutcome None (lit "Unknown expando") [[]]) /\
  (forall ptr,
      In ptr (released_pointers
                [EvNodeFree []; EvNodeFree [Node ENT_CONDBOOL (Some (lit "c")) 1 2 []];
                 EvNodeTreeFree []; EvNodeTreeFree [];
                 EvFreeString (Some (lit "%<c?a%&b>")); EvFreeExpando]) ->
      ~ In (Node ENT_TEXT (Some (lit "a")) 0 0 []) ptr).
Proof.
  assert (Hskip : length (skip_until_ch Reference.K (lit "<c?a%&b>") "?") <= 8)
    by (vm_compute; lia).
  assert (Hdiff : Node ENT_TEXT (Some (lit "a")) 0 0 []
                  <> Node ENT_CONDBOOL (Some (lit "c")) 1 2 []) by discriminate.
  exact (expando_parse_leaks_true_branch
           Reference.K reference_flags 0 Reference.TestFormatDef (lit "")
           (Node ENT_CONDBOOL (Some (lit "c")) 1 2 [])
           (Node ENT_TEXT (Some (lit "a")) 0 0 [])
           (mkError (Some (lit "&b>")) (lit "Unknown expando")) (lit "&b>")
           Hskip eq_refl eq_refl eq_refl eq_refl eq_refl Hdiff).
Defined.

Lemma expando_parse_never_asserts_witness :
  asserts [EvNodeFree []; EvNodeFree [Node ENT_CONDBOOL (Some (lit "c")) 1 2 []];
           EvNodeTreeFree []; EvNodeTreeFree [];
           EvFreeString (Some (lit "%<c?a%&b>")); EvFreeExpando] = false.
Proof.
  exact (proj2 (expando_parse_never_asserts Reference.K reference_well_behaved)
               3 (Some (lit "%<c?a%&b>")) (Some Reference.TestFormatDef) (lit "")
               (mkOutcome None (lit "Unknown expando") [[]]) _ eq_refl).
Defined.

Lemma node_parse_empty_true_witness :
  node_tree_parse Reference.K 2 [] (Some (lit "%<c?>")) Reference.TestFormatDef error_zero
  = Some ([Node ENT_CONDITION None 0 0
                [[Node ENT_CONDBOOL (Some (lit "c")) 1 2 []];
                 [Node ENT_EMPTY None 0 0 []];
                 []]],
          error_zero) /\
  (exists r until,
      node_parse Reference.K 2 (lit "%<t?>>") (Some (lit ">")) CON_NO_CONDITION
                 Reference.TestFormatDef error_zero
      = Some (Parsed r until, error_zero) /\
      node_type r = ENT_CONDITION /\
      node_get_child r ENC_TRUE = [node_new] /\
      node_get_child r ENC_FALSE = []).
Proof.
  assert (Hskip : length (skip_until_ch Reference.K (lit "<c?>") "?") <= 4)
    by (vm_compute; lia).
  pose proof (node_parse_empty_true
                Reference.K reference_flags 0 CON_NO_CONDITION Reference.TestFormatDef
                (Node ENT_CONDBOOL (Some (lit "c")) 1 2 []) Hskip eq_refl)
    as (Hall & _ & Htree).
  split; [exact Htree|].
  assert (He : entry_ok ("%" :: "<" :: lit "t?>>") (Some (lit ">")))
    by (split; [discriminate | simpl; lia]).
  assert (Hres : node_parse Reference.K 2 ("%" :: "<" :: lit "t?>>") (Some (lit ">"))
                   CON_NO_CONDITION Reference.TestFormatDef error_zero
                 = Some (Parsed (Node ENT_CONDITION None 0 0
                                      [[Node ENT_CONDBOOL (Some (lit "t")) 1 3 []];
                                       [Node ENT_EMPTY None 0 0 []];
                                       []])
                                (lit ">"), error_zero))
    by (vm_compute; reflexivity).
  destruct (Hall 1 "%" "<" (lit "t?>>") (Some (lit ">")) CON_NO_CONDITION
                 Reference.TestFormatDef error_zero error_zero _ _
                 eq_refl He (or_introl eq_refl) Hres)
    as (cond & body & err1 & Htest & Hty & _ & Hempty & Hclosed).
  vm_compute in Htest. injection Htest as _ Hbody _. subst body.
  eexists _, _. split; [exact Hres|]. split; [exact Hty|].
  split; [apply Hempty | apply Hclosed]; reflexivity.
Defined.

Lemma node_parse_missing_terminator_witness :
  node_parse Reference.K 2 (lit "%<c?xxx") None CON_NO_CONDITION Reference.TestFormatDef
             error_zero
  = Some (Null, mkError (Some (lit ""))
                        (lit "Conditional expando is missing '&' or '>'")).
Proof.
  refine (proj1 (node_parse_missing_terminator
                   Reference.K reference_flags reference_messages 0 CON_NO_CONDITION
                   Reference.TestFormatDef
                   (Node ENT_CONDBOOL (Some (lit "c")) 1 2 []) (lit "") _ _)).
  - vm_compute. lia.
  - reflexivity.
Defined.

Lemma node_parse_condition_start_witness :
  node_parse Reference.K 1 (lit "<c?>") (Some (lit "?>")) CON_START
             Reference.TestFormatDef error_zero
  = Some (Parsed (Node ENT_CONDBOOL (Some (lit "c")) 1 2 []) (lit "?>"), error_zero) /\
  node_parse Reference.K 3 (lit "<<c?x>?y>") (Some (lit "?x>?y>")) CON_START
             Reference.TestFormatDef error_zero
  = Some (Parsed (Node ENT_CONDITION None 0 0
                       [[Node ENT_CONDBOOL (Some (lit "c")) 1 2 []];
                        [Node ENT_TEXT (Some (lit "x")) 0 0 []];
                        []])
                 (lit "?y>"), error_zero) /\
  node_parse Reference.K 1 (lit "%c?>") (Some (lit "?>")) CON_NO_CONDITION
             Reference.TestFormatDef error_zero
  = Some (Parsed (Node ENT_EXPANDO (Some (lit "c")) 1 2 []) (lit "?>"), error_zero).
Proof.
  assert (He : entry_ok ("<" :: lit "c?>") (Some (lit "?>")))
    by (split; [discriminate | simpl; lia]).
  pose proof (node_parse_condition_start
                Reference.K reference_flags 0 "<" (lit "c?>") (Some (lit "?>"))
                Reference.TestFormatDef error_zero (or_introl eq_refl) He eq_refl)
    as (_ & Hcond & _ & H1 & _ & H2).
  split; [exact H1|]. split; [|exact H2].
  assert (He2 : entry_ok ("<" :: "<" :: lit "c?x>?y>") (Some (lit "?x>?y>")))
    by (split; [discriminate | simpl; lia]).
  assert (Htest : node_parse Reference.K 2 ("<" :: lit "c?x>?y>")
                    (Some (skip_until_ch Reference.K ("<" :: lit "c?x>?y>") "?"))
                    CON_START Reference.TestFormatDef error_zero
                  = Some (Parsed (Node ENT_CONDBOOL (Some (lit "c")) 1 2 [])
                                 ("?" :: lit "x>?y>"), error_zero))
    by (vm_compute; reflexivity).
  change (lit "<<c?x>?y>") with ("<" :: "<" :: lit "c?x>?y>").
  rewrite (Hcond 2 "<" (lit "c?x>?y>") (Some (lit "?x>?y>")) error_zero
                 (Node ENT_CONDBOOL (Some (lit "c")) 1 2 []) (lit "x>?y>")
                 (or_introl eq_refl) He2 Htest).
  vm_compute. reflexivity.
Defined.


(** * Further properties of the scans *)

Lemma is_suffix_refl (s : cstr) : is_suffix s s.
Proof. exists 0. reflexivity. Qed.

Lemma is_suffix_cons (u : cstr) (c : ascii) (s : cstr) :
  is_suffix u s -> is_suffix u (c :: s).
Proof. intros [n ->]. exists (S n). reflexivity. Qed.

Lemma is_suffix_trans (u v s : cstr) : is_suffix u v -> is_suffix v s -> is_suffix u s.
Proof.
  intros [n ->] [m ->]. exists (m + n). rewrite skipn_skipn. f_equal. lia.
Qed.


Lemma is_suffix_ptr_next (p : cstr) : is_suffix (ptr_next p) p.
Proof. destruct p; [exists 0 | exists 1]; reflexivity. Qed.

Lemma skip_true_loop_suffix (t : ascii) (s : cstr) :
  forall ctr prev, is_suffix (skip_true_loop s t ctr prev) s.
Proof.
  induction s as [|c rest IH]; intros ctr prev; cbn [skip_true_loop].
  - apply is_suffix_refl.
  - destruct ((ctr =? 0)%Z && _); [apply is_suffix_refl|].
    apply is_suffix_cons, IH.
Qed.

Lemma skip_false_loop_suffix (t : ascii) (s : cstr) :
  forall ctr prev, is_suffix (skip_false_loop s t ctr prev) s.
Proof.
  induction s as [|c rest IH]; intros ctr prev; cbn [skip_false_loop].
  - apply is_suffix_refl.
  - destruct ((ctr =? 0)%Z && _ && _); [apply is_suffix_refl|].
    apply is_suffix_cons, IH.
Qed.

Lemma skip_true_loop_stops (t : ascii) (s : cstr) :
  forall ctr prev,
    skip_true_loop s t ctr prev = [] \/
    deref (skip_true_loop s t ctr prev) = "&" \/
    deref (skip_true_loop s t ctr prev) = t.
Proof.
  induction s as [|c rest IH]; intros ctr prev; cbn [skip_true_loop]; [left; reflexivity|].
  destruct ((ctr =? 0)%Z && (((c =? t) && negb (prev =? "%")) || (c =? "&"))) eqn:Hstop;
    [|apply IH].
  right. cbn [deref hd].
  apply andb_true_iff in Hstop as [_ Hstop].
  apply orb_true_iff in Hstop as [Hs | Hs].
  - right. apply andb_true_iff in Hs as [Hs _]. apply Ascii.eqb_eq. exact Hs.
  - left. apply Ascii.eqb_eq. exact Hs.
Qed.

Lemma skip_false_loop_stops (t : ascii) (s : cstr) :
  forall ctr prev,
    skip_false_loop s t ctr prev = [] \/ deref (skip_false_loop s t ctr prev) = t.
Proof.
  induction s as [|c rest IH]; intros ctr prev; cbn [skip_false_loop]; [left; reflexivity|].
  destruct ((ctr =? 0)%Z && (c =? t) && negb (prev =? "%")) eqn:Hstop; [|apply IH].
  right. cbn [deref hd].
  apply andb_true_iff in Hstop as [Hstop _].
  apply andb_true_iff in Hstop as [_ Hs]. apply Ascii.eqb_eq. exact Hs.
Qed.

(** X1: the scan for the end of the false branch ends at the first
    un-escaped end terminator at depth 0, with [%<] counted up and an
    un-escaped ['>'] counted down, and at the end of the string when there
    is none; an ['&'] does not end it. *)
Theorem skip_until_if_false_end_first_stop (s : cstr) (t : ascii) :
  skip_until_if_false_end s t = skipn (first_stop false_stop s t) s.
Proof. exact (skip_false_loop_spec t s []). Qed.

(** X2: a scan only ever stops on a terminator: the true-branch scan
    returns a pointer into its input that is at the end of the string, at an
    ['&'] or at the end terminator; the false-branch scan one that is at the
    end of the string or at the end terminator. *)
Theorem skip_scans_stop_bytes (s : cstr) (t : ascii) :
  (is_suffix (skip_until_if_true_end s t) s /\
   (skip_until_if_true_end s t = [] \/
    deref (skip_until_if_true_end s t) = "&" \/
    deref (skip_until_if_true_end s t) = t)) /\
  (is_suffix (skip_until_if_false_end s t) s /\
   (skip_until_if_false_end s t = [] \/
    deref (skip_until_if_false_end s t) = t)).
Proof.
  split; split.
  - apply skip_true_loop_suffix.
  - apply skip_true_loop_stops.
  - apply skip_false_loop_suffix.
  - apply skip_false_loop_stops.
Qed.

Lemma skip_false_after_true_loop (t : ascii) (s : cstr) :
  forall ctr prev,
    is_suffix (skip_false_loop s t ctr prev) (skip_true_loop s t ctr prev).
Proof.
  induction s as [|c rest IH]; intros ctr prev; cbn [skip_true_loop skip_false_loop].
  - apply is_suffix_refl.
  - destruct ((ctr =? 0)%Z) eqn:Hc; destruct (c =? t) eqn:Ht;
      destruct (negb (prev =? "%")) eqn:Hp; destruct (c =? "&") eqn:Ha;
      cbn [andb orb];
      try apply is_suffix_refl; try apply IH;
      apply is_suffix_cons, skip_false_loop_suffix.
Qed.

Lemma skip_loops_agree_without_amp (t : ascii) (s : cstr) :
  forall ctr prev,
    ~ In "&" s -> skip_false_loop s t ctr prev = skip_true_loop s t ctr prev.
Proof.
  induction s as [|c rest IH]; intros ctr prev Hin; cbn [skip_true_loop skip_false_loop];
    [reflexivity|].
  assert (Ha : (c =? "&") = false).
  { apply Ascii.eqb_neq. intros ->. apply Hin. left. reflexivity. }
  rewrite Ha, orb_false_r, andb_assoc.
  destruct ((ctr =? 0)%Z && (c =? t) && negb (prev =? "%")); [reflexivity|].
  apply IH. intros H. apply Hin. right. exact H.
Qed.

(** X3: from the same start, the false-branch scan never ends before the
    true-branch scan (its result points into the true-branch scan's
    result), and on a string without ['&'] the two scans end at the same
    byte. *)
Theorem skip_true_before_false (s : cstr) (t : ascii) :
  is_suffix (skip_until_if_false_end s t) (skip_until_if_true_end s t) /\
  (~ In "&" s -> skip_until_if_false_end s t = skip_until_if_true_end s t).
Proof.
  split.
  - apply skip_false_after_true_loop.
  - apply skip_loops_agree_without_amp.
Qed.

(** * Further properties of conditionals *)

Lemma terminator_not_amp (lead : ascii) : (terminator_of lead =? "&") = false.
Proof. unfold terminator_of. destruct (lead =? "?"); reflexivity. Qed.

Lemma terminator_not_nul (lead : ascii) : (NUL =? terminator_of lead) = false.
Proof. unfold terminator_of. destruct (lead =? "?"); reflexivity. Qed.

(** X4: in any conditional, at the top level or nested, after ['%'] or
    after a bare opening byte in a test: when the test has parsed and the
    scan of the true branch finds neither an ['&'] nor the end terminator,
    the scan has run to the end of the string, and [node_parse] returns
    null with the error position at the terminating NUL of the string
    (beyond the [end] the call was given, if any) and the message that
    names ['&'] and the end terminator. *)
Theorem node_parse_missing_end_at_eos (K : Collaborators) (f : nat) (c0 lead : ascii)
        (rest : cstr) (end_ : option cstr) (cs : ExpandoConditionStart)
        (defs : list ExpandoDefinition)
        (err err1 : ExpandoParseError) (cond : ExpandoNode) (body : cstr)
        (Hopen : starts_construct (c0 :: lead :: rest) cs = true)
        (Hentry : entry_ok (c0 :: lead :: rest) end_)
        (Hlead : lead = "<" \/ lead = "?")
        (Htest : node_parse K f (lead :: rest) (Some (skip_until_ch K (lead :: rest) "?"))
                            CON_START defs err = Some (Parsed cond ("?" :: body), err1))
        (Hamp : deref (skip_until_if_true_end body (terminator_of lead)) <> "&")
        (Hterm : deref (skip_until_if_true_end body (terminator_of lead))
                 <> terminator_of lead) :
  skip_until_if_true_end body (terminator_of lead) = [] /\
  node_parse K (S f) (c0 :: lead :: rest) end_ cs defs err
  = Some (Null, mkError (Some [])
                        (snprintf (MESSAGE_SIZE K) (gettext K msg_missing_amp)
                                  (terminator_of lead))).
Proof.
  assert (Hnil : skip_until_if_true_end body (terminator_of lead) = []).
  { destruct (skip_true_loop_stops (terminator_of lead) body 0 NUL) as [H | [H | H]];
      [exact H | contradiction | contradiction]. }
  split; [exact Hnil|].
  rewrite (node_parse_conditional K f c0 lead rest end_ cs defs err err1 cond body
             Hopen Hentry Hlead Htest).
  cbv zeta. rewrite Hnil. cbn [deref hd].
  rewrite terminator_not_nul. reflexivity.
Qed.

(** X5: in any conditional, at the top level or nested, after ['%'] or
    after a bare opening byte in a test: when the true branch has been
    parsed up to its ['&'] and the scan of the false branch finds no end
    terminator, that scan has run to the end of the string, and
    [node_parse] returns null with the error position at the first byte
    after the ['&'] (the start of the false branch, not the end of the
    string) and the message that names the end terminator. *)
Theorem node_parse_missing_false_end (K : Collaborators) (f : nat) (c0 lead : ascii)
        (rest : cstr) (end_ : option cstr) (cs : ExpandoConditionStart)
        (defs : list ExpandoDefinition)
        (err err1 err2 : ExpandoParseError) (cond : ExpandoNode) (body : cstr)
        (branch_true : list ExpandoNode) (start_true : cstr)
        (Hopen : starts_construct (c0 :: lead :: rest) cs = true)
        (Hentry : entry_ok (c0 :: lead :: rest) end_)
        (Hlead : lead = "<" \/ lead = "?")
        (Htest : node_parse K f (lead :: rest) (Some (skip_until_ch K (lead :: rest) "?"))
                            CON_START defs err = Some (Parsed cond ("?" :: body), err1))
        (Hamp : deref (skip_until_if_true_end body (terminator_of lead)) = "&")
        (Htrue : parse_branch
                   (fun s e =>
                      node_parse K f s
                                 (Some (skip_until_if_true_end body (terminator_of lead)))
                                 CON_NO_CONDITION defs e)
                   f body (skip_until_if_true_end body (terminator_of lead)) [] err1
                 = Some (Some (branch_true, start_true), err2))
        (Hfalse : deref (skip_until_if_false_end
                           (ptr_next (skip_until_if_true_end body (terminator_of lead)))
                           (terminator_of lead))
                  <> terminator_of lead) :
  skip_until_if_false_end (ptr_next (skip_until_if_true_end body (terminator_of lead)))
                          (terminator_of lead) = [] /\
  node_parse K (S f) (c0 :: lead :: rest) end_ cs defs err
  = Some (Null, mkError (Some (ptr_next (skip_until_if_true_end body (terminator_of lead))))
                        (snprintf (MESSAGE_SIZE K) (gettext K msg_missing)
                                  (terminator_of lead))).
Proof.
  set (t := terminator_of lead) in *.
  set (end_true := skip_until_if_true_end body t) in *.
  assert (Hnil : skip_until_if_false_end (ptr_next end_true) t = []).
  { destruct (skip_false_loop_stops t (ptr_next end_true) 0 NUL) as [H | H];
      [exact H | contradiction]. }
  split; [exact Hnil|].
  rewrite (node_parse_conditional K f c0 lead rest end_ cs defs err err1 cond body
             Hopen Hentry Hlead Htest).
  cbv zeta. fold t. fold end_true. rewrite Htrue, Hamp, Hnil.
  change ("&" =? "&") with true. cbn [negb andb deref hd].
  assert (Ht : ("&" =? t) = false).
  { rewrite Ascii.eqb_sym. apply terminator_not_amp. }
  rewrite Ht. subst t. rewrite terminator_not_nul. reflexivity.
Qed.





(** * Further properties of the compiled Expando *)

Lemma mutt_str_equal_option_iff (a b : option cstr) :
  mutt_str_equal a b = true <-> a = b.
Proof.
  destruct a as [x|], b as [y|].
  - rewrite mutt_str_equal_iff. split; [intros ->; reflexivity | intros [= ->]; reflexivity].
  - split; discriminate.
  - split; discriminate.
  - split; reflexivity.
Qed.

(** X7: [expando_equal] holds exactly when both pointers are null, or both
    are Expandos with the same retained string (both null strings, or
    byte-identical ones); the parsed trees play no part.  It is therefore
    symmetric and transitive, and no Expando equals the null pointer. *)
Theorem expando_equal_iff_strings :
  (forall a b : option Expando,
      expando_equal a b = true <-> option_map string a = option_map string b) /\
  (forall a b : option Expando, expando_equal a b = expando_equal b a) /\
  (forall a b c : option Expando,
      expando_equal a b = true -> expando_equal b c = true -> expando_equal a c = true) /\
  (forall e : Expando, expando_equal None (Some e) = false).
Proof.
  assert (Hiff : forall a b : option Expando,
             expando_equal a b = true <-> option_map string a = option_map string b).
  { intros [ea|] [eb|]; unfold expando_equal; cbn [is_none andb xorb option_map].
    - rewrite mutt_str_equal_option_iff. split; [intros ->; reflexivity | intros [= ->]; reflexivity].
    - split; discriminate.
    - split; discriminate.
    - split; reflexivity. }
  split; [exact Hiff|]. split; [|split].
  - intros a b. destruct (expando_equal a b) eqn:Hab; destruct (expando_equal b a) eqn:Hba;
      try reflexivity.
    + apply Hiff in Hab. symmetry in Hab. apply Hiff in Hab. congruence.
    + apply Hiff in Hba. symmetry in Hba. apply Hiff in Hba. congruence.
  - intros a b c Hab Hbc. apply Hiff. apply Hiff in Hab, Hbc. congruence.
  - reflexivity.
Qed.

(** * Termination and pointers of the parser *)

(** X8: with collaborators that locate their failures and move forward, a
    call of [node_parse] entered as its callers enter it finishes once the
    fuel exceeds the length of what is left to read, and a node it returns
    leaves [parsed_until] strictly after [str]; so the loop of
    [node_tree_parse] makes progress and [node_tree_parse] finishes too. *)
Theorem node_tree_parse_terminates (K : Collaborators) (HK : WellBehaved K)
        (HA : Advancing K) (fuel : nat) (str : cstr) (defs : list ExpandoDefinition)
        (root : list ExpandoNode) (err : ExpandoParseError)
        (Hfuel : length str < fuel) :
  (forall end_ cs,
      entry_strict str end_ cs ->
      exists r err', node_parse K fuel str end_ cs defs err = Some (r, err') /\
                     forall n u, r = Parsed n u -> length u < length str) /\
  (exists root' err', node_tree_parse K fuel root (Some str) defs err = Some (root', err')).
Proof.
  split.
  - intros end_ cs Hentry. apply (node_parse_total K HK HA); assumption.
  - unfold node_tree_parse. destruct (is_null str); [eauto|].
    destruct (tree_loop_total K HK HA fuel defs fuel str root err Hfuel)
      as (root' & err' & Hloop); [lia|].
    rewrite Hloop. eauto.
Qed.

Lemma checked_leaf_inside (p : LeafParser) (Hp : stays_inside p) str defs flags err r err' :
  checked_leaf (p str defs flags err) = (r, err') ->
  (forall n u, r = Parsed n u -> is_suffix u str) /\
  (forall q, position err' = Some q -> position err = Some q \/ is_suffix q str).
Proof.
  unfold checked_leaf.
  destruct (p str defs flags err) as [x e] eqn:Hx. cbn [fst snd].
  destruct (Hp _ _ _ _ _ _ Hx) as [Hu Hq].
  destruct x as [nd v|].
  - destruct (position e) eqn:Hpos; intros [= <- <-].
    + split; [discriminate | rewrite Hpos; exact Hq].
    + split; [intros n u [= <- <-]; eapply Hu; reflexivity | rewrite Hpos; exact Hq].
  - intros [= <- <-]. split; [discriminate | exact Hq].
Qed.

Lemma parse_branch_inside
      (parse : cstr -> ExpandoParseError -> option (ParseResult * ExpandoParseError))
      (end_ : cstr)
      (Hparse : forall s e r e',
          parse s e = Some (r, e') ->
          (forall n u, r = Parsed n u -> is_suffix u s) /\
          (forall q, position e' = Some q -> position e = Some q \/ is_suffix q s)) :
  forall fuel start branch err res err',
    parse_branch parse fuel start end_ branch err = Some (res, err') ->
    (forall b st, res = Some (b, st) -> is_suffix st start) /\
    (forall q, position err' = Some q -> position err = Some q \/ is_suffix q start).
Proof.
  induction fuel as [|fuel IH]; intros start branch err res err';
    cbn [parse_branch]; destruct (ptr_lt start end_) eqn:Hlt; try discriminate.
  - intros [= <- <-]. split; [intros b st [= <- <-]; apply is_suffix_refl | auto].
  - destruct (parse start err) as [[r e1]|] eqn:Hp; [|discriminate].
    destruct (Hparse _ _ _ _ Hp) as [Hu Hq].
    destruct r as [n u|].
    + intros H. apply IH in H as [Hst Hpos].
      specialize (Hu n u eq_refl). split.
      * intros b st Hres. eapply is_suffix_trans; [eapply Hst; exact Hres | exact Hu].
      * intros q Hq'. destruct (Hpos q Hq') as [H1 | H1].
        -- apply Hq. exact H1.
        -- right. eapply is_suffix_trans; eassumption.
    + intros [= <- <-]. split; [discriminate | exact Hq].
  - intros [= <- <-]. split; [intros b st [= <- <-]; apply is_suffix_refl | auto].
Qed.

Lemma node_parse_inside (K : Collaborators) (HI : Inside K) :
  forall fuel str end_ cs defs err r err',
    node_parse K fuel str end_ cs defs err = Some (r, err') ->
    (forall n u, r = Parsed n u -> is_suffix u str) /\
    (forall q, position err' = Some q -> position err = Some q \/ is_suffix q str).
Proof.
  destruct HI as [Hcb Hex Htext].
  induction fuel as [|f IH]; intros str end_ cs defs err r err'; [discriminate|].
  cbn [node_parse].
  destruct (is_null str || _).
  { intros [= <- <-]. split; [discriminate | auto]. }
  destruct ((deref str =? "%") || _).
  2:{ intros [= <- <-]. split; [|auto].
      intros n u Hr. eapply Htext. exact Hr. }
  pose proof (is_suffix_ptr_next str) as Hs1.
  destruct (deref (ptr_next str) =? "%").
  { intros [= <- <-]. split; [|auto]. intros n u [= <- <-].
    eapply is_suffix_trans; [apply is_suffix_ptr_next | exact Hs1]. }
  destruct ((deref (ptr_next str) =? "?") || (deref (ptr_next str) =? "<")).
  2:{ intros [= H]. revert H.
      destruct (negb (Z.land _ (EP_CONDITIONAL K) =? 0)%Z); intros H;
        [apply (checked_leaf_inside _ Hcb) in H | apply (checked_leaf_inside _ Hex) in H];
        destruct H as [Hu Hq]; (split;
          [intros n u Hr; eapply is_suffix_trans; [eapply Hu; exact Hr | exact Hs1]
          |intros q Hq'; destruct (Hq q Hq') as [H1 | H1];
             [left; exact H1 | right; eapply is_suffix_trans; eassumption]]). }
  set (t := if deref (ptr_next str) =? "?" then "?" else ">").
  destruct (node_parse K f (ptr_next str) _ CON_START defs err) as [[rc e1]|] eqn:Hc;
    [|discriminate].
  destruct (IH _ _ _ _ _ _ _ Hc) as [Hu1 Hq1].
  assert (Hq1' : forall q, position e1 = Some q -> position err = Some q \/ is_suffix q str).
  { intros q Hq. destruct (Hq1 q Hq) as [H1 | H1];
      [left; exact H1 | right; eapply is_suffix_trans; eassumption]. }
  destruct rc as [node_cond next|].
  2:{ intros [= <- <-]. split; [discriminate | exact Hq1']. }
  assert (Hnext : is_suffix next str).
  { eapply is_suffix_trans; [eapply Hu1; reflexivity | exact Hs1]. }
  destruct (negb (deref next =? "?")).
  { intros [= <- <-]. split; [discriminate|]. cbn [position].
    intros q [= <-]. right. exact Hnext. }
  set (end_true := skip_until_if_true_end (ptr_next next) t).
  assert (Het : is_suffix end_true str).
  { eapply is_suffix_trans; [apply skip_true_loop_suffix|].
    eapply is_suffix_trans; [apply is_suffix_ptr_next | exact Hnext]. }
  destruct (negb (deref end_true =? "&") && negb (deref end_true =? t)).
  { intros [= <- <-]. split; [discriminate|]. cbn [position].
    intros q [= <-]. right. exact Het. }
  assert (Hbranch : forall e_ s e r0 e',
             node_parse K f s (Some e_) CON_NO_CONDITION defs e = Some (r0, e') ->
             (forall n u, r0 = Parsed n u -> is_suffix u s) /\
             (forall q, position e' = Some q -> position e = Some q \/ is_suffix q s)).
  { intros e_ s e r0 e' Hp. eapply IH. exact Hp. }
  destruct (parse_branch _ f (ptr_next next) end_true [] e1) as [[bt e2]|] eqn:Hbt;
    [|discriminate].
  destruct (parse_branch_inside _ _ (Hbranch end_true) _ _ _ _ _ _ Hbt) as [_ Hq2].
  assert (Hq2' : forall q, position e2 = Some q -> position err = Some q \/ is_suffix q str).
  { intros q Hq. destruct (Hq2 q Hq) as [H1 | H1]; [apply Hq1'; exact H1|].
    right. eapply is_suffix_trans; [exact H1|].
    eapply is_suffix_trans; [apply is_suffix_ptr_next | exact Hnext]. }
  destruct bt as [[branch_true start_true]|].
  2:{ intros [= <- <-]. split; [discriminate | exact Hq2']. }
  assert (Hsf : is_suffix (ptr_next end_true) str).
  { eapply is_suffix_trans; [apply is_suffix_ptr_next | exact Het]. }
  destruct (deref end_true =? t).
  { intros [= <- <-]. split; [|exact Hq2']. intros n u [= <- <-]. exact Hsf. }
  set (end_false := skip_until_if_false_end (ptr_next end_true) t).
  assert (Hef : is_suffix end_false str).
  { eapply is_suffix_trans; [apply skip_false_loop_suffix | exact Hsf]. }
  destruct (negb (deref end_false =? t)).
  { intros [= <- <-]. split; [discriminate|]. cbn [position].
    intros q [= <-]. right. exact Hsf. }
  destruct (parse_branch _ f (ptr_next end_true) end_false [] e2) as [[bf e3]|] eqn:Hbf;
    [|discriminate].
  destruct (parse_branch_inside _ _ (Hbranch end_false) _ _ _ _ _ _ Hbf) as [_ Hq3].
  assert (Hq3' : forall q, position e3 = Some q -> position err = Some q \/ is_suffix q str).
  { intros q Hq. destruct (Hq3 q Hq) as [H1 | H1]; [apply Hq2'; exact H1|].
    right. eapply is_suffix_trans; [exact H1 | exact Hsf]. }
  destruct bf as [[branch_false start_false]|].
  2:{ intros [= <- <-]. split; [discriminate | exact Hq3']. }
  intros [= <- <-]. split; [|exact Hq3']. intros n u [= <- <-].
  eapply is_suffix_trans; [apply is_suffix_ptr_next | exact Hef].
Qed.

Lemma tree_loop_inside (K : Collaborators) (HI : Inside K) (fuel : nat)
      (defs : list ExpandoDefinition) :
  forall rounds start root err root' err',
    tree_loop K fuel rounds start defs root err = Some (root', err') ->
    forall q, position err' = Some q -> position err = Some q \/ is_suffix q start.
Proof.
  induction rounds as [|rounds IH]; intros start root err root' err';
    cbn [tree_loop]; destruct (is_null start); try discriminate.
  - intros [= <- <-]. auto.
  - intros [= <- <-]. auto.
  - destruct (node_parse K fuel start None CON_NO_CONDITION defs err)
      as [[r e1]|] eqn:Hp; [|discriminate].
    destruct (node_parse_inside K HI _ _ _ _ _ _ _ _ Hp) as [Hu Hq].
    destruct r as [n u|].
    + intros H q Hq'. destruct (IH _ _ _ _ _ H q Hq') as [H1 | H1].
      * apply Hq. exact H1.
      * right. eapply is_suffix_trans; [exact H1 | eapply Hu; reflexivity].
    + intros [= <- <-]. exact Hq.
Qed.

Lemma is_suffix_offset (q s : cstr) : is_suffix q s -> skipn (offset s q) s = q.
Proof.
  intros [n ->]. unfold offset. rewrite length_skipn.
  destruct (Nat.le_gt_cases n (length s)) as [Hle | Hgt].
  - f_equal. lia.
  - rewrite (skipn_all2 s (n:=n)) by lia.
    replace (length s - (length s - n)) with (length s) by lia.
    apply skipn_all.
Qed.

(** X9: with leaf parsers that keep to the string they read, [node_parse]
    keeps to it too: [parsed_until] and a newly set error position point
    into [str].  So the error position that [node_tree_parse] reports for a
    format string points into that string: its offset is at most the length
    of the string, and the string from that offset on is what it points
    at. *)
Theorem node_parse_stays_inside (K : Collaborators) (HI : Inside K) (fuel : nat)
        (s : cstr) (defs : list ExpandoDefinition) :
  (forall end_ cs err r err',
      node_parse K fuel s end_ cs defs err = Some (r, err') ->
      (forall n u, r = Parsed n u -> is_suffix u s) /\
      (forall q, position err' = Some q -> position err = Some q \/ is_suffix q s)) /\
  (forall root root' error q,
      node_tree_parse K fuel root (Some s) defs error_zero = Some (root', error) ->
      position error = Some q ->
      is_suffix q s /\ offset s q <= length s /\ skipn (offset s q) s = q).
Proof.
  split.
  - intros end_ cs err r err'. apply (node_parse_inside K HI).
  - intros root root' error q. unfold node_tree_parse.
    destruct (is_null s); [intros [= _ <-]; discriminate|].
    destruct (tree_loop K fuel fuel s defs root error_zero) as [[r e]|] eqn:Hloop;
      [|discriminate].
    intros [= _ <-] Hq.
    destruct (tree_loop_inside K HI _ _ _ _ _ _ _ _ Hloop q Hq) as [H | H];
      [discriminate H|].
    split; [exact H|]. split; [unfold offset; lia | apply is_suffix_offset; exact H].
Qed.

(** * Maildir file flags *)

Lemma store_length (k : nat) (c : ascii) (buf : cstr) : length (store k c buf) = length buf.
Proof.
  revert k. induction buf as [|x buf IH]; intros [|k]; simpl; auto.
Qed.

Lemma firstn_store_snoc (k : nat) (c : ascii) (buf : cstr) :
  k < length buf -> firstn (S k) (store k c buf) = firstn k buf ++ [c].
Proof.
  revert k. induction buf as [|x buf IH]; intros [|k] Hk; simpl in *; try lia.
  - reflexivity.
  - f_equal. apply IH. lia.
Qed.

Lemma firstn_store_before (k n : nat) (c : ascii) (buf : cstr) :
  n <= k -> firstn n (store k c buf) = firstn n buf.
Proof.
  revert k n. induction buf as [|x buf IH]; intros [|k] [|n] Hn; simpl in *;
    try lia; try reflexivity.
  f_equal. apply IH. lia.
Qed.

Lemma firstn_firstn_le (n m : nat) (l : cstr) :
  n <= m -> firstn n (firstn m l) = firstn n l.
Proof. intros H. rewrite firstn_firstn. f_equal. lia. Qed.

(** Invariant of the loop of [maildir_parse_flags] on a buffer with room
    for what is left to read: it ends without a fault, the standard flags
    accumulate, and the custom flags are compacted in order at the front of
    the buffer. *)
Lemma flags_loop_spec (safe : bool) (fl : cstr) :
  forall (e : Email) (b : cstr) (q : nat),
    q + length fl <= length b ->
    exists e' b',
      flags_loop safe fl e (Some b) q
      = Some (e', Some b', q + length (filter is_custom_flag fl)) /\
      length b' = length b /\
      firstn (q + length (filter is_custom_flag fl)) b'
      = firstn q b ++ filter is_custom_flag fl /\
      flagged e' = flagged e || existsb (Ascii.eqb "F") fl /\
      replied e' = replied e || existsb (Ascii.eqb "R") fl /\
      read e' = read e || existsb (Ascii.eqb "S") fl /\
      trash e' = trash e || trashes safe (flagged e) fl /\
      deleted e' = deleted e || trashes safe (flagged e) fl /\
      edata e' = edata e.
Proof.
  induction fl as [|c fl IH]; intros e b q Hroom.
  - exists e, b. cbn [flags_loop filter length existsb trashes].
    rewrite Nat.add_0_r, app_nil_r, !orb_false_r. repeat split; reflexivity.
  - cbn [length] in Hroom. cbn [flags_loop filter existsb trashes].
    rewrite !(Ascii.eqb_sym _ c).
    destruct (c =? "F") eqn:HF; [|destruct (c =? "R") eqn:HR;
      [|destruct (c =? "S") eqn:HS; [|destruct (c =? "T") eqn:HT]]]; cbn [orb negb].
    + destruct (IH (set_flagged e true) b q ltac:(lia))
        as (e' & b' & H & Hl & Hb & H1 & H2 & H3 & H4 & H5 & H6).
      exists e', b'. rewrite H.
      cbn [set_flagged flagged replied read trash deleted edata] in *.
      rewrite H1, H2, H3, H4, H5, H6.
      apply Ascii.eqb_eq in HF. subst c.
      change (is_custom_flag "F") with false. cbv iota.
      change ("F" =? "R") with false. change ("F" =? "S") with false.
      cbn [orb]. rewrite orb_true_r. repeat split; auto.
    + destruct (IH (set_replied e true) b q ltac:(lia))
        as (e' & b' & H & Hl & Hb & H1 & H2 & H3 & H4 & H5 & H6).
      exists e', b'. rewrite H.
      cbn [set_replied flagged replied read trash deleted edata] in *.
      rewrite H1, H2, H3, H4, H5, H6.
      apply Ascii.eqb_eq in HR. subst c.
      change (is_custom_flag "R") with false. cbv iota.
      change ("R" =? "S") with false.
      cbn [orb]. rewrite orb_true_r. repeat split; auto.
    + destruct (IH (set_read e true) b q ltac:(lia))
        as (e' & b' & H & Hl & Hb & H1 & H2 & H3 & H4 & H5 & H6).
      exists e', b'. rewrite H.
      cbn [set_read flagged replied read trash deleted edata] in *.
      rewrite H1, H2, H3, H4, H5, H6.
      apply Ascii.eqb_eq in HS. subst c.
      change (is_custom_flag "S") with false. cbv iota.
      cbn [orb]. rewrite orb_true_r. repeat split; auto.
    + destruct (IH (if negb (flagged e) || negb safe then set_trash_deleted e else e)
                   b q ltac:(lia))
        as (e' & b' & H & Hl & Hb & H1 & H2 & H3 & H4 & H5 & H6).
      exists e', b'. rewrite H.
      apply Ascii.eqb_eq in HT. subst c.
      change (is_custom_flag "T") with false. cbv iota.
      destruct (negb (flagged e) || negb safe) eqn:Hcond;
        cbn [set_trash_deleted flagged replied read trash deleted edata] in *;
        rewrite H1, H2, H3, H4, H5, H6; cbn [orb];
        rewrite ?orb_true_r; repeat split; auto.
    + assert (Hcust : is_custom_flag c = true)
        by (unfold is_custom_flag; rewrite HF, HR, HS, HT; reflexivity).
      rewrite Hcust.
      destruct (IH e (store q c b) (S q))
        as (e' & b' & H & Hl & Hb & H1 & H2 & H3 & H4 & H5 & H6).
      { rewrite store_length. lia. }
      exists e', b'. rewrite H. cbn [length].
      rewrite store_length in Hl.
      rewrite firstn_store_snoc in Hb by lia.
      rewrite <- app_assoc in Hb. cbn [app] in Hb.
      replace (q + S (length (filter is_custom_flag fl)))
        with (S q + length (filter is_custom_flag fl)) by lia.
      rewrite H1, H2, H3, H4, H5, H6.
      repeat split; auto.
Qed.

Lemma email_ext (a b : Email) :
  flagged a = flagged b -> read a = read b -> replied a = replied b ->
  trash a = trash b -> deleted a = deleted b -> edata a = edata b -> a = b.
Proof. destruct a, b; cbn; intros; subst; reflexivity. Qed.

(** The flags at [p] as [maildir_parse_flags] applies them to [e]. *)
Lemma flags_section_spec (env : MaildirEnv) (Hok : MaildirEnvOk env) (e : Email)
      (old : option cstr) (p : cstr) :
  exists e',
    flags_finish (flags_loop (c_flag_safe env) p e (mutt_str_replace env old p) 0)
    = Some e' /\
    flagged e' = flagged e || existsb (Ascii.eqb "F") p /\
    replied e' = replied e || existsb (Ascii.eqb "R") p /\
    read e' = read e || existsb (Ascii.eqb "S") p /\
    trash e' = trash e || trashes (c_flag_safe env) (flagged e) p /\
    deleted e' = deleted e || trashes (c_flag_safe env) (flagged e) p /\
    edata e' = Some (mkEdata (if is_null (filter is_custom_flag p) then None
                              else Some (filter is_custom_flag p))).
Proof.
  destruct Hok as [_ Hcopy Hempty _].
  destruct p as [|c p].
  - exists (set_edata e (Some (mkEdata None))).
    cbn [flags_loop existsb trashes filter is_null].
    rewrite !orb_false_r.
    destruct (Hempty old) as [-> | ->]; repeat split; reflexivity.
  - rewrite Hcopy.
    destruct (flags_loop_spec (c_flag_safe env) (c :: p) e (c :: p) 0 (Nat.le_refl _))
      as (e' & b' & H & Hl & Hb & H1 & H2 & H3 & H4 & H5 & H6).
    cbn [Nat.add firstn app] in *.
    destruct (filter is_custom_flag (c :: p)) as [|k kept] eqn:Hk.
    + exists (set_edata e' (Some (mkEdata None))). split.
      * transitivity (flags_finish (Some (e', Some b', 0))); [f_equal; exact H | reflexivity].
      * cbn [is_null]. repeat split; assumption.
    + exists (set_edata e' (Some (mkEdata (Some (k :: kept))))). split.
      * transitivity (flags_finish (Some (e', Some b', length (k :: kept))));
          [f_equal; exact H|].
        cbn [length flags_finish]. cbn [length] in Hb. rewrite Hb. reflexivity.
      * cbn [is_null]. repeat split; assumption.
Qed.

Lemma strrchr_none (d : ascii) (s : cstr) :
  d <> NUL -> ~ In d s -> strrchr s d = None.
Proof.
  intros Hd. induction s as [|x s IH]; intros Hin; cbn [strrchr].
  - apply Ascii.eqb_neq in Hd. rewrite Hd. reflexivity.
  - rewrite IH by (intros H; apply Hin; right; exact H).
    assert (Hx : (x =? d) = false)
      by (apply Ascii.eqb_neq; intros ->; apply Hin; left; reflexivity).
    rewrite Hx. reflexivity.
Qed.

Lemma strrchr_last (d : ascii) (pre rest : cstr) :
  d <> NUL -> ~ In d rest -> strrchr (pre ++ d :: rest) d = Some (d :: rest).
Proof.
  intros Hd Hin. induction pre as [|x pre IH]; cbn [app strrchr].
  - rewrite (strrchr_none d rest Hd Hin). rewrite Ascii.eqb_refl. reflexivity.
  - rewrite IH. reflexivity.
Qed.

Lemma trashes_iff (safe : bool) (fl : cstr) :
  forall seen,
    trashes safe seen fl = true <->
    exists a b, fl = a ++ "T" :: b /\ (safe = false \/ (seen = false /\ ~ In "F" a)).
Proof.
  induction fl as [|c fl IH]; intros seen; cbn [trashes].
  - split; [discriminate|]. intros (a & b & H & _). destruct a; discriminate H.
  - destruct (c =? "F") eqn:HF; [|destruct (c =? "T") eqn:HT].
    + apply Ascii.eqb_eq in HF. subst c. rewrite IH. split.
      * intros (a & b & -> & [Hs | [Hs _]]); [|discriminate Hs].
        exists ("F" :: a), b. split; [reflexivity | left; exact Hs].
      * intros (a & b & H & Hc). destruct a as [|x a]; [discriminate H|].
        injection H as <- ->. exists a, b. split; [reflexivity|].
        destruct Hc as [Hs | [_ Hn]]; [left; exact Hs|].
        exfalso. apply Hn. left. reflexivity.
    + apply Ascii.eqb_eq in HT. subst c. rewrite orb_true_iff, IH. split.
      * intros [Hnow | (a & b & -> & Hc)].
        -- exists [], fl. split; [reflexivity|].
           apply orb_true_iff in Hnow as [Hn | Hn]; apply negb_true_iff in Hn;
             [right; split; [exact Hn | intros []] | left; exact Hn].
        -- exists ("T" :: a), b. split; [reflexivity|].
           destruct Hc as [Hs | [Hs Hn]]; [left; exact Hs | right; split; [exact Hs|]].
           intros [H | H]; [discriminate H | exact (Hn H)].
      * intros (a & b & H & Hc). destruct a as [|x a].
        -- left. destruct Hc as [-> | [-> _]]; [apply orb_true_r | reflexivity].
        -- right. injection H as <- ->. exists a, b. split; [reflexivity|].
           destruct Hc as [Hs | [Hs Hn]]; [left; exact Hs | right; split; [exact Hs|]].
           intros H. apply Hn. right. exact H.
    + rewrite IH. split.
      * intros (a & b & -> & Hc). exists (c :: a), b. split; [reflexivity|].
        destruct Hc as [Hs | [Hs Hn]]; [left; exact Hs | right; split; [exact Hs|]].
        intros [H | H]; [|exact (Hn H)]. subst c. discriminate HF.
      * intros (a & b & H & Hc). destruct a as [|x a].
        -- injection H as -> _. discriminate HT.
        -- injection H as <- ->. exists a, b. split; [reflexivity|].
           destruct Hc as [Hs | [Hs Hn]]; [left; exact Hs | right; split; [exact Hs|]].
           intros H. apply Hn. right. exact H.
Qed.

Lemma parse_flags_section (env : MaildirEnv) (Hok : MaildirEnvOk env) (e : Email)
      (pre fl : cstr)
      (Hd : c_maildir_field_delimiter env <> NUL)
      (Hin : ~ In (c_maildir_field_delimiter env) ("2" :: "," :: fl)) :
  exists e',
    maildir_parse_flags env e (pre ++ c_maildir_field_delimiter env :: "2" :: "," :: fl)
    = Some e' /\
    flagged e' = existsb (Ascii.eqb "F") fl /\
    replied e' = existsb (Ascii.eqb "R") fl /\
    read e' = existsb (Ascii.eqb "S") fl /\
    trash e' = trash e || trashes (c_flag_safe env) false fl /\
    deleted e' = deleted e || trashes (c_flag_safe env) false fl /\
    edata e' = Some (mkEdata (if is_null (filter is_custom_flag fl) then None
                              else Some (filter is_custom_flag fl))).
Proof.
  unfold maildir_parse_flags.
  rewrite (strrchr_last _ pre _ Hd Hin). cbn [ptr_next tl skipn].
  rewrite (startswith_ok env Hok). cbn [lit list_ascii_of_string has_prefix].
  rewrite !Ascii.eqb_refl. cbn [andb negb].
  match goal with
  | |- exists e', flags_finish (flags_loop _ _ ?e0 (mutt_str_replace _ ?old _) 0) = _ /\ _ =>
      destruct (flags_section_spec env Hok e0 old fl)
        as (e' & H & H1 & H2 & H3 & H4 & H5 & H6)
  end.
  exists e'. split; [exact H|].
  cbn [set_replied set_read set_flagged flagged read replied trash deleted orb] in *.
  repeat split; assumption.
Qed.

(** X10: on a file name whose last field delimiter is followed by [2,] and
    the flags, [maildir_parse_flags] ends without a fault and sets
    [flagged], [replied] and [read] to whether the flags hold ['F'], ['R']
    and ['S'], whatever they were before; the custom flags become the
    other flags except ['T'], in the order of the file name, and null when
    there are none. *)
Theorem maildir_parse_flags_reads (env : MaildirEnv) (Hok : MaildirEnvOk env)
        (e : Email) (pre fl : cstr)
        (Hd : c_maildir_field_delimiter env <> NUL)
        (Hin : ~ In (c_maildir_field_delimiter env) ("2" :: "," :: fl)) :
  exists e',
    maildir_parse_flags env e (pre ++ c_maildir_field_delimiter env :: "2" :: "," :: fl)
    = Some e' /\
    flagged e' = existsb (Ascii.eqb "F") fl /\
    replied e' = existsb (Ascii.eqb "R") fl /\
    read e' = existsb (Ascii.eqb "S") fl /\
    edata e' = Some (mkEdata (if is_null (filter is_custom_flag fl) then None
                              else Some (filter is_custom_flag fl))).
Proof.
  destruct (parse_flags_section env Hok e pre fl Hd Hin)
    as (e' & H & H1 & H2 & H3 & _ & _ & H6).
  exists e'. repeat split; assumption.
Qed.

(** X11: on such a file name [trash] and [deleted] are never cleared, and
    they are set exactly by a ['T'] among the flags that counts: any ['T']
    when [$flag_safe] is off, and with [$flag_safe] on only a ['T'] with no
    ['F'] before it in the file name. *)
Theorem maildir_parse_flags_trash (env : MaildirEnv) (Hok : MaildirEnvOk env)
        (e : Email) (pre fl : cstr)
        (Hd : c_maildir_field_delimiter env <> NUL)
        (Hin : ~ In (c_maildir_field_delimiter env) ("2" :: "," :: fl)) :
  exists e',
    maildir_parse_flags env e (pre ++ c_maildir_field_delimiter env :: "2" :: "," :: fl)
    = Some e' /\
    (trash e' = true <->
     trash e = true \/
     exists a b, fl = a ++ "T" :: b /\ (c_flag_safe env = false \/ ~ In "F" a)) /\
    (deleted e' = true <->
     deleted e = true \/
     exists a b, fl = a ++ "T" :: b /\ (c_flag_safe env = false \/ ~ In "F" a)).
Proof.
  destruct (parse_flags_section env Hok e pre fl Hd Hin)
    as (e' & H & _ & _ & _ & H4 & H5 & _).
  exists e'. split; [exact H|].
  assert (Ht : trashes (c_flag_safe env) false fl = true <->
               exists a b, fl = a ++ "T" :: b /\ (c_flag_safe env = false \/ ~ In "F" a)).
  { rewrite trashes_iff. split; intros (a & b & Hfl & Hc); exists a, b; (split; [exact Hfl|]);
      [destruct Hc as [Hs | [_ Hn]]; auto | destruct Hc as [Hs | Hn]; auto]. }
  rewrite H4, H5, !orb_true_iff, Ht. split; reflexivity.
Qed.

(** X12: on a file name without a flags section (no field delimiter, or a
    last delimiter that is not followed by [2,]) [maildir_parse_flags]
    clears [flagged], [read] and [replied] and touches nothing else:
    [trash], [deleted] and custom flags the email already had stay as they
    were. *)
Theorem maildir_parse_flags_no_section (env : MaildirEnv) (Hok : MaildirEnvOk env)
        (e : Email) (path : cstr)
        (Hd : c_maildir_field_delimiter env <> NUL)
        (Hcase : ~ In (c_maildir_field_delimiter env) path \/
                 exists pre rest,
                   path = pre ++ c_maildir_field_delimiter env :: rest /\
                   ~ In (c_maildir_field_delimiter env) rest /\
                   has_prefix (lit "2,") rest = false) :
  maildir_parse_flags env e path
  = Some (mkEmail false false false (trash e) (deleted e)
                  (Some (match edata e with
                         | Some d => d
                         | None => maildir_edata_new env
                         end))).
Proof.
  unfold maildir_parse_flags.
  destruct Hcase as [Hin | (pre & rest & -> & Hin & Hpre)].
  - rewrite (strrchr_none _ _ Hd Hin). reflexivity.
  - rewrite (strrchr_last _ pre _ Hd Hin). cbn [ptr_next tl].
    rewrite (startswith_ok env Hok), Hpre. reflexivity.
Qed.

(** X13: with a string library that does what its names say,
    [maildir_parse_flags] ends without a fault on every email and every
    file name, and parsing the same file name again changes nothing. *)
Theorem maildir_parse_flags_idempotent (env : MaildirEnv) (Hok : MaildirEnvOk env)
        (e : Email) (path : cstr) :
  exists e1,
    maildir_parse_flags env e path = Some e1 /\
    maildir_parse_flags env e1 path = Some e1.
Proof.
  unfold maildir_parse_flags.
  destruct (strrchr path (c_maildir_field_delimiter env)) as [p|].
  2:{ eexists. split; [reflexivity|]. destruct e as [f r rp t d [ed|]]; reflexivity. }
  destruct (negb (mutt_str_startswith env (ptr_next p) (lit "2,") =? 0)%nat).
  2:{ eexists. split; [reflexivity|]. destruct e as [f r rp t d [ed|]]; reflexivity. }
  cbv zeta.
  match goal with
  | |- exists e1, flags_finish (flags_loop _ _ ?e0 (mutt_str_replace _ ?old _) 0) = _ /\ _ =>
      destruct (flags_section_spec env Hok e0 old (skipn 3 p))
        as (e1 & H & H1 & H2 & H3 & H4 & H5 & H6)
  end.
  exists e1. split; [exact H|].
  match goal with
  | |- flags_finish (flags_loop _ _ ?e0 (mutt_str_replace _ ?old _) 0) = _ =>
      destruct (flags_section_spec env Hok e0 old (skipn 3 p))
        as (e2 & G & G1 & G2 & G3 & G4 & G5 & G6)
  end.
  rewrite G. f_equal.
  cbn [set_replied set_read set_flagged flagged read replied trash deleted edata orb] in *.
  apply email_ext; try congruence.
  - rewrite G4, H4, <- orb_assoc, orb_diag. reflexivity.
  - rewrite G5, H5, <- orb_assoc, orb_diag. reflexivity.
Qed.

Lemma maildir_env_ok : MaildirEnvOk maildir_env.
Proof.
  constructor.
  - intros s. unfold maildir_env. cbn [mutt_str_startswith].
    destruct (has_prefix (lit "2,") s); reflexivity.
  - reflexivity.
  - intros old. left. reflexivity.
  - reflexivity.
Qed.

(** * Maildir statistics *)

Lemma check_dir_loop_ok (env : CheckEnv) (dv : cstr) (check_new check_stats : bool)
      (entries : list DirEnt) :
  forall m, counters_ok m ->
            counters_ok (check_dir_loop env dv check_new check_stats entries m).
Proof.
  induction entries as [|de rest IH]; intros m Hm; cbn [check_dir_loop]; [exact Hm|].
  destruct (deref (d_name de) =? "."); [apply IH; exact Hm|].
  destruct (has_flag (strstr (d_name de) dv) "T"); [apply IH; exact Hm|].
  destruct Hm as (H1 & H2 & H3 & H4).
  destruct check_stats, (has_flag (strstr (d_name de) dv) "F"),
    (has_flag (strstr (d_name de) dv) "S"), check_new,
    (c_mail_check_recent env && seen_before de);
    cbn [negb]; try apply IH; unfold counters_ok;
    cbn [incr_count incr_flagged incr_unread incr_new set_has_new
         msg_count msg_flagged msg_unread msg_new has_new];
    repeat split; try lia; try reflexivity; try (intros; apply H4; lia).
Qed.

Lemma maildir_check_dir_ok (env : CheckEnv) (m : Mailbox) (dir_name : cstr)
      (check_new check_stats : bool) :
  counters_ok m -> counters_ok (maildir_check_dir env m dir_name check_new check_stats).
Proof.
  intros Hm. unfold maildir_check_dir.
  destruct (negb _); [exact Hm|].
  destruct (dir_entries (dir_view env dir_name)); [apply check_dir_loop_ok; exact Hm|].
  exact Hm.
Qed.

(** X14: after [maildir_mbox_check_stats] with the statistics flag set the
    counters are consistent, whatever they were before and whatever the
    directories hold: 0 <= msg_new <= msg_unread <= msg_count and
    0 <= msg_flagged <= msg_count; a counted new message comes with
    [has_new] set; and the status returned is new-mail exactly when
    [msg_new] is positive. *)
Theorem maildir_mbox_check_stats_counters (env : CheckEnv) (m : Mailbox) (flags : Z)
        (Hstats : Z.land flags (MUTT_MAILBOX_CHECK_STATS env) <> 0%Z) :
  counters_ok (fst (maildir_mbox_check_stats env m flags)) /\
  (snd (maildir_mbox_check_stats env m flags) = MX_STATUS_NEW_MAIL <->
   (0 < msg_new (fst (maildir_mbox_check_stats env m flags)))%Z).
Proof.
  unfold maildir_mbox_check_stats. apply Z.eqb_neq in Hstats. rewrite Hstats.
  cbn [negb orb fst snd]. rewrite orb_true_r.
  set (m0 := mkMailbox 0 0 0 0 (has_new m) (type m)).
  assert (H0 : counters_ok m0).
  { unfold counters_ok, m0. cbn. repeat split; try lia. }
  set (m1 := maildir_check_dir env m0 (lit "new") true true).
  assert (H1 : counters_ok m1) by (apply maildir_check_dir_ok; exact H0).
  set (m2 := maildir_check_dir env m1 (lit "cur") _ true).
  assert (H2 : counters_ok m2) by (apply maildir_check_dir_ok; exact H1).
  split; [exact H2|].
  destruct H2 as ((Hn & _) & _).
  destruct (msg_new m2 =? 0)%Z eqn:Hz.
  - apply Z.eqb_eq in Hz. split; [discriminate | lia].
  - apply Z.eqb_neq in Hz. split; [lia | reflexivity].
Qed.

Lemma check_dir_loop_has_new (env : CheckEnv) (dv : cstr) (check_new check_stats : bool)
      (entries : list DirEnt) :
  forall m,
    has_new (check_dir_loop env dv check_new check_stats entries m)
    = has_new m || (check_new && existsb (is_new_mail env dv) entries).
Proof.
  induction entries as [|de rest IH]; intros m; cbn [check_dir_loop existsb].
  - rewrite andb_false_r, orb_false_r. reflexivity.
  - unfold is_new_mail at 1. unfold counted.
    destruct (deref (d_name de) =? "."); [rewrite IH; reflexivity|].
    destruct (has_flag (strstr (d_name de) dv) "T"); [rewrite IH; reflexivity|].
    destruct (has_flag (strstr (d_name de) dv) "S"); cbn [negb andb orb].
    + rewrite IH. destruct check_stats, (has_flag (strstr (d_name de) dv) "F"); reflexivity.
    + destruct check_new; cbn [andb].
      * destruct (c_mail_check_recent env && seen_before de); cbn [negb orb].
        -- rewrite IH. destruct check_stats, (has_flag (strstr (d_name de) dv) "F");
             reflexivity.
        -- destruct check_stats; [rewrite IH|];
             destruct (has_flag (strstr (d_name de) dv) "F"); cbn; apply eq_sym, orb_true_r.
      * rewrite IH. destruct check_stats, (has_flag (strstr (d_name de) dv) "F");
          cbn; rewrite ?orb_false_r; reflexivity.
Qed.

(** X15: [maildir_check_dir] never clears [has_new]; it sets it exactly when
    it looks for new mail (asked to, and not stopped by
    [$mail_check_recent] on a directory unmodified since the last visit),
    the directory opens, and it holds a file that is not a dot file, not
    trashed, not seen and, under [$mail_check_recent], not seen before the
    last visit.  Stopping at the first such file when no statistics are
    wanted does not change the outcome. *)
Theorem maildir_check_dir_has_new (env : CheckEnv) (m : Mailbox) (dir_name : cstr)
        (check_new check_stats : bool) :
  has_new (maildir_check_dir env m dir_name check_new check_stats)
  = has_new m ||
    (check_new &&
     negb (c_mail_check_recent env && dir_untouched (dir_view env dir_name)) &&
     match dir_entries (dir_view env dir_name) with
     | Some entries =>
         existsb (is_new_mail env (c_string [check_delimiter env; "2"; ","])) entries
     | None => false
     end).
Proof.
  unfold maildir_check_dir.
  destruct check_new, (c_mail_check_recent env), (dir_untouched (dir_view env dir_name)),
    check_stats, (dir_entries (dir_view env dir_name)) as [entries|];
    cbn [andb orb negb]; rewrite ?check_dir_loop_has_new; cbn [andb orb set_type has_new];
    rewrite ?orb_false_r; reflexivity.
Qed.

Lemma check_dir_loop_counts (env : CheckEnv) (dv : cstr) (check_new : bool)
      (entries : list DirEnt) :
  forall m,
    let m' := check_dir_loop env dv check_new true entries m in
    msg_count m' = (msg_count m + count_if (counted dv) entries)%Z /\
    msg_flagged m'
    = (msg_flagged m
       + count_if (fun de => counted dv de && has_flag (strstr (d_name de) dv) "F")
                  entries)%Z /\
    msg_unread m'
    = (msg_unread m
       + count_if (fun de => counted dv de && negb (has_flag (strstr (d_name de) dv) "S"))
                  entries)%Z /\
    msg_new m'
    = (msg_new m + if check_new then count_if (is_new_mail env dv) entries else 0)%Z.
Proof.
  unfold count_if.
  induction entries as [|de rest IH]; intros m; cbn [check_dir_loop filter].
  - cbn. destruct check_new; repeat split; lia.
  - assert (Hc : counted dv de
                 = negb (deref (d_name de) =? ".")
                   && negb (has_flag (strstr (d_name de) dv) "T")) by reflexivity.
    assert (Hn : is_new_mail env dv de
                 = counted dv de && negb (has_flag (strstr (d_name de) dv) "S")
                   && negb (c_mail_check_recent env && seen_before de)) by reflexivity.
    rewrite Hn, Hc. clear Hn Hc.
    destruct (deref (d_name de) =? "."),
      (has_flag (strstr (d_name de) dv) "T"),
      (has_flag (strstr (d_name de) dv) "F"),
      (has_flag (strstr (d_name de) dv) "S"), check_new,
      (c_mail_check_recent env && seen_before de);
      cbn [negb andb];
      match goal with
      | |- context [check_dir_loop env dv ?cn true rest ?m0] =>
          destruct (IH m0) as (H1 & H2 & H3 & H4)
      end;
      cbv zeta in *; rewrite H1, H2, H3, H4;
      cbn [incr_count incr_flagged incr_unread incr_new set_has_new
           msg_count msg_flagged msg_unread msg_new length];
      repeat split; lia.
Qed.

Lemma count_if_bounds (f : DirEnt -> bool) (entries : list DirEnt) :
  (0 <= count_if f entries <= Z.of_nat (length entries))%Z.
Proof.
  unfold count_if. pose proof (filter_length_le f entries). lia.
Qed.

(** X16: with statistics wanted and the directory open, on a mailbox whose
    counters are [int]s with room for one increment per directory entry,
    [maildir_check_dir] adds to [msg_count] the number of its files that
    are neither dot files nor trashed, to [msg_flagged] those of them
    marked ['F'], to [msg_unread] those of them not marked ['S'], and to
    [msg_new], when it looks for new mail, those unread ones that count as
    new; the four counters stay in the range of [int]. *)
Theorem maildir_check_dir_counts (env : CheckEnv) (m : Mailbox) (dir_name : cstr)
        (check_new : bool) (entries : list DirEnt)
        (Hopen : dir_entries (dir_view env dir_name) = Some entries)
        (Hfit : counters_fit m (length entries)) :
  let dv := c_string [check_delimiter env; "2"; ","] in
  let looks := check_new &&
               negb (c_mail_check_recent env && dir_untouched (dir_view env dir_name)) in
  let m' := maildir_check_dir env m dir_name check_new true in
  msg_count m' = (msg_count m + count_if (counted dv) entries)%Z /\
  msg_flagged m'
  = (msg_flagged m
     + count_if (fun de => counted dv de && has_flag (strstr (d_name de) dv) "F")
                entries)%Z /\
  msg_unread m'
  = (msg_unread m
     + count_if (fun de => counted dv de && negb (has_flag (strstr (d_name de) dv) "S"))
                entries)%Z /\
  msg_new m'
  = (msg_new m + if looks then count_if (is_new_mail env dv) entries else 0)%Z /\
  counters_fit m' 0.
Proof.
  intros dv looks m'.
  assert (H : msg_count m' = (msg_count m + count_if (counted dv) entries)%Z /\
              msg_flagged m'
              = (msg_flagged m
                 + count_if (fun de => counted dv de
                                       && has_flag (strstr (d_name de) dv) "F")
                            entries)%Z /\
              msg_unread m'
              = (msg_unread m
                 + count_if (fun de => counted dv de
                                       && negb (has_flag (strstr (d_name de) dv) "S"))
                            entries)%Z /\
              msg_new m'
              = (msg_new m + if looks then count_if (is_new_mail env dv) entries else 0)%Z).
  { subst m' looks. unfold maildir_check_dir. rewrite Hopen.
    rewrite orb_true_r. cbn [negb].
    destruct check_new, (c_mail_check_recent env), (dir_untouched (dir_view env dir_name));
      cbn [andb negb]; apply check_dir_loop_counts. }
  destruct H as (H1 & H2 & H3 & H4).
  split; [exact H1|]. split; [exact H2|]. split; [exact H3|]. split; [exact H4|].
  destruct Hfit as ((?&?) & (?&?) & (?&?) & (?&?)).
  pose proof (count_if_bounds (counted dv) entries).
  pose proof (count_if_bounds
                (fun de => counted dv de && has_flag (strstr (d_name de) dv) "F") entries).
  pose proof (count_if_bounds
                (fun de => counted dv de && negb (has_flag (strstr (d_name de) dv) "S"))
                entries).
  pose proof (count_if_bounds (is_new_mail env dv) entries).
  unfold counters_fit. rewrite H1, H2, H3, H4.
  change (Z.of_nat 0) with 0%Z.
  destruct looks; repeat split; lia.
Qed.

Lemma strstr_first (d : ascii) (needle pre rest : cstr) :
  ~ In d pre -> has_prefix (d :: needle) (d :: rest) = true ->
  strstr (pre ++ d :: rest) (d :: needle) = Some (d :: rest).
Proof.
  intros Hin Hp. induction pre as [|x pre IH]; cbn [app].
  - destruct rest; cbn [strstr]; rewrite Hp; reflexivity.
  - cbn [strstr has_prefix].
    assert (Hx : (d =? x) = false)
      by (apply Ascii.eqb_neq; intros ->; apply Hin; left; reflexivity).
    rewrite Hx. cbn [andb]. apply IH. intros H. apply Hin. right. exact H.
Qed.

Lemma strchr_existsb (c : ascii) (s : cstr) :
  c <> NUL -> negb (is_none (strchr s c)) = existsb (Ascii.eqb c) s.
Proof.
  intros Hc. induction s as [|x s IH]; cbn [strchr existsb].
  - apply Ascii.eqb_neq in Hc. rewrite Hc. reflexivity.
  - rewrite (Ascii.eqb_sym c x). destruct (x =? c); [reflexivity | exact IH].
Qed.

Lemma has_prefix_refl (s rest : cstr) : has_prefix s (s ++ rest) = true.
Proof.
  induction s as [|x s IH]; cbn [has_prefix app]; [reflexivity|].
  rewrite Ascii.eqb_refl. exact IH.
Qed.

(** X17: on a file name with a single field delimiter, followed by [2,] and
    the flags, the directory scan and the file-name parser read the same
    flags: the scan counts the file as flagged exactly when
    [maildir_parse_flags] sets [flagged], as read exactly when it sets
    [read], and skips it as trashed exactly when the flags hold a ['T']. *)
Theorem maildir_scan_agrees_with_parse (env : MaildirEnv) (Hok : MaildirEnvOk env)
        (cenv : CheckEnv) (e : Email) (pre fl : cstr)
        (Hsame : check_delimiter cenv = c_maildir_field_delimiter env)
        (Hd : c_maildir_field_delimiter env <> NUL)
        (Hpre : ~ In (c_maildir_field_delimiter env) pre)
        (Hin : ~ In (c_maildir_field_delimiter env) ("2" :: "," :: fl)) :
  let name := pre ++ c_maildir_field_delimiter env :: "2" :: "," :: fl in
  let p := strstr name (c_string [check_delimiter cenv; "2"; ","]) in
  exists e',
    maildir_parse_flags env e name = Some e' /\
    flagged e' = has_flag p "F" /\
    read e' = has_flag p "S" /\
    has_flag p "T" = existsb (Ascii.eqb "T") fl.
Proof.
  intros name p.
  destruct (parse_flags_section env Hok e pre fl Hd Hin)
    as (e' & H & H1 & _ & H3 & _).
  exists e'. split; [exact H|].
  assert (Hp : p = Some (c_maildir_field_delimiter env :: "2" :: "," :: fl)).
  { subst p name. rewrite Hsame. cbn [c_string].
    apply Ascii.eqb_neq in Hd. rewrite Hd. cbn.
    apply strstr_first; [exact Hpre|].
    apply (has_prefix_refl [c_maildir_field_delimiter env; "2"; ","] fl). }
  rewrite Hp. cbn [has_flag skipn].
  rewrite !strchr_existsb by discriminate.
  repeat split; assumption.
Qed.

(** * Parsing and rendering together *)

Lemma tree_run_nonnull (K : Collaborators) (fuel : nat) (defs : list ExpandoDefinition)
      start err l err' :
  tree_run K fuel defs start err l true err' -> start <> [] -> l <> [].
Proof.
  intros Hrun. inversion Hrun; subst; intros Hne; [contradiction | discriminate].
Qed.

(** X18: an Expando that [expando_parse] returned always has a root node,
    provided the re-pad pass does not turn a non-empty list into a null
    one; so [expando_render] on it with a callback table never takes the
    early exit, and is [node_render] on the root with 8192 columns for
    [max_cols = -1] and with [max_cols] otherwise. *)
Theorem expando_render_parsed (K : Collaborators) (HK : WellBehaved K)
        (Hrepad : forall l, l <> [] -> node_padding_repad K l <> [])
        (fuel : nat) (s : cstr) (defs : list ExpandoDefinition) (buf : Buffer)
        (o : ParseOutcome) (e : Expando)
        (Hparse : expando_parse K fuel (Some s) (Some defs) buf = Some o)
        (Hret : ret o = Some e)
        (RenderData Data : Type)
        (node_render : list ExpandoNode -> RenderData -> Buffer -> Z -> Data -> Z
                       -> Z * Buffer)
        (rd : RenderData) (data : Data) (flags max_cols : Z) (out : Buffer) :
  node e <> [] /\
  expando_render node_render (Some e) (Some rd) data flags max_cols out
  = node_render (node e) rd out (if (max_cols =? -1)%Z then 8192%Z else max_cols)
                data flags.
Proof.
  assert (Hnode : node e <> []).
  { destruct s as [|c s].
    - cbv in Hparse. injection Hparse as <-. cbn in Hret. injection Hret as <-.
      discriminate.
    - destruct (expando_parse_outcome K HK fuel c s defs buf o Hparse)
        as (l & completed & error & Hrun & Hfail & Hok).
      destruct completed.
      + destruct (Hok eq_refl) as (_ & Hr & _). rewrite Hr in Hret.
        injection Hret as <-. cbn [node]. apply Hrepad.
        eapply tree_run_nonnull; [exact Hrun | discriminate].
      + destruct (Hfail eq_refl) as (_ & Hr & _). rewrite Hr in Hret. discriminate. }
  split; [exact Hnode|].
  unfold expando_render. destruct (node e); [contradiction | reflexivity].
Qed.

(** * The reference instances meet the further assumptions *)

Lemma reference_skip_digits_suffix (s : cstr) : is_suffix (Reference.skip_digits s) s.
Proof.
  induction s as [|x s IH]; cbn [Reference.skip_digits]; [apply is_suffix_refl|].
  destruct (Reference.is_digit x); [apply is_suffix_cons, IH | apply is_suffix_refl].
Qed.

Lemma reference_skip_spec_suffix (s : cstr) : is_suffix (Reference.skip_spec s) s.
Proof.
  unfold Reference.skip_spec.
  set (s1 := match s with
             | [] => s
             | c :: rest => if (c =? "-") || (c =? "=") then rest else s
             end).
  assert (H1 : is_suffix s1 s).
  { subst s1. destruct s as [|c rest]; [apply is_suffix_refl|].
    destruct ((c =? "-") || (c =? "="));
      [apply is_suffix_cons, is_suffix_refl | apply is_suffix_refl]. }
  pose proof (reference_skip_digits_suffix s1) as H2.
  destruct (Reference.skip_digits s1) as [|c rest] eqn:Hd.
  - eapply is_suffix_trans; eassumption.
  - destruct (c =? ".").
    + eapply is_suffix_trans; [apply reference_skip_digits_suffix|].
      eapply is_suffix_trans; [apply is_suffix_cons, is_suffix_refl|].
      eapply is_suffix_trans; eassumption.
    + eapply is_suffix_trans; eassumption.
Qed.

Lemma reference_text_end_suffix (s : cstr) (e : option cstr) :
  is_suffix (Reference.text_end s e) s.
Proof.
  induction s as [|x s IH]; cbn [Reference.text_end]; [apply is_suffix_refl|].
  destruct (x =? "%"); [apply is_suffix_refl|].
  destruct (match e with Some e0 => ptr_le e0 (x :: s) | None => false end);
    [apply is_suffix_refl | apply is_suffix_cons, IH].
Qed.

Lemma reference_parse_code_inside (kind : ExpandoNodeType) :
  stays_inside (Reference.parse_code kind).
Proof.
  intros str defs flags err r err'. unfold Reference.parse_code.
  destruct (match Reference.find_code 2 (Reference.skip_spec str) defs with
            | Some d => Some d
            | None => Reference.find_code 1 (Reference.skip_spec str) defs
            end) as [d|]; intros [= <- <-].
  - split; [|auto]. intros n u [= _ <-].
    eapply is_suffix_trans; [|apply reference_skip_spec_suffix].
    eexists. reflexivity.
  - split; [discriminate|]. cbn [position]. intros q [= <-]. right.
    apply reference_skip_spec_suffix.
Qed.

Lemma reference_inside : Inside Reference.K.
Proof.
  constructor.
  - apply reference_parse_code_inside.
  - apply reference_parse_code_inside.
  - intros str end_ n u. cbn. unfold Reference.node_text_parse. intros [= _ <-].
    apply reference_text_end_suffix.
Qed.

Lemma reference_regroup_nonnull (l left : list ExpandoNode) :
  left <> [] \/ l <> [] -> Reference.regroup left l <> [].
Proof.
  revert left. induction l as [|n l IH]; intros left H; cbn [Reference.regroup].
  - destruct H as [H | H]; [exact H | contradiction].
  - destruct (Reference.is_padding n); [discriminate|].
    apply IH. left. destruct left; discriminate.
Qed.

Lemma reference_repad_nonnull (l : list ExpandoNode) :
  l <> [] -> node_padding_repad Reference.K l <> [].
Proof.
  intros H. cbn. unfold Reference.node_padding_repad.
  destruct (existsb Reference.is_padding l); [|exact H].
  apply reference_regroup_nonnull. right. exact H.
Qed.

(** * The further properties on the reference instances *)

Lemma node_parse_missing_end_at_eos_witness :
  skip_until_if_true_end (lit "x>") "?" = lit "" /\
  node_parse Reference.K 2 (lit "%?f?x>") (Some (lit ">")) CON_NO_CONDITION
             Reference.TestFormatDef error_zero
  = Some (Null, mkError (Some (lit ""))
                        (lit "Conditional expando is missing '&' or '?'")).
Proof.
  assert (He : entry_ok ("%" :: "?" :: lit "f?x>") (Some (lit ">")))
    by (split; [discriminate | simpl; lia]).
  refine (node_parse_missing_end_at_eos
            Reference.K 1 "%" "?" (lit "f?x>") (Some (lit ">")) CON_NO_CONDITION
            Reference.TestFormatDef
            error_zero error_zero (Node ENT_CONDBOOL (Some (lit "f")) 1 2 []) (lit "x>")
            eq_refl He (or_intror eq_refl) eq_refl _ _); vm_compute; discriminate.
Defined.

Lemma node_parse_missing_false_end_witness :
  skip_until_if_false_end (lit "yyy>") "?" = lit "" /\
  node_parse Reference.K 3 (lit "%?f?x&yyy>") (Some (lit "&yyy>")) CON_NO_CONDITION
             Reference.TestFormatDef error_zero
  = Some (Null, mkError (Some (lit "yyy>")) (lit "Conditional expando is missing '?'")).
Proof.
  assert (He : entry_ok ("%" :: "?" :: lit "f?x&yyy>") (Some (lit "&yyy>")))
    by (split; [discriminate | simpl; lia]).
  refine (node_parse_missing_false_end
            Reference.K 2 "%" "?" (lit "f?x&yyy>") (Some (lit "&yyy>")) CON_NO_CONDITION
            Reference.TestFormatDef
            error_zero error_zero error_zero
            (Node ENT_CONDBOOL (Some (lit "f")) 1 2 []) (lit "x&yyy>")
            [Node ENT_TEXT (Some (lit "x")) 0 0 []] (lit "&yyy>")
            eq_refl He (or_intror eq_refl) eq_refl eq_refl eq_refl _).
  vm_compute. discriminate.
Defined.


Lemma node_tree_parse_terminates_witness :
  (forall end_ cs,
      entry_strict (lit "%<c?xxx") end_ cs ->
      exists r err',
        node_parse Reference.K 8 (lit "%<c?xxx") end_ cs Reference.TestFormatDef error_zero
        = Some (r, err') /\
        forall n u, r = Parsed n u -> length u < length (lit "%<c?xxx")) /\
  (exists root' err',
      node_tree_parse Reference.K 8 [] (Some (lit "%<c?xxx")) Reference.TestFormatDef
                      error_zero = Some (root', err')).
Proof.
  apply (node_tree_parse_terminates Reference.K reference_well_behaved reference_advancing
                                    8 (lit "%<c?xxx") Reference.TestFormatDef []
                                    error_zero).
  vm_compute. lia.
Defined.

Lemma node_parse_stays_inside_witness :
  is_suffix (lit "") (lit "%<c?xxx") /\
  offset (lit "%<c?xxx") (lit "") <= length (lit "%<c?xxx") /\
  skipn (offset (lit "%<c?xxx") (lit "")) (lit "%<c?xxx") = lit "".
Proof.
  exact (proj2 (node_parse_stays_inside Reference.K reference_inside 8 (lit "%<c?xxx")
                                        Reference.TestFormatDef)
               [] []
               (mkError (Some (lit "")) (lit "Conditional expando is missing '&' or '>'"))
               (lit "") eq_refl eq_refl).
Defined.

Lemma expando_render_parsed_witness :
  expando_render (fun (_ : list ExpandoNode) (_ : unit) (b : Buffer) (cols : Z)
                      (_ : unit) (_ : Z) => (cols, b))
                 (Some (mkExpando (Some (lit "%%")) [Node ENT_TEXT (Some (lit "%")) 0 0 []]))
                 (Some tt) tt 0 (-1) (lit "")
  = (8192%Z, lit "").
Proof.
  refine (proj2 (expando_render_parsed
                   Reference.K reference_well_behaved reference_repad_nonnull
                   3 (lit "%%") Reference.TestFormatDef (lit "")
                   (mkOutcome (Some (mkExpando (Some (lit "%%"))
                                               [Node ENT_TEXT (Some (lit "%")) 0 0 []]))
                              (lit "") [])
                   (mkExpando (Some (lit "%%")) [Node ENT_TEXT (Some (lit "%")) 0 0 []])
                   eq_refl eq_refl unit unit _ tt tt 0%Z (-1)%Z (lit ""))).
Defined.

Lemma maildir_parse_flags_reads_witness :
  exists e',
    maildir_parse_flags maildir_env (mkEmail true true true false false None)
                        (lit "m1:2,FaSb") = Some e' /\
    flagged e' = true /\ replied e' = false /\ read e' = true /\
    edata e' = Some (mkEdata (Some (lit "ab"))).
Proof.
  refine (maildir_parse_flags_reads maildir_env maildir_env_ok
                                    (mkEmail true true true false false None)
                                    (lit "m1") (lit "FaSb") _ _).
  - discriminate.
  - cbn. intuition discriminate.
Defined.

Lemma maildir_parse_flags_trash_witness :
  exists e',
    maildir_parse_flags maildir_env (mkEmail false false false false false None)
                        (lit "m1:2,FT") = Some e' /\
    (trash e' = true <->
     false = true \/
     exists a b, lit "FT" = a ++ "T" :: b /\ (true = false \/ ~ In "F" a)) /\
    (deleted e' = true <->
     false = true \/
     exists a b, lit "FT" = a ++ "T" :: b /\ (true = false \/ ~ In "F" a)).
Proof.
  refine (maildir_parse_flags_trash maildir_env maildir_env_ok
                                    (mkEmail false false false false false None)
                                    (lit "m1") (lit "FT") _ _).
  - discriminate.
  - cbn. intuition discriminate.
Defined.

Lemma maildir_parse_flags_no_section_witness :
  maildir_parse_flags maildir_env
                      (mkEmail true true true true false (Some (mkEdata (Some (lit "ab")))))
                      (lit "m1")
  = Some (mkEmail false false false true false (Some (mkEdata (Some (lit "ab"))))).
Proof.
  refine (maildir_parse_flags_no_section
            maildir_env maildir_env_ok
            (mkEmail true true true true false (Some (mkEdata (Some (lit "ab")))))
            (lit "m1") _ _).
  - discriminate.
  - left. cbn. intuition discriminate.
Defined.

Lemma maildir_parse_flags_idempotent_witness :
  exists e1,
    maildir_parse_flags maildir_env (mkEmail false false false false false None)
                        (lit "m1:2,TFx") = Some e1 /\
    maildir_parse_flags maildir_env e1 (lit "m1:2,TFx") = Some e1.
Proof.
  exact (maildir_parse_flags_idempotent maildir_env maildir_env_ok
                                        (mkEmail false false false false false None)
                                        (lit "m1:2,TFx")).
Defined.

Lemma maildir_scan_agrees_with_parse_witness :
  exists e',
    maildir_parse_flags maildir_env (mkEmail false false false false false None)
                        (lit "m1:2,FS") = Some e' /\
    flagged e' = true /\ read e' = true /\
    has_flag (strstr (lit "m1:2,FS") (lit ":2,")) "T" = false.
Proof.
  refine (maildir_scan_agrees_with_parse
            maildir_env maildir_env_ok check_env
            (mkEmail false false false false false None) (lit "m1") (lit "FS")
            eq_refl _ _ _).
  - discriminate.
  - cbn. intuition discriminate.
  - cbn. intuition discriminate.
Defined.

Lemma maildir_mbox_check_stats_counters_witness :
  counters_ok (fst (maildir_mbox_check_stats check_env
                                             (mkMailbox 7 9 (-1) 3 false MUTT_MAILDIR) 1)) /\
  (snd (maildir_mbox_check_stats check_env (mkMailbox 7 9 (-1) 3 false MUTT_MAILDIR) 1)
   = MX_STATUS_NEW_MAIL <->
   (0 < msg_new (fst (maildir_mbox_check_stats
                        check_env (mkMailbox 7 9 (-1) 3 false MUTT_MAILDIR) 1)))%Z).
Proof.
  apply (maildir_mbox_check_stats_counters check_env
                                           (mkMailbox 7 9 (-1) 3 false MUTT_MAILDIR) 1).
  vm_compute. discriminate.
Defined.

Lemma maildir_check_dir_counts_witness :
  msg_count (maildir_check_dir check_env (mkMailbox 0 0 0 0 false MUTT_MAILDIR)
                               (lit "new") true true) = 2%Z /\
  msg_flagged (maildir_check_dir check_env (mkMailbox 0 0 0 0 false MUTT_MAILDIR)
                                 (lit "new") true true) = 1%Z /\
  msg_unread (maildir_check_dir check_env (mkMailbox 0 0 0 0 false MUTT_MAILDIR)
                                (lit "new") true true) = 1%Z /\
  msg_new (maildir_check_dir check_env (mkMailbox 0 0 0 0 false MUTT_MAILDIR)
                             (lit "new") true true) = 1%Z /\
  counters_fit (maildir_check_dir check_env (mkMailbox 0 0 0 0 false MUTT_MAILDIR)
                                  (lit "new") true true) 0.
Proof.
  assert (Hfit : counters_fit (mkMailbox 0 0 0 0 false MUTT_MAILDIR) 3)
    by (unfold counters_fit, INT_MIN, INT_MAX; cbn; lia).
  exact (maildir_check_dir_counts
           check_env (mkMailbox 0 0 0 0 false MUTT_MAILDIR) (lit "new") true
           [mkDirEnt (lit "m1:2,FS") false; mkDirEnt (lit ".hidden") false;
            mkDirEnt (lit "m2:2,") false]
           eq_refl Hfit).
Defined.
